(** * Learn Hebrew in Context: the text-replacement engine

    A shallow embedding of the content script ([src/content/content.ts]),
    of the replacement policy and the helpers of [src/shared/utils.ts] and
    of the vocabulary store ([src/shared/database.ts]), with the properties
    the specification states about them, and further properties of the
    same code: the methods of the database, the context of an occurrence,
    the excluded domains, [debounce] and [throttle], the timers of the
    script, what a pass replaces, what it shows and what it keeps, and
    the occurrences the background script records
    ([src/background/background.ts]).

    Conventions.
    - A JavaScript string is the list of its UTF-16 code units ([jsstring]).
    - A JavaScript number is an IEEE 754 binary64 value ([number]), with the
      arithmetic of the Standard Library's [SpecFloat].
    - A DOM node is a tree node that carries its identity ([nid]); the
      objects of the script ([Map], [WeakSet], [Set]) are keyed by it.
    - [await] points of the content script are not modelled: every
      operation runs to its end before the next one starts.  The handler of
      the background script is described request by request. *)

From Stdlib Require Import ZArith NArith List Bool Ascii String Lia.
From Stdlib Require Import Floats.SpecFloat Sorting.Sorted.
From stdpp Require Import gmap list.

Set Default Proof Using "Type".
#[local] Set Warnings "-register-all".

(** ** JavaScript strings *)

Module Js.

(** A string is a sequence of 16-bit code units. *)
Definition jsstring : Type := list N.

(** The code units of an ASCII literal. *)
Definition str (s : string) : jsstring :=
  List.map N_of_ascii (list_ascii_of_string s).

Definition between (lo hi c : N) : bool := (lo <=? c)%N && (c <=? hi)%N.

(** The class [\s] of regular expressions, which is also what [trim]
    removes: WhiteSpace and LineTerminator of ECMAScript. *)
Definition isWhiteSpace (c : N) : bool :=
  between 9 13 c || (c =? 32)%N || (c =? 160)%N || (c =? 5760)%N
  || between 8192 8202 c || (c =? 8232)%N || (c =? 8233)%N
  || (c =? 8239)%N || (c =? 8287)%N || (c =? 12288)%N || (c =? 65279)%N.

Definition isUpper (c : N) : bool := between 65 90 c.
Definition isLower (c : N) : bool := between 97 122 c.
Definition isDigit (c : N) : bool := between 48 57 c.

(** The class [\w] (no [u] or [i] flag): [A-Za-z0-9_]. *)
Definition isWordChar (c : N) : bool :=
  isUpper c || isLower c || isDigit c || (c =? 95)%N.

Definition isAscii (c : N) : bool := (c <? 128)%N.

(** [toLowerCase] on one ASCII code unit. *)
Definition asciiLower (c : N) : N := if isUpper c then (c + 32)%N else c.

(** [String.prototype.toLowerCase] follows the Unicode case mappings, a
    table this development does not spell out.  What the engine relies on
    is kept as the interface of the operation: on a string of ASCII code
    units it maps [A-Z] to [a-z] and keeps the rest, and no code unit of
    its result is one of [A-Z]. *)
Class LowerCase := {
  toLowerCase : jsstring -> jsstring;
  toLowerCase_ascii :
    forall s, forallb isAscii s = true -> toLowerCase s = List.map asciiLower s;
  toLowerCase_no_upper :
    forall s c, In c (toLowerCase s) -> isUpper c = false
}.

(** A lower-casing that can be run: ASCII, the Latin-1 capitals, and the
    two code points outside ASCII whose lower case holds an ASCII letter
    (KELVIN SIGN, and LATIN CAPITAL LETTER I WITH DOT ABOVE, which becomes
    [i] followed by a combining dot). Other code units are kept. *)
Definition lowerUnit (c : N) : list N :=
  if isUpper c then [(c + 32)%N]
  else if (c =? 8490)%N then [107%N]
  else if (c =? 304)%N then [105%N; 775%N]
  else if between 192 222 c && negb (c =? 215)%N then [(c + 32)%N]
  else [c].

Definition basicLower (s : jsstring) : jsstring := flat_map lowerUnit s.

(** [String.prototype.trim]. *)
Fixpoint trimStart (s : jsstring) : jsstring :=
  match s with
  | [] => []
  | c :: s' => if isWhiteSpace c then trimStart s' else s
  end.

Definition trimEnd (s : jsstring) : jsstring := rev (trimStart (rev s)).

Definition trim (s : jsstring) : jsstring := trimEnd (trimStart s).

(** [s.replace(/[^\w]/g, '')]. *)
Definition stripNonWord (s : jsstring) : jsstring := List.filter isWordChar s.

(** [/\s/.test(s)]. *)
Definition hasWhiteSpace (s : jsstring) : bool := existsb isWhiteSpace s.

Definition eqb (s t : jsstring) : bool := bool_decide (s = t).

Fixpoint startsWith (s prefix : jsstring) : bool :=
  match prefix, s with
  | [], _ => true
  | _ :: _, [] => false
  | p :: prefix', c :: s' => (p =? c)%N && startsWith s' prefix'
  end.

(** [s.includes(sub)]. *)
Fixpoint includes (s sub : jsstring) : bool :=
  startsWith s sub ||
  match s with
  | [] => false
  | _ :: s' => includes s' sub
  end.

(** [s.endsWith(suffix)]. *)
Definition endsWith (s suffix : jsstring) : bool :=
  startsWith (rev s) (rev suffix).

(** [s.split(/(\s+)/)]: the pieces between the maximal runs of white space,
    and, because of the capture group, the runs themselves.  The scan is in
    a word or in a run; [acc] is the piece read so far. *)
Inductive SplitMode := InWord | InSpace.

Fixpoint splitFrom (m : SplitMode) (acc s : jsstring) : list jsstring :=
  match s with
  | [] => match m with InWord => [acc] | InSpace => [acc; []] end
  | c :: s' =>
    match m, isWhiteSpace c with
    | InWord, false => splitFrom InWord (acc ++ [c]) s'
    | InWord, true => acc :: splitFrom InSpace [c] s'
    | InSpace, true => splitFrom InSpace (acc ++ [c]) s'
    | InSpace, false => acc :: splitFrom InWord [c] s'
    end
  end.

Definition splitWhiteSpace (s : jsstring) : list jsstring := splitFrom InWord [] s.

(** A call returns a value or throws an error, given by its message. *)
Inductive Try (A : Type) :=
| Returns (a : A)
| Throws (message : jsstring).
Arguments Returns {A} a.
Arguments Throws {A} message.

End Js.

Export Js.

(** ** JavaScript numbers *)

Module Num.

(** A number is a binary64 value; there is one NaN. *)
Definition number : Type := spec_float.

Definition prec : Z := 53.
Definition emax : Z := 1024.

(** [x * y], rounded to nearest, ties to even. *)
Definition mul (x y : number) : number := SFmul prec emax x y.

(** [x < y]; false when either side is NaN. *)
Definition ltb (x y : number) : bool := SFltb x y.
Definition leb (x y : number) : bool := SFleb x y.

Definition NaN : number := S754_nan.
Definition zero : number := S754_zero false.
Definition one : number := S754_finite false 4503599627370496 (-52).

(** The literals of [shouldReplaceWord], as the nearest binary64 values. *)
Definition lit_100 : number := S754_finite false 7036874417766400 (-46).
Definition lit_0_8 : number := S754_finite false 7205759403792794 (-53).
Definition lit_0_5 : number := S754_finite false 4503599627370496 (-53).
Definition lit_0_3 : number := S754_finite false 5404319552844595 (-54).

(** The integer [n] as a number (exact below 2^53). *)
Definition ofZ (n : Z) : number := binary_normalize prec emax n 0 false.

(** The contract of [Math.random()]: a number in [0, 1). *)
Definition inUnitInterval (r : number) : bool := leb zero r && ltb r one.

(** [Math.random] draws from a source that the caller threads: the stream
    of the draws and how many were taken. *)
Record RandomSource := { draws : nat -> number; position : nat }.

Definition random (g : RandomSource) : number * RandomSource :=
  (draws g (position g), {| draws := draws g; position := S (position g) |}).

End Num.

Export Num.

(** ** [src/shared/types.ts] *)

(** Dates are milliseconds since the epoch. *)
Record VocabularyWord := {
  id : jsstring;
  english : jsstring;
  hebrew : jsstring;
  dateAdded : Z;
  lastSeen : option Z;
  timesShown : N;
  (** ['easy' | 'medium' | 'hard'] in the type; a string at run time. *)
  difficulty : jsstring;
  category : jsstring
}.

(** [occ_id] is the field [id] of the interface. *)
Record WordOccurrence := {
  occ_id : jsstring;
  wordId : jsstring;
  url : jsstring;
  timestamp : Z;
  context : jsstring
}.

Record UserSettings := {
  isEnabled : bool;
  (** ['all' | 'random' | 'difficulty-based'] in the type; a string at run time. *)
  replacementMode : jsstring;
  replacementPercentage : number;
  showTooltipDelay : number;
  categories : list jsstring;
  excludedDomains : list jsstring
}.

(** The payload of a [RecordOccurrenceMessage]. *)
Record RecordOccurrencePayload := {
  msg_wordId : jsstring;
  msg_url : jsstring;
  msg_context : jsstring
}.

(** ** [src/shared/utils.ts] *)

(** [new URL(url).hostname]: the parser of the platform, which throws on a
    string that is no URL ([None]). *)
Class UrlParser := {
  URL_hostname : jsstring -> option jsstring
}.

Section Utils.
Context {L : LowerCase} {U : UrlParser}.

(** [word.toLowerCase().trim().replace(/[^\w]/g, '')] *)
Definition normalizeWord (word : jsstring) : jsstring :=
  stripNonWord (trim (toLowerCase word)).

(** The object literal [difficultyMultiplier], read at a key.  A key that
    is none of its three own properties reads [undefined] or a member of
    [Object.prototype]; neither is a number ([None]). *)
Definition difficultyMultiplier (key : jsstring) : option number :=
  if eqb key (str "easy") then Some lit_0_8
  else if eqb key (str "medium") then Some lit_0_5
  else if eqb key (str "hard") then Some lit_0_3
  else None.

(** [ToNumber] of what [difficultyMultiplier[key]] reads. *)
Definition toNumber (v : option number) : number :=
  match v with Some x => x | None => NaN end.

(** [settings] is [None] when the caller passes null: reading
    [settings.isEnabled] throws a [TypeError]. *)
Definition shouldReplaceWord (word : VocabularyWord) (settings : option UserSettings)
    (g : RandomSource) : Try (bool * RandomSource) :=
  match settings with
  | None => Throws (str "TypeError")
  | Some settings =>
    if negb (isEnabled settings) then Returns (false, g)
    else if eqb (replacementMode settings) (str "all") then Returns (true, g)
    else if eqb (replacementMode settings) (str "random") then
      let '(r, g') := random g in
      Returns (ltb (mul r lit_100) (replacementPercentage settings), g')
    else if eqb (replacementMode settings) (str "difficulty-based") then
      (* Replace easier words more frequently *)
      let threshold :=
        mul (replacementPercentage settings)
            (toNumber (difficultyMultiplier (difficulty word))) in
      let '(r, g') := random g in
      Returns (ltb (mul r lit_100) threshold, g')
    else Returns (false, g)
  end.

(** [text.slice(start, end)] for indices already clamped to the string. *)
Definition slice (text : jsstring) (start stop : Z) : jsstring :=
  List.firstn (Z.to_nat (stop - start)) (List.skipn (Z.to_nat start) text).

Definition extractContext (text : jsstring) (wordIndex wordLength : Z) : jsstring :=
  let contextRadius := 50%Z in
  let start := Z.max 0 (wordIndex - contextRadius) in
  let stop := Z.min (Z.of_nat (List.length text)) (wordIndex + wordLength + contextRadius) in
  trim (slice text start stop).

Definition isDomainExcluded (url : jsstring) (excludedDomains : list jsstring) : bool :=
  match URL_hostname url with
  | Some domain =>
    existsb (fun excluded =>
               eqb domain excluded || endsWith domain (str "." ++ excluded))
            excludedDomains
  | None => true (* Exclude invalid URLs *)
  end.

End Utils.

(** ** [debounce] and [throttle] of [src/shared/utils.ts] *)

Section Timing.
Context {Args : Type}.

(** What a function made by [debounce(func, wait)] holds: its variable
    [timeout]; with it, the timers it has pending, each with the
    arguments its callback passes to [func], the handle the next timer
    gets, and the arguments [func] was called with so far. *)
Record Debounced := {
  timeout : option nat;
  waiting : gmap nat Args;
  nextHandle : nat;
  invoked : list Args
}.

(** [debounce(func, wait)] *)
Definition debounce : Debounced :=
  {| timeout := None; waiting := ∅; nextHandle := 1; invoked := [] |}.

(** A call of the function [debounce] returned. *)
Definition debounced (args : Args) (d : Debounced) : Debounced :=
  let kept :=
    match timeout d with
    | Some t => delete t (waiting d)
    | None => waiting d
    end in
  let t := nextHandle d in
  {| timeout := Some t; waiting := <[t := args]> kept; nextHandle := S t;
     invoked := invoked d |}.

(** The timer of handle [t] fires, if it is still pending. *)
Definition debounceTimer (t : nat) (d : Debounced) : Debounced :=
  match waiting d !! t with
  | Some args =>
    {| timeout := timeout d; waiting := delete t (waiting d);
       nextHandle := nextHandle d; invoked := invoked d ++ [args] |}
  | None => d
  end.

(** No timer is pending but the one [timeout] holds. *)
Definition oneWaiting (d : Debounced) : Prop :=
  map_Forall (fun t _ => timeout d = Some t) (waiting d).

(** What a function made by [throttle(func, limit)] holds: its variable
    [inThrottle] ([undefined] at first, which is falsy); with it, how
    many of its timers are pending and the arguments [func] was called
    with so far. *)
Record Throttled := {
  inThrottle : bool;
  resets : nat;
  passed : list Args
}.

(** What [func] does in a call the function made by [throttle] makes of
    it: the calls it makes of that function in its turn, each with what
    [func] does in it, and whether it ends by throwing. *)
Inductive FuncRun :=
| funcRun (calls : list (Args * FuncRun)) (throws : bool).

(** [throttle(func, limit)] *)
Definition throttle : Throttled :=
  {| inThrottle := false; resets := 0; passed := [] |}.

(** A call of the function [throttle] returned, in which [func] does
    [run]: [func] is called first, with [inThrottle] still unset; the
    flag is set and the timer armed when it has returned, and neither
    when it throws. *)
Fixpoint throttled (args : Args) (run : FuncRun) (th : Throttled) : Throttled :=
  if inThrottle th then th
  else
    match run with
    | funcRun calls throws =>
      let th :=
        {| inThrottle := inThrottle th; resets := resets th;
           passed := passed th ++ [args] |} in
      let th :=
        (fix each (calls : list (Args * FuncRun)) (th : Throttled) : Throttled :=
           match calls with
           | [] => th
           | (args', run') :: rest => each rest (throttled args' run' th)
           end) calls th in
      if throws then th
      else {| inThrottle := true; resets := S (resets th); passed := passed th |}
    end.

(** The calls [func] makes in its turn, one after the other. *)
Definition reentrant (calls : list (Args * FuncRun)) (th : Throttled) : Throttled :=
  fold_left (fun th c => throttled c.1 c.2 th) calls th.

(** One of its timers fires, if one is pending. *)
Definition throttleTimer (th : Throttled) : Throttled :=
  match resets th with
  | 0 => th
  | S n => {| inThrottle := false; resets := n; passed := passed th |}
  end.

(** What happens to a function made by [debounce]: it is called, or the
    timer of a handle fires. *)
Inductive Action :=
| Call (args : Args)
| Fire (t : nat).

Definition debounceStep (d : Debounced) (a : Action) : Debounced :=
  match a with
  | Call args => debounced args d
  | Fire t => debounceTimer t d
  end.

(** The arguments of the calls of a run. *)
Definition callsOf (run : list Action) : list Args :=
  flat_map (fun a => match a with Call args => [args] | Fire _ => [] end) run.

(** What happens to a function made by [throttle]: it is called, and
    [func] does [run] if the call reaches it, or one of its timers
    fires. *)
Inductive ThrottleAction :=
| CallWith (args : Args) (run : FuncRun)
| Expire.

Definition throttleStep (th : Throttled) (a : ThrottleAction) : Throttled :=
  match a with
  | CallWith args run => throttled args run th
  | Expire => throttleTimer th
  end.

(** [func] returns from the call, and has not called the function made
    by [throttle] in it. *)
Definition funcReturns (a : ThrottleAction) : bool :=
  match a with
  | CallWith _ (funcRun [] false) => true
  | CallWith _ _ => false
  | Expire => true
  end.

(** The arguments of the calls of a run, and the number of its timer
    firings. *)
Definition throttleCalls (run : list ThrottleAction) : list Args :=
  flat_map (fun a => match a with CallWith args _ => [args] | Expire => [] end) run.

Definition throttleFirings (run : list ThrottleAction) : nat :=
  List.length
    (List.filter (fun a => match a with Expire => true | CallWith _ _ => false end) run).

(** When the flag is set a timer is pending: the function opens again. *)
Definition opens (th : Throttled) : Prop :=
  inThrottle th = true -> 1 <= resets th.

End Timing.

Arguments Debounced : clear implicits.
Arguments Throttled : clear implicits.
Arguments FuncRun : clear implicits.
Arguments Action : clear implicits.
Arguments ThrottleAction : clear implicits.

(** ** The document *)

Module Dom.

(** A node of the tree under [document.body].  [nid] is the identity of
    the JavaScript object: two nodes of one document never share it. *)
Inductive Node :=
| Text (nid : nat) (data : jsstring)
| Element (nid : nat) (tagName : jsstring) (classList : list jsstring)
          (childNodes : list Node).

Definition nodeId (n : Node) : nat :=
  match n with Text i _ | Element i _ _ _ => i end.

Definition ELEMENT_NODE : nat := 1.
Definition TEXT_NODE : nat := 3.

(** What the scanner reads of an element above a node: [tagName] and
    [classList]. *)
Record Ancestor := { tag : jsstring; classes : list jsstring }.

(** [classList.contains(c)] *)
Definition contains (cl : list jsstring) (c : jsstring) : bool :=
  existsb (eqb c) cl.

(** [element.closest('.c1, .c2, ...')] for an element given with the
    elements above it, itself first: whether it or one above it carries
    one of the classes. *)
Definition closest (chain : list Ancestor) (selector : list jsstring) : bool :=
  existsb (fun a => existsb (contains (classes a)) selector) chain.

(** [node.textContent] *)
Fixpoint textContent (n : Node) : jsstring :=
  match n with
  | Text _ d => d
  | Element _ _ _ kids => flat_map textContent kids
  end.

(** The text nodes of a subtree in document order, each with its data and
    the elements above it, the parent first. *)
Fixpoint textNodes (above : list Ancestor) (n : Node)
  : list (nat * jsstring * list Ancestor) :=
  match n with
  | Text i d => [(i, d, above)]
  | Element _ t cl kids =>
    flat_map (textNodes ({| tag := t; classes := cl |} :: above)) kids
  end.

(** What a [TreeWalker] rooted at [root] with [SHOW_TEXT] offers to its
    filter: the text nodes below the root, never the root itself. *)
Definition textNodesBelow (above : list Ancestor) (root : Node)
  : list (nat * jsstring * list Ancestor) :=
  match root with
  | Text _ _ => []
  | Element _ t cl kids =>
    flat_map (textNodes ({| tag := t; classes := cl |} :: above)) kids
  end.

(** [old.parentNode.replaceChild(fragment, old)] for a text node [old],
    given by its identity: the children of the fragment take its place.
    A node with no parent in the tree (the root, or a node that is not
    there) is not replaced. *)
Fixpoint replaceChild (old : nat) (fragment : list Node) (n : Node) : Node :=
  match n with
  | Text _ _ => n
  | Element i t cl kids =>
    Element i t cl
      (flat_map (fun k => match k with
                          | Text j _ => if j =? old then fragment else [k]
                          | Element _ _ _ _ => [replaceChild old fragment k]
                          end) kids)
  end.

(** [node.remove()] *)
Fixpoint remove (node : nat) (n : Node) : Node :=
  match n with
  | Text _ _ => n
  | Element i t cl kids =>
    Element i t cl
      (flat_map (fun k => if nodeId k =? node then [] else [remove node k]) kids)
  end.

(** The node of identity [node] in the tree, with the elements above it. *)
Fixpoint locate (node : nat) (above : list Ancestor) (n : Node)
  : option (list Ancestor * Node) :=
  if nodeId n =? node then Some (above, n)
  else match n with
       | Text _ _ => None
       | Element _ t cl kids =>
         (fix first (ks : list Node) : option (list Ancestor * Node) :=
            match ks with
            | [] => None
            | k :: ks' =>
              match locate node ({| tag := t; classes := cl |} :: above) k with
              | Some r => Some r
              | None => first ks'
              end
            end) kids
       end.

End Dom.

Export Dom.

(** ** [src/content/content.ts] *)

(** An entry of [replacedWords]. *)
Record Replacement := { original : jsstring; word : VocabularyWord }.

(** A node of [addedNodes], kept in [processingQueue]: its identity and
    its [nodeType]. *)
Record QueuedNode := { q_node : nat; q_nodeType : nat }.

(** A [MutationRecord] as the observer reads it: the target, when it is an
    [Element], as itself followed by the elements above it; and the added
    nodes. *)
Record MutationRecord := {
  target : option (list Ancestor);
  addedNodes : list QueuedNode
}.

(** The two callbacks the script hands to [setTimeout] and keeps a handle
    of in [processTimeout]. *)
Inductive Task :=
| DebouncedMutations (mutations : list MutationRecord)
| ProcessQueue.

(** What the scanner did to a text node: split its text into tokens,
    emitted a replacement for one of its tokens, replaced it in the
    document. *)
Inductive Event :=
| Tokenized (textNode : nat)
| Instructed (textNode : nat) (originalWord : jsstring) (vocabularyWord : VocabularyWord)
| Rendered (textNode : nat).

Definition eventNode (e : Event) : nat :=
  match e with Tokenized n | Instructed n _ _ | Rendered n => n end.

#[projections(primitive)]
Record State := {
  (** The fields of [ContentScript]. *)
  vocabulary : list VocabularyWord;
  settings : option UserSettings;
  replacedWords : gmap nat Replacement;
  tooltip : option nat;
  isProcessing : bool;
  observer : bool;
  ctrlTooltip : option nat;
  vocabularyMap : gmap jsstring VocabularyWord;
  processedNodes : gset nat;
  processingQueue : list QueuedNode;
  processTimeout : option nat;
  (** The page and the platform around the script: [window.location.href],
      the elements above [document.body], the tree under [document.body],
      the identity the next created node gets, [Math.random], the pending
      timers and the handle the next one gets, whether the event listeners
      are registered, and the messages sent to the background script. *)
  location_href : jsstring;
  bodyAncestors : list Ancestor;
  body : Node;
  nextNodeId : nat;
  rng : RandomSource;
  timers : gmap nat Task;
  nextTimerId : nat;
  listening : bool;
  outbox : list RecordOccurrencePayload;
  (** Not a field of the script: what the scanner did, in order. *)
  trace : list Event
}.

(** Assignment to one field: the state with [v] at the projection [proj]. *)
Ltac state_fields :=
  constr:((tt, vocabulary, settings, replacedWords, tooltip, isProcessing,
           observer, ctrlTooltip, vocabularyMap, processedNodes,
           processingQueue, processTimeout, location_href, bodyAncestors,
           body, nextNodeId, rng, timers, nextTimerId, listening, outbox,
           trace)).

Ltac assign_in fields proj v s :=
  lazymatch fields with
  | (?rest, ?p) =>
    let acc := assign_in rest proj v s in
    let r := constr:(p s) in
    let w := constr:(proj s) in
    lazymatch r with
    | w => constr:(acc v)
    | _ => constr:(acc r)
    end
  | tt => constr:(Build_State)
  end.

Ltac assign proj v s :=
  let fs := state_fields in
  let t := assign_in fs proj v s in
  exact t.

Definition set_vocabulary (v : list VocabularyWord) (s : State) : State :=
  ltac:(assign vocabulary v s).
Definition set_settings (v : option UserSettings) (s : State) : State :=
  ltac:(assign settings v s).
Definition set_replacedWords (v : gmap nat Replacement) (s : State) : State :=
  ltac:(assign replacedWords v s).
Definition set_tooltip (v : option nat) (s : State) : State :=
  ltac:(assign tooltip v s).
Definition set_isProcessing (v : bool) (s : State) : State :=
  ltac:(assign isProcessing v s).
Definition set_observer (v : bool) (s : State) : State :=
  ltac:(assign observer v s).
Definition set_ctrlTooltip (v : option nat) (s : State) : State :=
  ltac:(assign ctrlTooltip v s).
Definition set_vocabularyMap (v : gmap jsstring VocabularyWord) (s : State) : State :=
  ltac:(assign vocabularyMap v s).
Definition set_processedNodes (v : gset nat) (s : State) : State :=
  ltac:(assign processedNodes v s).
Definition set_processingQueue (v : list QueuedNode) (s : State) : State :=
  ltac:(assign processingQueue v s).
Definition set_processTimeout (v : option nat) (s : State) : State :=
  ltac:(assign processTimeout v s).
Definition set_body (v : Node) (s : State) : State :=
  ltac:(assign body v s).
Definition set_nextNodeId (v : nat) (s : State) : State :=
  ltac:(assign nextNodeId v s).
Definition set_rng (v : RandomSource) (s : State) : State :=
  ltac:(assign rng v s).
Definition set_timers (v : gmap nat Task) (s : State) : State :=
  ltac:(assign timers v s).
Definition set_nextTimerId (v : nat) (s : State) : State :=
  ltac:(assign nextTimerId v s).
Definition set_listening (v : bool) (s : State) : State :=
  ltac:(assign listening v s).
Definition set_outbox (v : list RecordOccurrencePayload) (s : State) : State :=
  ltac:(assign outbox v s).
Definition set_trace (v : list Event) (s : State) : State :=
  ltac:(assign trace v s).

(** How an [async] method ended: it returned ([Completed]), it threw, so
    that its promise is rejected ([Threw]), or it waits on a promise that
    is never settled ([Stuck]).  Each carries the state it left. *)
Inductive Outcome :=
| Completed (s : State)
| Threw (s : State)
| Stuck (s : State).

Definition stateOf (o : Outcome) : State :=
  match o with Completed s | Threw s | Stuck s => s end.

(** An item of [newContent]: [string | HTMLElement]. *)
Inductive Content :=
| Literal (text : jsstring)
| Marker (span : Node).

(** [NodeFilter.FILTER_ACCEPT] and [NodeFilter.FILTER_REJECT]. *)
Inductive FilterResult := FILTER_ACCEPT | FILTER_REJECT.

Definition markerClass : jsstring := str "hebrew-replacement".

(** The classes of ['.hebrew-replacement, .hebrew-tooltip,
    .hebrew-loading-tooltip, .hebrew-temp-message']. *)
Definition ownClasses : list jsstring :=
  [str "hebrew-replacement"; str "hebrew-tooltip";
   str "hebrew-loading-tooltip"; str "hebrew-temp-message"].

Definition skipTags : list jsstring :=
  [str "SCRIPT"; str "STYLE"; str "TEXTAREA"; str "INPUT"; str "CODE";
   str "PRE"; str "NOSCRIPT"].

(** [skipTags.includes(tagName)] *)
Definition isSkipTag (tagName : jsstring) : bool := existsb (eqb tagName) skipTags.

(** Truthiness of a timer handle: [0] is falsy. *)
Definition truthy (handle : option nat) : option nat :=
  match handle with
  | Some t => if t =? 0 then None else Some t
  | None => None
  end.

(** [settings?.isEnabled] *)
Definition enabled (s : State) : bool :=
  match settings s with Some st => isEnabled st | None => false end.

(** What the background script answers to [GET_VOCABULARY] and to
    [GET_SETTINGS]: [vocabularyResponse?.vocabulary] and
    [settingsResponse?.settings], [None] when there is none. *)
Record Reply := {
  reply_vocabulary : option (list VocabularyWord);
  reply_settings : option UserSettings
}.

Section ContentScript.
Context {L : LowerCase} {U : UrlParser}.

Definition buildVocabularyMap (s : State) : State :=
  set_vocabularyMap
    (fold_left (fun m w => <[normalizeWord (english w) := w]> m) (vocabulary s) ∅)
    s.

(** [reply] is [None] when [chrome.runtime.sendMessage] fails: the error
    is logged and nothing is loaded. *)
Definition loadData (reply : option Reply) (s : State) : State :=
  match reply with
  | Some r =>
    buildVocabularyMap
      (set_settings (reply_settings r)
         (set_vocabulary (default [] (reply_vocabulary r)) s))
  | None => s
  end.

Definition textContainsVocabulary (s : State) (text : jsstring) : bool :=
  let normalizedText := toLowerCase text in
  existsb (fun normalizedWord => includes normalizedText normalizedWord)
          (List.map fst (map_to_list (vocabularyMap s))).

(** The message is sent from a timer of delay 0 and nobody waits for the
    answer; here it is sent at once. *)
Definition recordOccurrenceAsync (vw : VocabularyWord) (context : jsstring)
    (s : State) : State :=
  set_outbox
    (outbox s ++
     [{| msg_wordId := id vw;
         msg_url := location_href s;
         msg_context :=
           extractContext context 0 (Z.of_nat (List.length (english vw))) |}])
    s.

(** [span.textContent = hebrew] gives the new span one text child, none
    when the string is empty. *)
Definition createReplacement (originalWord : jsstring) (vw : VocabularyWord)
    (_context : jsstring) (s : State) : Node * State :=
  let i := nextNodeId s in
  let kids :=
    match hebrew vw with
    | [] => []
    | _ :: _ => [Text (S i) (hebrew vw)]
    end in
  let span := Element i (str "SPAN") [markerClass] kids in
  (span,
   set_replacedWords
     (<[i := {| original := originalWord; word := vw |}]> (replacedWords s))
     (set_nextNodeId (i + 1 + List.length kids) s)).

(** The children of the fragment: a new text node for a string, the
    element itself otherwise. *)
Fixpoint fragmentOf (content : list Content) (fresh : nat) : list Node * nat :=
  match content with
  | [] => ([], fresh)
  | Literal item :: rest =>
    let '(nodes, fresh') := fragmentOf rest (S fresh) in
    (Text fresh item :: nodes, fresh')
  | Marker item :: rest =>
    let '(nodes, fresh') := fragmentOf rest fresh in
    (item :: nodes, fresh')
  end.

Definition replaceTextNode (textNode : nat) (content : list Content)
    (s : State) : State :=
  let '(fragment, fresh) := fragmentOf content (nextNodeId s) in
  set_body (replaceChild textNode fragment (body s)) (set_nextNodeId fresh s).

(** The loop of [processTextNode] over [words], from the state, the
    content and the flag reached so far.  It ends with [inr] when
    [shouldReplaceWord] throws. *)
Fixpoint replaceWords (textNode : nat) (text : jsstring) (words : list jsstring)
    (s : State) (newContent : list Content) (hasReplacements : bool)
  : State * list Content * bool + State :=
  match words with
  | [] => inl (s, newContent, hasReplacements)
  | word :: rest =>
    if hasWhiteSpace word then
      replaceWords textNode text rest s (newContent ++ [Literal word]) hasReplacements
    else
      let normalizedWord := normalizeWord word in
      match vocabularyMap s !! normalizedWord with
      | None =>
        replaceWords textNode text rest s (newContent ++ [Literal word]) hasReplacements
      | Some vocabularyWord =>
        match shouldReplaceWord vocabularyWord (settings s) (rng s) with
        | Throws _ => inr s
        | Returns (yes, g) =>
          let s := set_rng g s in
          if yes then
            let '(replacement, s) := createReplacement word vocabularyWord text s in
            let s := recordOccurrenceAsync vocabularyWord text s in
            let s := set_trace (trace s ++ [Instructed textNode word vocabularyWord]) s in
            replaceWords textNode text rest s (newContent ++ [Marker replacement]) true
          else
            replaceWords textNode text rest s (newContent ++ [Literal word]) hasReplacements
        end
      end
  end.

(** [textNode] is the identity of the text node and [text] its
    [textContent]. *)
Definition processTextNode (textNode : nat) (text : jsstring) (s : State) : Outcome :=
  if bool_decide (text = []) || bool_decide (trim text = []) then Completed s
  else if negb (textContainsVocabulary s text) then Completed s
  else
    let words := splitWhiteSpace text in
    let s := set_trace (trace s ++ [Tokenized textNode]) s in
    match replaceWords textNode text words s [] false with
    | inl (s, newContent, hasReplacements) =>
      if hasReplacements then
        Completed
          (set_trace (trace (replaceTextNode textNode newContent s) ++ [Rendered textNode])
                     (replaceTextNode textNode newContent s))
      else Completed s
    | inr s => Threw s
    end.

(** The filter of the tree walker, on a text node given with the elements
    above it, the parent first. *)
Definition acceptNode (s : State) (node : nat * jsstring * list Ancestor)
  : FilterResult :=
  let '(i, _, above) := node in
  match above with
  | [] => FILTER_REJECT
  | parent :: _ =>
    (* Skip certain elements *)
    if isSkipTag (tag parent) then FILTER_REJECT
    (* Skip already processed elements *)
    else if contains (classes parent) markerClass || closest above ownClasses
    then FILTER_REJECT
    (* Skip if already processed *)
    else if bool_decide (i ∈ processedNodes s) then FILTER_REJECT
    else FILTER_ACCEPT
  end.

Definition accepted (s : State) (node : nat * jsstring * list Ancestor) : bool :=
  match acceptNode s node with FILTER_ACCEPT => true | FILTER_REJECT => false end.

(** The loops of [processContainer] over [textNodes].  The batches of 50
    only say where the script yields to the browser; the nodes are taken
    in the order of the list.  When [processTextNode] throws, the promise
    the loop waits on is never resolved. *)
Fixpoint processTextNodes (nodes : list (nat * jsstring * list Ancestor))
    (s : State) : Outcome :=
  match nodes with
  | [] => Completed s
  | (textNode, text, _) :: rest =>
    if bool_decide (textNode ∈ processedNodes s) then processTextNodes rest s
    else
      match processTextNode textNode text
              (set_processedNodes ({[textNode]} ∪ processedNodes s) s) with
      | Completed s' => processTextNodes rest s'
      | Threw s' | Stuck s' => Stuck s'
      end
  end.

(** [container] is the element, [above] the elements above it. *)
Definition processContainer (above : list Ancestor) (container : Node)
    (s : State) : Outcome :=
  if bool_decide (nodeId container ∈ processedNodes s) then Completed s
  else
    let s := set_processedNodes ({[nodeId container]} ∪ processedNodes s) s in
    let textNodes := List.filter (accepted s) (textNodesBelow above container) in
    processTextNodes textNodes s.

Definition processPage (s : State) : Outcome :=
  if negb (enabled s) || bool_decide (size (vocabularyMap s) = 0) then Completed s
  else
    let s := set_isProcessing true s in
    let s := set_processedNodes ∅ s in
    match processContainer (bodyAncestors s) (body s) s with
    | Completed s' => Completed (set_isProcessing false s')
    | Threw s' => Threw (set_isProcessing false s')
    | Stuck s' => Stuck s'
    end.

(** [document.querySelectorAll('.hebrew-replacement')] and the loop of
    [resetReplacements]: every element of the class becomes a new text
    node that holds its [textContent].  An element of the class below
    another one has left the document by the time its turn comes. *)
Fixpoint unwrapMarkers (n : Node) (fresh : nat) : Node * nat :=
  match n with
  | Text _ _ => (n, fresh)
  | Element i t cl kids =>
    if contains cl markerClass then (Text fresh (textContent n), S fresh)
    else
      let '(kids', fresh') :=
        (fix each (ks : list Node) (f : nat) : list Node * nat :=
           match ks with
           | [] => ([], f)
           | k :: ks' =>
             let '(k', f1) := unwrapMarkers k f in
             let '(ks'', f2) := each ks' f1 in
             (k' :: ks'', f2)
           end) kids fresh in
      (Element i t cl kids', fresh')
  end.

Definition hideTooltip (s : State) : State :=
  match tooltip s with
  | Some t => set_tooltip None (set_body (remove t (body s)) s)
  | None => s
  end.

Definition hideCtrlTooltip (s : State) : State :=
  match ctrlTooltip s with
  | Some t => set_ctrlTooltip None (set_body (remove t (body s)) s)
  | None => s
  end.

Definition resetReplacements (s : State) : State :=
  let '(body', fresh) := unwrapMarkers (body s) (nextNodeId s) in
  let s := set_body body' (set_nextNodeId fresh s) in
  let s := set_replacedWords ∅ s in
  let s := set_processedNodes ∅ s in
  hideCtrlTooltip (hideTooltip s).

(** [window.setTimeout(task, _)]: the handle and the state with the timer
    pending. *)
Definition setTimeout (task : Task) (s : State) : nat * State :=
  let t := nextTimerId s in
  (t, set_timers (<[t := task]> (timers s)) (set_nextTimerId (S t) s)).

Definition clearTimeout (t : nat) (s : State) : State :=
  set_timers (delete t (timers s)) s.

(** [if (this.processTimeout) clearTimeout(this.processTimeout)] *)
Definition clearProcessTimeout (s : State) : State :=
  match truthy (processTimeout s) with
  | Some t => clearTimeout t s
  | None => s
  end.

(** The callback of the [MutationObserver]. *)
Definition onMutations (mutations : list MutationRecord) (s : State) : State :=
  let s := clearProcessTimeout s in
  let '(t, s) := setTimeout (DebouncedMutations mutations) s in
  set_processTimeout (Some t) s.

(** Skip our own changes. *)
Definition relevantMutation (mutation : MutationRecord) : bool :=
  match target mutation with
  | Some (self :: above) =>
    negb (contains (classes self) markerClass || closest (self :: above) ownClasses)
  | _ => true
  end.

Definition queueNodesForProcessing (nodes : list QueuedNode) (s : State) : State :=
  let add q node :=
    if existsb (fun x => q_node x =? q_node node) q then q else q ++ [node] in
  let s := set_processingQueue (fold_left add nodes (processingQueue s)) s in
  let s := clearProcessTimeout s in
  let '(t, s) := setTimeout ProcessQueue s in
  set_processTimeout (Some t) s.

Definition processMutations (mutations : list MutationRecord) (s : State) : State :=
  let nodesToProcess :=
    flat_map (fun mutation =>
                List.filter (fun node => (q_nodeType node =? TEXT_NODE)
                                         || (q_nodeType node =? ELEMENT_NODE))
                            (addedNodes mutation))
             mutations in
  match nodesToProcess with
  | [] => s
  | _ :: _ => queueNodesForProcessing nodesToProcess s
  end.

(** The function the observer hands to [setTimeout], run 500 ms later. *)
Definition debouncedMutations (mutations : list MutationRecord) (s : State) : State :=
  if isProcessing s || negb (enabled s) then s
  else
    let relevantMutations := List.filter relevantMutation mutations in
    match relevantMutations with
    | [] => s
    | _ :: _ => processMutations relevantMutations s
    end.

(** The loop of the queue's timer over [batch].  The state holds the
    document and no node outside it: a queued node is looked up in the
    document, and the scan the script makes of a node that has left the
    document by then is not described. *)
Fixpoint processBatch (batch : list QueuedNode) (s : State) : Outcome :=
  match batch with
  | [] => Completed s
  | node :: rest =>
    let o :=
      match locate (q_node node) (bodyAncestors s) (body s) with
      | Some (above, n) =>
        if q_nodeType node =? TEXT_NODE then
          processTextNode (q_node node) (textContent n) s
        else if q_nodeType node =? ELEMENT_NODE then
          processContainer above n s
        else Completed s
      | None => Completed s
      end in
    match o with
    | Completed s' => processBatch rest s'
    | _ => o
    end
  end.

(** The function [queueNodesForProcessing] hands to [setTimeout], run
    100 ms later.  The callbacks of the observer for the changes the scan
    makes are events of their own ([onMutations]); the timers they arm
    are no part of this function. *)
Definition processQueue (s : State) : Outcome :=
  if isProcessing s then Completed s
  else
    let s := set_isProcessing true s in
    let batch := processingQueue s in
    let s := set_processingQueue [] s in
    match processBatch batch s with
    | Completed s' => Completed (set_isProcessing false s')
    | Threw s' => Threw (set_isProcessing false s')
    | Stuck s' => Stuck s'
    end.

(** The timer of handle [t] fires, if it is still pending. *)
Definition fireTimer (t : nat) (s : State) : Outcome :=
  match timers s !! t with
  | None => Completed s
  | Some task =>
    let s := set_timers (delete t (timers s)) s in
    match task with
    | DebouncedMutations mutations => Completed (debouncedMutations mutations s)
    | ProcessQueue => processQueue s
    end
  end.

Definition setupEventListeners (s : State) : State := set_listening true s.

Definition setupMutationObserver (s : State) : State := set_observer true s.

(** [reply] is what [loadData] will receive. *)
Definition initialize (reply : option Reply) (s : State) : Outcome :=
  if isDomainExcluded (location_href s)
       (match settings s with Some st => excludedDomains st | None => [] end)
  then Completed s
  else
    let s := loadData reply s in
    let s := buildVocabularyMap s in
    let s := setupEventListeners s in
    let s := setupMutationObserver s in
    processPage s.

(** The listener of [VOCABULARY_UPDATED] and [SETTINGS_UPDATED]. *)
Definition onUpdated (reply : option Reply) (s : State) : Outcome :=
  processPage (resetReplacements (loadData reply s)).

End ContentScript.

(** ** [src/shared/database.ts] *)

Module Database.

(** The object stores of [LearnHebrewDB].  The stores [vocabulary] and
    [occurrences] have the key path ['id']: a record is kept under the
    value of its field [id]. *)
Record Stores := {
  vocabularyStore : gmap jsstring VocabularyWord;
  occurrencesStore : gmap jsstring WordOccurrence;
  settingsStore : gmap jsstring UserSettings
}.

(** [db] is null until [initialize] has opened the database. *)
Record DatabaseManager := { db : option Stores }.

Definition notInitialized : jsstring := str "Database not initialized".

(** [db.getAllFromIndex('occurrences', 'wordId', key)] *)
Definition occurrencesByWordId (d : Stores) (key : jsstring) : list WordOccurrence :=
  List.filter (fun o => eqb (wordId o) key)
              (List.map snd (map_to_list (occurrencesStore d))).

(** [db.delete('vocabulary', key)] and [db.delete('occurrences', key)] *)
Definition deleteVocabulary (key : jsstring) (d : Stores) : Stores :=
  {| vocabularyStore := delete key (vocabularyStore d);
     occurrencesStore := occurrencesStore d;
     settingsStore := settingsStore d |}.

Definition deleteOccurrence (key : jsstring) (d : Stores) : Stores :=
  {| vocabularyStore := vocabularyStore d;
     occurrencesStore := delete key (occurrencesStore d);
     settingsStore := settingsStore d |}.

(** [db.put('vocabulary', w)]: the key is read from the record. *)
Definition putVocabulary (w : VocabularyWord) (d : Stores) : Stores :=
  {| vocabularyStore := <[id w := w]> (vocabularyStore d);
     occurrencesStore := occurrencesStore d;
     settingsStore := settingsStore d |}.

(** [db.add('occurrences', o)], which fails when the key is taken. *)
Definition addOccurrence (o : WordOccurrence) (d : Stores) : option Stores :=
  match occurrencesStore d !! occ_id o with
  | Some _ => None
  | None =>
    Some {| vocabularyStore := vocabularyStore d;
            occurrencesStore := <[occ_id o := o]> (occurrencesStore d);
            settingsStore := settingsStore d |}
  end.

Definition updateWord (m : DatabaseManager) (w : VocabularyWord)
  : Try DatabaseManager :=
  match db m with
  | None => Throws notInitialized
  | Some d => Returns {| db := Some (putVocabulary w d) |}
  end.

Definition removeWord (m : DatabaseManager) (key : jsstring)
  : Try DatabaseManager :=
  match db m with
  | None => Throws notInitialized
  | Some d =>
    let d := deleteVocabulary key d in
    (* Also remove associated occurrences *)
    let occurrences := occurrencesByWordId d key in
    let d :=
      fold_left (fun d occurrence => deleteOccurrence (occ_id occurrence) d)
                occurrences d in
    Returns {| db := Some d |}
  end.

(** [uuid] is what [crypto.randomUUID()] returns, [now] and [later] what
    the two [new Date()] give. *)
Definition recordOccurrence (m : DatabaseManager) (uuid : jsstring) (now later : Z)
    (word_id page context : jsstring) : Try DatabaseManager :=
  match db m with
  | None => Throws notInitialized
  | Some d =>
    let occurrence :=
      {| occ_id := uuid; wordId := word_id; url := page; timestamp := now;
         context := context |} in
    match addOccurrence occurrence d with
    | None => Throws (str "ConstraintError")
    | Some d =>
      (* Update word's timesShown counter *)
      match vocabularyStore d !! word_id with
      | Some w =>
        Returns {| db := Some (putVocabulary
                            {| id := id w; english := english w; hebrew := hebrew w;
                               dateAdded := dateAdded w; lastSeen := Some later;
                               timesShown := (timesShown w + 1)%N;
                               difficulty := difficulty w; category := category w |}
                            d) |}
      | None => Returns {| db := Some d |}
      end
    end
  end.

Definition getWordOccurrences (m : DatabaseManager) (key : jsstring)
  : Try (list WordOccurrence) :=
  match db m with
  | None => Throws notInitialized
  | Some d => Returns (occurrencesByWordId d key)
  end.

(** Every record of [occurrences] is kept under its [id]. *)
Definition keyedById (d : Stores) : Prop :=
  map_Forall (fun key o => occ_id o = key) (occurrencesStore d).

(** Every record of [vocabulary] is kept under its [id]. *)
Definition vocabularyKeyed (d : Stores) : Prop :=
  map_Forall (fun key w => id w = key) (vocabularyStore d).

(** The order of string keys: by code units, a prefix first. *)
Fixpoint keyLeb (a b : jsstring) : bool :=
  match a, b with
  | [], _ => true
  | _ :: _, [] => false
  | x :: a', y :: b' => (x <? y)%N || ((x =? y)%N && keyLeb a' b')
  end.

(** Insertion of [x] in a list that [ahead] orders: before the first
    element it may stay ahead of. *)
Fixpoint insertSorted {A : Type} (ahead : A -> A -> bool) (x : A) (l : list A) : list A :=
  match l with
  | [] => [x]
  | y :: l' => if ahead x y then x :: y :: l' else y :: insertSorted ahead x l'
  end.

(** A stable sort, as [Array.prototype.sort] is: [ahead a b] says that
    the comparison function does not put [b] before [a]. *)
Definition stableSort {A : Type} (ahead : A -> A -> bool) (l : list A) : list A :=
  foldr (insertSorted ahead) [] l.

(** [db.getAll(store)]: the records in the order of their keys. *)
Definition getAll {A : Type} (store : gmap jsstring A) : list A :=
  List.map snd (stableSort (fun a b => keyLeb a.1 b.1) (map_to_list store)).

(** What [addWord] is given: a word without [id], [dateAdded] and
    [timesShown]. *)
Record NewWord := {
  new_english : jsstring;
  new_hebrew : jsstring;
  new_lastSeen : option Z;
  new_difficulty : jsstring;
  new_category : jsstring
}.

(** [uuid] is what [crypto.randomUUID()] returns and [now] the date.
    [db.add] fails when the key is taken. *)
Definition addWord (m : DatabaseManager) (uuid : jsstring) (now : Z) (w : NewWord)
  : Try (DatabaseManager * VocabularyWord) :=
  match db m with
  | None => Throws notInitialized
  | Some d =>
    let newWord :=
      {| id := uuid; english := new_english w; hebrew := new_hebrew w;
         dateAdded := now; lastSeen := new_lastSeen w; timesShown := 0;
         difficulty := new_difficulty w; category := new_category w |} in
    match vocabularyStore d !! uuid with
    | Some _ => Throws (str "ConstraintError")
    | None => Returns ({| db := Some (putVocabulary newWord d) |}, newWord)
    end
  end.

Definition getVocabulary (m : DatabaseManager) : Try (list VocabularyWord) :=
  match db m with
  | None => Throws notInitialized
  | Some d => Returns (getAll (vocabularyStore d))
  end.

(** The key of the one record of the store [settings]. *)
Definition userSettingsKey : jsstring := str "userSettings".

Definition getSettings (m : DatabaseManager) : Try (option UserSettings) :=
  match db m with
  | None => Throws notInitialized
  | Some d => Returns (settingsStore d !! userSettingsKey)
  end.

Definition updateSettings (m : DatabaseManager) (settings : UserSettings)
  : Try DatabaseManager :=
  match db m with
  | None => Throws notInitialized
  | Some d =>
    Returns {| db := Some {| vocabularyStore := vocabularyStore d;
                             occurrencesStore := occurrencesStore d;
                             settingsStore :=
                               <[userSettingsKey := settings]> (settingsStore d) |} |}
  end.

Definition defaultSettings : UserSettings :=
  {| isEnabled := true; replacementMode := str "random";
     replacementPercentage := ofZ 50; showTooltipDelay := ofZ 500;
     categories := [str "general"]; excludedDomains := [] |}.

(** Initialize default settings if not exists. *)
Definition initializeDefaultSettings (m : DatabaseManager) : Try DatabaseManager :=
  match getSettings m with
  | Throws e => Throws e
  | Returns (Some _) => Returns m
  | Returns None => updateSettings m defaultSettings
  end.

(** [DatabaseManager.initialize] (the name [initialize] is the content
    script's here).  [persisted] is what the browser holds of the
    database, [None] before its first opening, when [upgrade] creates the
    three stores empty. *)
Definition initializeDatabase (persisted : option Stores) : Try DatabaseManager :=
  initializeDefaultSettings
    {| db := Some (default {| vocabularyStore := ∅; occurrencesStore := ∅;
                              settingsStore := ∅ |} persisted) |}.

(** What [getStatistics] returns. *)
Record Statistics := {
  totalWords : nat;
  totalOccurrences : nat;
  mostSeenWords : list (VocabularyWord * N);
  recentActivity : list WordOccurrence
}.

Definition getStatistics (m : DatabaseManager) : Try Statistics :=
  match db m with
  | None => Throws notInitialized
  | Some d =>
    let vocabulary := getAll (vocabularyStore d) in
    let allOccurrences := getAll (occurrencesStore d) in
    let mostSeenWords :=
      List.map (fun w => (w, timesShown w))
        (firstn 10
           (stableSort (fun a b => (timesShown b <=? timesShown a)%N) vocabulary)) in
    let recentActivity :=
      firstn 20
        (stableSort (fun a b => (timestamp b <=? timestamp a)%Z) allOccurrences) in
    Returns {| totalWords := List.length vocabulary;
               totalOccurrences := List.length allOccurrences;
               mostSeenWords := mostSeenWords;
               recentActivity := recentActivity |}
  end.

Section ByEnglish.
Context {L : LowerCase}.

(** [db.getAllFromIndex('vocabulary', 'english', english.toLowerCase())],
    of which the first is returned. *)
Definition getWordByEnglish (m : DatabaseManager) (english_ : jsstring)
  : Try (option VocabularyWord) :=
  match db m with
  | None => Throws notInitialized
  | Some d =>
    let words :=
      List.filter (fun w => eqb (english w) (toLowerCase english_))
                  (getAll (vocabularyStore d)) in
    Returns (head words)
  end.

End ByEnglish.

(** Both stores keep their records under the records' [id]. *)
Definition wellKeyed (d : Stores) : Prop := vocabularyKeyed d /\ keyedById d.

(** Every word has been shown as often as it has occurrences on record. *)
Definition countsAgree (d : Stores) : Prop :=
  map_Forall
    (fun key w => timesShown w = N.of_nat (List.length (occurrencesByWordId d key)))
    (vocabularyStore d).

(** One call of a method that writes, from a manager to the manager it
    returns. *)
Inductive writes : DatabaseManager -> DatabaseManager -> Prop :=
| writes_addWord m uuid now w m' r :
    addWord m uuid now w = Returns (m', r) -> writes m m'
| writes_updateWord m w m' :
    updateWord m w = Returns m' -> writes m m'
| writes_removeWord m key m' :
    removeWord m key = Returns m' -> writes m m'
| writes_recordOccurrence m uuid now later word_id page context m' :
    recordOccurrence m uuid now later word_id page context = Returns m' ->
    writes m m'
| writes_updateSettings m settings m' :
    updateSettings m settings = Returns m' -> writes m m'.

(** A database is well keyed when it is not open or its stores are. *)
Definition wellKeyedManager (m : DatabaseManager) : Prop :=
  forall d, db m = Some d -> wellKeyed d.

(** The records of a store that [f] selects, counted. *)
Definition countIn {A : Type} (f : A -> bool) (store : gmap jsstring A) : nat :=
  List.length (List.filter f (List.map snd (map_to_list store))).

(** A database is counted right when it is not open or its stores are. *)
Definition countsAgreeManager (m : DatabaseManager) : Prop :=
  forall d, db m = Some d -> countsAgree d.

End Database.

(** ** [src/background/background.ts] *)

Module Background.
Import Database.

(** What the platform gives one run of the handler of a
    [RECORD_OCCURRENCE] message: the identity of the new record and the
    two dates. *)
Record Stamp := { stamp_uuid : jsstring; stamp_now : Z; stamp_later : Z }.

(** Where a run of the handler stands.  [db.recordOccurrence] awaits
    three requests of the database, one after the other: the [add] of
    the occurrence, the [get] of the word and the [put] of the word. *)
Inductive Phase :=
| Received
| Added
| Read (word : VocabularyWord)
| Answered (success : bool).

(** A run of the case [RECORD_OCCURRENCE] of [handleMessage]. *)
Record Handler := {
  h_stamp : Stamp;
  h_payload : RecordOccurrencePayload;
  h_phase : Phase
}.

Definition answer (h : Handler) (success : bool) : Handler :=
  {| h_stamp := h_stamp h; h_payload := h_payload h; h_phase := Answered success |}.

(** The run goes on to its next request, and the database serves it.
    An error is caught by [handleMessage] and answered with
    [success: false]. *)
Definition handlerStep (h : Handler) (m : DatabaseManager) : Handler * DatabaseManager :=
  match h_phase h with
  | Received =>
    match db m with
    | None => (answer h false, m)
    | Some d =>
      let occurrence :=
        {| occ_id := stamp_uuid (h_stamp h); wordId := msg_wordId (h_payload h);
           url := msg_url (h_payload h); timestamp := stamp_now (h_stamp h);
           context := msg_context (h_payload h) |} in
      match addOccurrence occurrence d with
      | None => (answer h false, m)
      | Some d =>
        ({| h_stamp := h_stamp h; h_payload := h_payload h; h_phase := Added |},
         {| db := Some d |})
      end
    end
  | Added =>
    match db m with
    | None => (answer h false, m)
    | Some d =>
      match vocabularyStore d !! msg_wordId (h_payload h) with
      | Some w =>
        ({| h_stamp := h_stamp h; h_payload := h_payload h; h_phase := Read w |}, m)
      | None => (answer h true, m)
      end
    end
  | Read w =>
    match db m with
    | None => (answer h false, m)
    | Some d =>
      (answer h true,
       {| db := Some (putVocabulary
                        {| id := id w; english := english w; hebrew := hebrew w;
                           dateAdded := dateAdded w;
                           lastSeen := Some (stamp_later (h_stamp h));
                           timesShown := (timesShown w + 1)%N;
                           difficulty := difficulty w; category := category w |}
                        d) |})
    end
  | Answered _ => (h, m)
  end.

(** The listeners do not wait for [handleMessage], and every
    [BackgroundService] that was initialized has a listener of its own:
    the runs of the handler, one for every listener and message, take
    turns at the database.  The run of index [i] goes on by one request. *)
Definition turn (c : DatabaseManager * list Handler) (i : nat)
  : DatabaseManager * list Handler :=
  match c.2 !! i with
  | Some h => let '(h', m') := handlerStep h c.1 in (m', <[i := h']> c.2)
  | None => c
  end.

(** The runs of the handler that begin, and the turns they take. *)
Definition receive (runs : list (Stamp * RecordOccurrencePayload)) : list Handler :=
  List.map (fun x => {| h_stamp := x.1; h_payload := x.2; h_phase := Received |}) runs.

Definition serve (m : DatabaseManager) (runs : list (Stamp * RecordOccurrencePayload))
    (turns : list nat) : DatabaseManager * list Handler :=
  fold_left turn turns (m, receive runs).











End Background.

(** ** The vocabulary of the properties *)

(** The identity of a text node listed by [textNodes]. *)
Definition leafId (x : nat * jsstring * list Ancestor) : nat := x.1.1.

(** The state a run of [replaceWords] ends in. *)
Definition loopState (r : State * list Content * bool + State) : State :=
  match r with inl (s, _, _) => s | inr s => s end.

(** [s'] has the trace of [s] followed by events on nodes in [leaves]. *)
Definition extendsTrace (leaves : nat -> Prop) (s s' : State) : Prop :=
  exists evs, trace s' = trace s ++ evs /\ Forall (fun e => leaves (eventNode e)) evs.

(** The text nodes [processContainer] hands to the loop. *)
Definition scanned (above : list Ancestor) (container : Node) (s : State)
  : list (nat * jsstring * list Ancestor) :=
  List.filter
    (accepted (set_processedNodes ({[nodeId container]} ∪ processedNodes s) s))
    (textNodesBelow above container).

(** The parent has one of the tags the scanner skips. *)
Definition underSkippedTag (chain : list Ancestor) : Prop :=
  exists parent rest, chain = parent :: rest /\ isSkipTag (tag parent) = true.

(** The parent, or an element above it, is a marker or an overlay of the
    script. *)
Definition underOwnElement (chain : list Ancestor) : Prop :=
  closest chain ownClasses = true.

(** The state but for the four fields a scan may touch when it replaces
    nothing: the processed set, the queue, the flag and the trace. *)
Definition scanFrame (s : State) : State :=
  set_trace [] (set_processedNodes ∅ (set_isProcessing false (set_processingQueue [] s))).

Definition isTokenized (e : Event) : Prop := exists n, e = Tokenized n.

(** [s'] is [s] but for these four fields, and its trace is the trace of
    [s] followed by tokenizations only: nothing was replaced, registered,
    drawn or sent between the two. *)
Definition quiet (s s' : State) : Prop :=
  scanFrame s' = scanFrame s /\
  exists evs, trace s' = trace s ++ evs /\ Forall isTokenized evs.

(** ** The script between its events *)

(** The state but for the seven fields a scan writes: the registry of
    replacements, the identity of the next node, the messages, the random
    source, the document, the processed set and the trace. *)
Definition outsideScan (s : State) : State :=
  set_trace []
    (set_body (Text 0 [])
       (set_processedNodes ∅
          (set_rng {| draws := fun _ => zero; position := 0 |}
             (set_outbox [] (set_nextNodeId 0 (set_replacedWords ∅ s)))))).

(** Of the timers of the observer's debounce and of the queue, none is
    pending but the one whose handle [processTimeout] holds, and handles
    are not 0, as the browser gives them. *)
Definition onePendingTimer (s : State) : Prop :=
  nextTimerId s <> 0 /\
  map_Forall (fun t _ => processTimeout s = Some t /\ t <> 0) (timers s).

Section Events.
Context {L : LowerCase} {U : UrlParser}.

(** Every key of [vocabularyMap] is the normal form of the word it maps
    to, a word of [vocabulary]. *)
Definition soundMap (s : State) : Prop :=
  map_Forall (fun key w => In w (vocabulary s) /\ normalizeWord (english w) = key)
             (vocabularyMap s).

(** Every entry of [replacedWords] pairs a token with a word of
    [vocabulary] of the same normal form. *)
Definition soundRegistry (s : State) : Prop :=
  map_Forall (fun _ r => In (word r) (vocabulary s) /\
                         normalizeWord (original r) = normalizeWord (english (word r)))
             (replacedWords s).

(** What happens to a script after [initialize]: the observer reports
    mutations, a timer fires, the background script announces a change of
    the vocabulary or of the settings. *)
Inductive scriptStep : State -> State -> Prop :=
| step_mutations mutations s : scriptStep s (onMutations mutations s)
| step_timer t s : scriptStep s (stateOf (fireTimer t s))
| step_updated reply s : scriptStep s (stateOf (onUpdated reply s)).

End Events.

(** The timers of the script: the pending ones, the handle it holds and
    the handle the next one gets. *)
Definition timerPart (s : State) : gmap nat Task * option nat * nat :=
  (timers s, processTimeout s, nextTimerId s).

Section Soundness.
Context {L : LowerCase}.

Definition sound (s : State) : Prop := soundMap s /\ soundRegistry s.

End Soundness.

(** ** The text before the replacements *)

(** The text of a node with every registered element read as the token
    it replaced. *)
Fixpoint restoredText (registry : gmap nat Replacement) (n : Node) : jsstring :=
  match n with
  | Text _ d => d
  | Element i _ _ kids =>
    match registry !! i with
    | Some r => original r
    | None => flat_map (restoredText registry) kids
    end
  end.

(** The identities of the nodes of a tree, in document order. *)
Fixpoint nodeIds (n : Node) : list nat :=
  match n with
  | Text i _ => [i]
  | Element i _ _ kids => i :: flat_map nodeIds kids
  end.

(** No two nodes of the page share an identity, and the identities that
    new nodes get are not in use. *)
Definition wellNumbered (page : Node) (fresh : nat) : Prop :=
  NoDup (nodeIds page) /\ Forall (fun i => i < fresh) (nodeIds page).

(** A string of [newContent] as it was in the text. *)
Definition contentText (registry : gmap nat Replacement) (c : Content) : jsstring :=
  match c with
  | Literal text => text
  | Marker span => restoredText registry span
  end.

(** The markers of [newContent] are registered elements made of nodes
    numbered from [base] on. *)
Definition markersFrom (base : nat) (s : State) (content : list Content) : Prop :=
  Forall (fun c =>
            match c with
            | Literal _ => True
            | Marker span =>
              is_Some (replacedWords s !! nodeId span) /\
              (exists i t cl kids, span = Element i t cl kids) /\
              Forall (fun j => base <= j < nextNodeId s) (nodeIds span)
            end) content.

(** Whether the tree has an element of the class [hebrew-replacement]. *)
Fixpoint hasMarker (n : Node) : bool :=
  match n with
  | Text _ _ => false
  | Element _ _ cl kids => contains cl markerClass || existsb hasMarker kids
  end.

(** The settings with no excluded domain, and the state but for the
    excluded domains of its settings. *)
Definition withoutExcluded (st : UserSettings) : UserSettings :=
  {| isEnabled := isEnabled st; replacementMode := replacementMode st;
     replacementPercentage := replacementPercentage st;
     showTooltipDelay := showTooltipDelay st; categories := categories st;
     excludedDomains := [] |}.

Definition forgetExcluded (s : State) : State :=
  set_settings (option_map withoutExcluded (settings s)) s.

Definition onOutcome (f : State -> State) (o : Outcome) : Outcome :=
  match o with
  | Completed s => Completed (f s)
  | Threw s => Threw (f s)
  | Stuck s => Stuck (f s)
  end.

(** ** What the page shows *)

Section Shown.
Context {L : LowerCase}.

(** What a piece of the split text shows once every word of the
    vocabulary is replaced: a run of white space and a token that is no
    word of the vocabulary show themselves, a token that is one shows
    the translation. *)
Definition translateToken (s : State) (token : jsstring) : jsstring :=
  if hasWhiteSpace token then token
  else match vocabularyMap s !! normalizeWord token with
       | Some vocabularyWord => hebrew vocabularyWord
       | None => token
       end.

(** What the text of a text node shows then: itself when it is blank or
    when the quick check finds no word in it. *)
Definition translateText (s : State) (text : jsstring) : jsstring :=
  if bool_decide (text = []) || bool_decide (trim text = []) then text
  else if negb (textContainsVocabulary s text) then text
  else flat_map (translateToken s) (splitWhiteSpace text).

End Shown.

(** The text of a tree in which every text node below the root, given
    with the elements above it, is read through [f]. *)
Fixpoint shownText (f : nat * jsstring * list Ancestor -> jsstring)
    (above : list Ancestor) (n : Node) : jsstring :=
  match n with
  | Text _ d => d
  | Element _ t cl kids =>
    flat_map (fun k => match k with
                       | Text j d => f (j, d, {| tag := t; classes := cl |} :: above)
                       | Element _ _ _ _ =>
                         shownText f ({| tag := t; classes := cl |} :: above) k
                       end) kids
  end.

(** The nodes of a fragment, put below an element with the elements
    [chain] above them, read through [f]. *)
Definition shownChild (f : nat * jsstring * list Ancestor -> jsstring)
    (chain : list Ancestor) (k : Node) : jsstring :=
  match k with
  | Text j d => f (j, d, chain)
  | Element _ _ _ _ => shownText f chain k
  end.

(** What an item of [newContent] shows. *)
Definition shownContent (c : Content) : jsstring :=
  match c with
  | Literal text => text
  | Marker span => textContent span
  end.

(** ** The messages *)

(** The registered elements have identities below the one the next node
    gets. *)
Definition registeredBelow (s : State) : Prop :=
  map_Forall (fun key _ => key < nextNodeId s) (replacedWords s).

(** From [s] to [s'] the script registered replacements at identities
    that were not in use, and sent one message for each: [sent] are the
    messages, each with the location of the page and the [id] of the
    word of a replacement that is new. *)
Definition reports (s s' : State) (sent : list RecordOccurrencePayload) : Prop :=
  outbox s' = outbox s ++ sent /\
  size (replacedWords s') = size (replacedWords s) + List.length sent /\
  Forall (fun m =>
            msg_url m = location_href s /\
            exists key r,
              replacedWords s' !! key = Some r /\ replacedWords s !! key = None /\
              msg_wordId m = id (word r)) sent /\
  nextNodeId s <= nextNodeId s' /\
  (forall key, key < nextNodeId s -> replacedWords s' !! key = replacedWords s !! key) /\
  registeredBelow s' /\
  location_href s' = location_href s.

(** ** A platform to run the model on *)

(** A URL parser for the examples: it accepts [http://host...] and
    [https://host...] with a host that is not empty, and throws on
    anything else. *)
Fixpoint hostPart (s : jsstring) : jsstring :=
  match s with
  | [] => []
  | c :: s' =>
    if existsb (N.eqb c) (str "/?#:") then [] else c :: hostPart s'
  end.

Definition simpleHostname (url : jsstring) : option jsstring :=
  let rest :=
    if startsWith url (str "https://") then Some (skipn 8 url)
    else if startsWith url (str "http://") then Some (skipn 7 url)
    else None in
  match rest with
  | Some r =>
    match hostPart r with
    | [] => None
    | host => Some (basicLower host)
    end
  | None => None
  end.

#[export] Instance simpleUrlParser : UrlParser := {| URL_hostname := simpleHostname |}.

(** Case analysis on the comparisons of code units in the goal. *)
Ltac code_unit_cases :=
  repeat match goal with
         | |- context [(?a <=? ?b)%N] => destruct (N.leb_spec a b)
         | |- context [(?a <? ?b)%N] => destruct (N.ltb_spec a b)
         | |- context [(?a =? ?b)%N] => destruct (N.eqb_spec a b)
         | H : context [(?a <=? ?b)%N] |- _ => destruct (N.leb_spec a b)
         | H : context [(?a <? ?b)%N] |- _ => destruct (N.ltb_spec a b)
         | H : context [(?a =? ?b)%N] |- _ => destruct (N.eqb_spec a b)
         end.

(** [basicLower] is a lower-casing: it has the two properties the
    interface asks for. *)
#[export, refine] Instance basicLowerCase : LowerCase :=
  {| toLowerCase := basicLower |}.
Proof.
  - unfold basicLower. induction s as [|c s IH]; cbn [forallb flat_map List.map];
      [reflexivity|].
    intros [Hc Hs]%andb_true_iff. rewrite (IH Hs). cbn [app]. f_equal.
    revert Hc. unfold lowerUnit, asciiLower, isAscii, isUpper, between.
    code_unit_cases; cbn; intros; solve [reflexivity | discriminate | lia].
  - unfold basicLower. intros s c (x & _ & Hc)%in_flat_map. revert Hc.
    unfold lowerUnit, isUpper, between.
    code_unit_cases; cbn; intros; intuition (subst; try reflexivity; try lia);
      code_unit_cases; cbn; solve [reflexivity | lia].
Defined.

(** The state of a script that was just constructed, on a page. *)
Definition freshScript (href : jsstring) (above : list Ancestor) (page : Node)
    (fresh : nat) (g : RandomSource) : State :=
  {| vocabulary := []; settings := None; replacedWords := ∅; tooltip := None;
     isProcessing := false; observer := false; ctrlTooltip := None;
     vocabularyMap := ∅; processedNodes := ∅; processingQueue := [];
     processTimeout := None; location_href := href; bodyAncestors := above;
     body := page; nextNodeId := fresh; rng := g; timers := ∅;
     nextTimerId := 1; listening := false; outbox := []; trace := [] |}.

(** The vocabulary and the settings of the scenarios of the
    specification: ["hello"] with its translation, and the mode ['all']. *)
Definition shalom : jsstring := [1513; 1500; 1493; 1501]%N.

Definition helloWord : VocabularyWord :=
  {| id := str "1"; english := str "hello"; hebrew := shalom; dateAdded := 0;
     lastSeen := None; timesShown := 0; difficulty := str "easy";
     category := str "greetings" |}.

Definition settingsAll : UserSettings :=
  {| isEnabled := true; replacementMode := str "all";
     replacementPercentage := ofZ 100; showTooltipDelay := ofZ 500;
     categories := [str "general"]; excludedDomains := [] |}.

Definition helloReply : option Reply :=
  Some {| reply_vocabulary := Some [helloWord]; reply_settings := Some settingsAll |}.

(** A source whose every draw is 0. *)
Definition zeroDraws : RandomSource := {| draws := fun _ => zero; position := 0 |}.

Definition exampleHref : jsstring := str "https://example.com/page".

(** [<body><p>Hello world</p></body>] *)
Definition helloPage : Node :=
  Element 0 (str "BODY") [] [Element 1 (str "P") [] [Text 2 (str "Hello world")]].

(** [<body><script>Hello</script><p>Hello</p></body>] *)
Definition scriptPage : Node :=
  Element 0 (str "BODY") []
    [Element 1 (str "SCRIPT") [] [Text 2 (str "Hello")];
     Element 3 (str "P") [] [Text 4 (str "Hello")]].

(** [<body><pre>hello</pre></body>] *)
Definition prePage : Node :=
  Element 0 (str "BODY") [] [Element 1 (str "PRE") [] [Text 2 (str "hello")]].

(** [<body><pre><span>hello</span></pre></body>] *)
Definition highlightedPage : Node :=
  Element 0 (str "BODY") []
    [Element 1 (str "PRE") [] [Element 2 (str "SPAN") [] [Text 3 (str "hello")]]].

(** [<body><svg><style>hello</style></svg></body>]: the [tagName] of an
    element of the SVG namespace is in lower case. *)
Definition svgPage : Node :=
  Element 0 (str "BODY") []
    [Element 1 (str "svg") [] [Element 2 (str "style") [] [Text 3 (str "hello")]]].

(** Settings that differ from [settingsAll] in one field. *)
Definition settingsRandomZero : UserSettings :=
  {| isEnabled := true; replacementMode := str "random";
     replacementPercentage := zero; showTooltipDelay := ofZ 500;
     categories := [str "general"]; excludedDomains := [] |}.

Definition settingsOff : UserSettings :=
  {| isEnabled := false; replacementMode := str "all";
     replacementPercentage := ofZ 100; showTooltipDelay := ofZ 500;
     categories := [str "general"]; excludedDomains := [] |}.

(** A database with the entry ["hello"], two occurrences of it and one
    occurrence of another word. *)
Definition exampleOccurrence (key word_id : jsstring) : WordOccurrence :=
  {| occ_id := key; wordId := word_id; url := exampleHref; timestamp := 0;
     context := str "Hello world" |}.

Definition exampleStores : Database.Stores :=
  {| Database.vocabularyStore := {[ str "1" := helloWord ]};
     Database.occurrencesStore :=
       {[ str "a" := exampleOccurrence (str "a") (str "1");
          str "b" := exampleOccurrence (str "b") (str "7");
          str "c" := exampleOccurrence (str "c") (str "1") ]};
     Database.settingsStore := {[ str "userSettings" := settingsAll ]} |}.

(** One message about ["hello"] on a page, received by two listeners. *)
Definition exampleRuns : list (Background.Stamp * RecordOccurrencePayload) :=
  [({| Background.stamp_uuid := str "d"; Background.stamp_now := 4; Background.stamp_later := 5 |},
    {| msg_wordId := str "1"; msg_url := exampleHref; msg_context := str "Hello world" |});
   ({| Background.stamp_uuid := str "e"; Background.stamp_now := 4; Background.stamp_later := 6 |},
    {| msg_wordId := str "1"; msg_url := exampleHref; msg_context := str "Hello world" |})].

Section Scenarios.
Context {L : LowerCase}.

(** The entry ["don't"], as a user adds it. *)
Definition dontWord : VocabularyWord :=
  {| id := str "2"; english := str "don't"; hebrew := [1488; 1500]%N;
     dateAdded := 0; lastSeen := None; timesShown := 0;
     difficulty := str "easy"; category := str "general" |}.

(** [<body><p>I don't know</p></body>], with that vocabulary loaded and
    the mode ['all']. *)
Definition dontPage : Node :=
  Element 0 (str "BODY") [] [Element 1 (str "P") [] [Text 2 (str "I don't know")]].

Definition dontScript : State :=
  loadData (Some {| reply_vocabulary := Some [dontWord];
                    reply_settings := Some settingsAll |})
           (freshScript exampleHref [] dontPage 3 zeroDraws).

End Scenarios.

(** The scenario of the specification: [<body><p>Hello world</p></body>]
    after [initialize], with ["hello"] in the vocabulary and the mode
    ['all']. *)
Definition helloScanned : State :=
  stateOf (initialize helloReply (freshScript exampleHref [] helloPage 3 zeroDraws)).

(** A database whose counter agrees with its record: ["hello"], shown
    twice, with its two occurrences. *)
Definition countedStores : Database.Stores :=
  {| Database.vocabularyStore :=
       {[ str "1" := {| id := str "1"; english := str "hello"; hebrew := shalom;
                        dateAdded := 0; lastSeen := Some 5%Z; timesShown := 2;
                        difficulty := str "easy"; category := str "greetings" |} ]};
     Database.occurrencesStore := Database.occurrencesStore exampleStores;
     Database.settingsStore := Database.settingsStore exampleStores |}.

(** The database after its first opening, and after the word ["Hello"],
    capital included, has been added to it. *)
Definition openedManager : Database.DatabaseManager :=
  {| Database.db := Some {| Database.vocabularyStore := ∅; Database.occurrencesStore := ∅;
                   Database.settingsStore := {[ Database.userSettingsKey := Database.defaultSettings ]} |} |}.

Definition capitalHello : Database.NewWord :=
  {| Database.new_english := str "Hello"; Database.new_hebrew := shalom; Database.new_lastSeen := None;
     Database.new_difficulty := str "easy"; Database.new_category := str "greetings" |}.

Definition capitalWord : VocabularyWord :=
  {| id := str "9"; english := str "Hello"; hebrew := shalom; dateAdded := 7;
     lastSeen := None; timesShown := 0; difficulty := str "easy";
     category := str "greetings" |}.

Definition capitalManager : Database.DatabaseManager :=
  {| Database.db := Some {| Database.vocabularyStore := {[ str "9" := capitalWord ]};
                   Database.occurrencesStore := ∅;
                   Database.settingsStore := {[ Database.userSettingsKey := Database.defaultSettings ]} |} |}.

(** A mutation that adds an element to the page, and the settings of the
    scenarios with the host of the page excluded. *)
Definition exampleMutation : MutationRecord :=
  {| target := Some [{| tag := str "BODY"; classes := [] |}];
     addedNodes := [{| q_node := 1; q_nodeType := ELEMENT_NODE |}] |}.

Definition settingsExcluded : UserSettings :=
  {| isEnabled := true; replacementMode := str "all";
     replacementPercentage := ofZ 100; showTooltipDelay := ofZ 500;
     categories := [str "general"]; excludedDomains := [str "example.com"] |}.

(** * Properties *)

(** *** Facts about the string operations *)

Lemma between_spec lo hi c : between lo hi c = true <-> (lo <= c <= hi)%N.
Proof. unfold between. rewrite andb_true_iff, !N.leb_le. tauto. Qed.

Lemma wordChar_not_space c : isWordChar c = true -> isWhiteSpace c = false.
Proof.
  unfold isWordChar, isUpper, isLower, isDigit. rewrite !orb_true_iff, !between_spec, N.eqb_eq.
  intros H. unfold isWhiteSpace.
  repeat (apply orb_false_intro);
    try (apply N.eqb_neq; lia);
    (apply not_true_iff_false; rewrite between_spec; lia).
Qed.

Lemma trimStart_no_space s :
  forallb (fun c => negb (isWhiteSpace c)) s = true -> trimStart s = s.
Proof.
  destruct s as [|c s]; [done|]. simpl. intros [Hc _]%andb_true_iff.
  by apply negb_true_iff in Hc as ->.
Qed.

Lemma trimStart_incl s c : In c (trimStart s) -> In c s.
Proof.
  induction s as [|d s IH]; simpl; [done|].
  destruct (isWhiteSpace d); simpl; tauto.
Qed.

Lemma trim_incl s c : In c (trim s) -> In c s.
Proof.
  unfold trim, trimEnd. intros H.
  apply in_rev, trimStart_incl in H. apply in_rev in H.
  by apply trimStart_incl.
Qed.

Lemma trim_no_space s :
  forallb (fun c => negb (isWhiteSpace c)) s = true -> trim s = s.
Proof.
  intros H. unfold trim, trimEnd. rewrite (trimStart_no_space s H).
  rewrite trimStart_no_space, rev_involutive; [done|].
  apply forallb_forall. intros c Hc%in_rev.
  by apply (proj1 (forallb_forall _ _) H).
Qed.

Lemma stripNonWord_id s : forallb isWordChar s = true -> stripNonWord s = s.
Proof.
  unfold stripNonWord. induction s as [|c s IH]; simpl; [done|].
  intros [-> Hs]%andb_true_iff. by rewrite IH.
Qed.

(** The pieces of [split(/(\s+)/)] put together again are the string. *)
Lemma splitFrom_concat m acc s : concat (splitFrom m acc s) = acc ++ s.
Proof.
  revert m acc. induction s as [|c s IH]; intros m acc; cbn [splitFrom].
  { destruct m; cbn; by rewrite ?app_nil_r. }
  destruct m, (isWhiteSpace c); cbn [concat]; rewrite IH; by rewrite <- ?app_assoc.
Qed.

Lemma splitWhiteSpace_concat s : concat (splitWhiteSpace s) = s.
Proof. apply splitFrom_concat. Qed.

Lemma asciiLower_id c : isUpper c = false -> asciiLower c = c.
Proof. unfold asciiLower. by intros ->. Qed.

Lemma wordChar_ascii c : isWordChar c = true -> isAscii c = true.
Proof.
  unfold isWordChar, isUpper, isLower, isDigit, isAscii.
  rewrite !orb_true_iff, !between_spec, N.eqb_eq, N.ltb_lt. lia.
Qed.

Section NormalizeFacts.
Context {L : LowerCase}.

(** A normalized word is made of [a-z], [0-9] and [_]. *)
Lemma normalizeWord_chars word c :
  In c (normalizeWord word) -> isWordChar c = true /\ isUpper c = false.
Proof.
  unfold normalizeWord, stripNonWord. intros [Hin Hw]%filter_In. split; [done|].
  apply trim_incl in Hin. by eapply toLowerCase_no_upper.
Qed.

(** A string of such code units is left as it is. *)
Lemma normalizeWord_fixed s :
  (forall c, In c s -> isWordChar c = true /\ isUpper c = false) ->
  normalizeWord s = s.
Proof.
  intros H. unfold normalizeWord.
  rewrite toLowerCase_ascii.
  2:{ apply forallb_forall. intros c Hc. apply wordChar_ascii, H, Hc. }
  assert (List.map asciiLower s = s) as ->.
  { rewrite <- (map_id s) at 2. apply map_ext_in. intros c Hc.
    apply asciiLower_id, H, Hc. }
  rewrite trim_no_space.
  - apply stripNonWord_id, forallb_forall. intros c Hc. apply H, Hc.
  - apply forallb_forall. intros c Hc. apply negb_true_iff, wordChar_not_space, H, Hc.
Qed.

(** C8. Normalization is idempotent: for every string [x],
    [normalizeWord (normalizeWord x)] is [normalizeWord x], whatever the
    lower-casing of the platform does outside ASCII. *)
Theorem normalizeWord_idempotent (x : jsstring) :
  normalizeWord (normalizeWord x) = normalizeWord x.
Proof. apply normalizeWord_fixed. intros c. apply normalizeWord_chars. Qed.
End NormalizeFacts.

(** *** The replacement policy *)

(** Rounding keeps the sign it is given. *)
Lemma binary_round_aux_sign sx mx ex lx :
  match binary_round_aux prec emax sx mx ex lx with
  | S754_zero s | S754_infinity s | S754_finite s _ _ => s = sx
  | S754_nan => True
  end.
Proof.
  unfold binary_round_aux.
  destruct (shr_fexp prec emax mx ex lx) as [mrs' e'].
  destruct (shr_fexp prec emax _ e' loc_Exact) as [mrs'' e''].
  destruct (shr_m mrs''); [done| |done].
  by destruct (e'' <=? emax - prec)%Z.
Qed.

(** A draw that is not below zero, times 100, is not below zero. *)
Lemma draw_times_100_not_below_zero r sgn :
  leb zero r = true -> ltb (mul r lit_100) (S754_zero sgn) = false.
Proof.
  destruct r as [s|[]| |[] m e]; try done.
  intros _. unfold mul, lit_100. cbn [SFmul xorb].
  pose proof (binary_round_aux_sign false (Z.pos (m * 7036874417766400))
                (e + -46) loc_Exact) as H.
  by destruct (binary_round_aux _ _ _ _ _ _) as [s|s| |s m' e']; subst.
Qed.

Lemma inUnitInterval_not_below_zero r :
  inUnitInterval r = true -> leb zero r = true.
Proof. unfold inUnitInterval. by intros [? _]%andb_true_iff. Qed.

Lemma ltb_NaN_r x : ltb x NaN = false.
Proof. by destruct x. Qed.

Lemma mul_NaN_r x : mul x NaN = NaN.
Proof. by destruct x. Qed.

Lemma eqb_eq (s t : jsstring) : eqb s t = true <-> s = t.
Proof. unfold eqb. apply bool_decide_eq_true. Qed.

Lemma eqb_neq (s t : jsstring) : eqb s t = false <-> s <> t.
Proof. unfold eqb. apply bool_decide_eq_false. Qed.

(** C4. Policy boundary: with the extension enabled, the mode ['all']
    replaces every entry, whatever its difficulty, and draws nothing; the
    mode ['random'] with a percentage of zero replaces no entry, whatever
    [Math.random] draws in the interval from 0 to 1. *)
Theorem shouldReplaceWord_policy_boundary
    (w : VocabularyWord) (st : UserSettings) (g : RandomSource) :
  isEnabled st = true ->
  (replacementMode st = str "all" ->
   shouldReplaceWord w (Some st) g = Returns (true, g)) /\
  (replacementMode st = str "random" ->
   (exists sgn, replacementPercentage st = S754_zero sgn) ->
   inUnitInterval (draws g (position g)) = true ->
   shouldReplaceWord w (Some st) g = Returns (false, snd (random g))).
Proof.
  intros Hen. unfold shouldReplaceWord. rewrite Hen. cbn [negb]. split.
  - intros ->. done.
  - intros -> [sgn ->] Hr. cbn.
    by rewrite draw_times_100_not_below_zero
      by by apply inUnitInterval_not_below_zero.
Qed.

(** The part of C5 on the policy: a disabled extension replaces no entry
    and draws nothing. *)
Lemma shouldReplaceWord_disabled (w : VocabularyWord) (st : UserSettings)
    (g : RandomSource) :
  isEnabled st = false -> shouldReplaceWord w (Some st) g = Returns (false, g).
Proof. intros Hen. unfold shouldReplaceWord. by rewrite Hen. Qed.

Lemma difficultyMultiplier_unknown key :
  key <> str "easy" -> key <> str "medium" -> key <> str "hard" ->
  difficultyMultiplier key = None.
Proof.
  intros H1%eqb_neq H2%eqb_neq H3%eqb_neq. unfold difficultyMultiplier.
  by rewrite H1, H2, H3.
Qed.

(** With settings that are an object the policy returns. *)
Lemma shouldReplaceWord_returns (w : VocabularyWord) (st : UserSettings)
    (g : RandomSource) :
  exists yes g', shouldReplaceWord w (Some st) g = Returns (yes, g').
Proof.
  unfold shouldReplaceWord.
  destruct (negb (isEnabled st)); [eauto|].
  destruct (eqb (replacementMode st) (str "all")); [eauto|].
  destruct (eqb (replacementMode st) (str "random")); [cbn; eauto|].
  destruct (eqb (replacementMode st) (str "difficulty-based")); cbn; eauto.
Qed.

(** C7. The policy fails safe: for settings that are an object,
    [shouldReplaceWord] returns, and returns false, when the mode is none
    of the three known ones, and in the mode ['difficulty-based'] when the
    difficulty is none of the three known ones (the threshold is NaN, and
    no number is below NaN). *)
Theorem shouldReplaceWord_fail_safe
    (w : VocabularyWord) (st : UserSettings) (g : RandomSource) :
  (replacementMode st <> str "all" ->
   replacementMode st <> str "random" ->
   replacementMode st <> str "difficulty-based" ->
   shouldReplaceWord w (Some st) g = Returns (false, g)) /\
  (replacementMode st = str "difficulty-based" ->
   difficulty w <> str "easy" ->
   difficulty w <> str "medium" ->
   difficulty w <> str "hard" ->
   exists g', shouldReplaceWord w (Some st) g = Returns (false, g')).
Proof.
  unfold shouldReplaceWord. split.
  - intros H1%eqb_neq H2%eqb_neq H3%eqb_neq. rewrite H1, H2, H3.
    destruct (negb (isEnabled st)); eauto.
  - intros -> D1 D2 D3. destruct (negb (isEnabled st)); [eauto|].
    rewrite difficultyMultiplier_unknown by done. cbn.
    rewrite mul_NaN_r, ltb_NaN_r. eauto.
Qed.

(** *** The document *)

(** Induction on a tree, with the property for every child. *)
Lemma Node_ind' (P : Node -> Prop) :
  (forall i d, P (Text i d)) ->
  (forall i t cl kids, Forall P kids -> P (Element i t cl kids)) ->
  forall n, P n.
Proof.
  intros HText HElement. fix IH 1. intros [i d|i t cl kids]; [apply HText|].
  apply HElement. induction kids as [|k kids IHkids]; constructor; [apply IH|done].
Qed.

(** Replacing a text node keeps every other text node where it is, with
    its data and with the elements above it. *)
Lemma textNodes_replaceChild old fragment n :
  forall above x,
    In x (textNodes above n) -> leafId x <> old ->
    In x (textNodes above (replaceChild old fragment n)).
Proof.
  induction n as [i d|i t cl kids IH] using Node_ind'; intros above x; [done|].
  cbn [textNodes replaceChild]. rewrite !in_flat_map.
  intros (k & Hk & Hx) Hne.
  rewrite Forall_forall in IH. specialize (IH k (proj2 (list_elem_of_In _ _) Hk)).
  destruct k as [j d|j t' cl' kids'].
  - exists (Text j d). split; [|done]. apply in_flat_map. exists (Text j d).
    split; [done|]. cbn in Hx. destruct Hx as [<-|[]]. cbn in Hne.
    destruct (Nat.eqb_spec j old); [done|]. by left.
  - exists (replaceChild old fragment (Element j t' cl' kids')). split.
    + apply in_flat_map. exists (Element j t' cl' kids'). split; [done|]. by left.
    + by apply IH.
Qed.

(** *** The scanner: what a pass leaves alone *)

Section ScannerFacts.
Context {L : LowerCase}.

Lemma extendsTrace_refl leaves s : extendsTrace leaves s s.
Proof. exists []. by rewrite app_nil_r. Qed.

Lemma extendsTrace_trans leaves s1 s2 s3 :
  extendsTrace leaves s1 s2 -> extendsTrace leaves s2 s3 -> extendsTrace leaves s1 s3.
Proof.
  intros (e1 & H1 & F1) (e2 & H2 & F2). exists (e1 ++ e2). split.
  - by rewrite H2, H1, app_assoc.
  - by apply Forall_app.
Qed.

Lemma extendsTrace_step (leaves : nat -> Prop) s s' e :
  trace s' = trace s ++ [e] -> leaves (eventNode e) -> extendsTrace leaves s s'.
Proof. intros H He. exists [e]. split; [done|]. by repeat constructor. Qed.

Lemma extendsTrace_weaken (leaves leaves' : nat -> Prop) s s' :
  (forall i, leaves i -> leaves' i) ->
  extendsTrace leaves s s' -> extendsTrace leaves' s s'.
Proof.
  intros Hw (evs & H & F). exists evs. split; [done|].
  eapply Forall_impl; [exact F|]. intros e. apply Hw.
Qed.

Lemma replaceWords_frame leaf text words :
  forall s newContent hasReplacements,
    let s' := loopState (replaceWords leaf text words s newContent hasReplacements) in
    processedNodes s' = processedNodes s /\ body s' = body s /\
    extendsTrace (eq leaf) s s'.
Proof.
  induction words as [|word rest IH]; intros s nc h; cbn [replaceWords].
  { cbn. split_and!; [done..|apply extendsTrace_refl]. }
  destruct (hasWhiteSpace word); [apply IH|].
  destruct (vocabularyMap s !! normalizeWord word) as [vw|]; [|apply IH].
  destruct (shouldReplaceWord vw (settings s) (rng s)) as [[[] g]|msg].
  - cbn zeta. unfold createReplacement. cbn zeta.
    match goal with |- context [replaceWords _ _ _ ?s1 ?nc1 ?h1] =>
      destruct (IH s1 nc1 h1) as (Hp & Hb & Ht) end.
    split_and!; [by rewrite Hp|by rewrite Hb|].
    eapply extendsTrace_trans; [|exact Ht].
    by apply (extendsTrace_step _ _ _ (Instructed leaf word vw)).
  - cbn zeta.
    match goal with |- context [replaceWords _ _ _ ?s1 ?nc1 ?h1] =>
      destruct (IH s1 nc1 h1) as (Hp & Hb & Ht) end.
    split_and!; [by rewrite Hp|by rewrite Hb|exact Ht].
  - cbn. split_and!; [done..|apply extendsTrace_refl].
Qed.

Lemma processTextNode_frame leaf text s :
  let s' := stateOf (processTextNode leaf text s) in
  processedNodes s' = processedNodes s /\
  extendsTrace (eq leaf) s s' /\
  (body s' = body s \/ exists fragment, body s' = replaceChild leaf fragment (body s)).
Proof.
  unfold processTextNode.
  destruct (bool_decide (text = []) || bool_decide (trim text = [])).
  { cbn. split_and!; [done|apply extendsTrace_refl|by left]. }
  destruct (negb (textContainsVocabulary s text)).
  { cbn. split_and!; [done|apply extendsTrace_refl|by left]. }
  cbn zeta.
  match goal with |- context [replaceWords ?a ?b ?c ?s1 ?nc1 ?h1] =>
    pose proof (replaceWords_frame a b c s1 nc1 h1) as (Hp & Hb & Ht);
    destruct (replaceWords a b c s1 nc1 h1) as [[[s2 nc2] []]|s2] end;
    cbn in Hp, Hb; cbn [loopState] in Ht; cbn [stateOf].
  - unfold replaceTextNode. destruct (fragmentOf nc2 (nextNodeId s2)) as [fragment fresh].
    split_and!.
    + done.
    + apply extendsTrace_trans with s2.
      * eapply extendsTrace_trans; [|exact Ht].
        by apply (extendsTrace_step _ _ _ (Tokenized leaf)).
      * by apply (extendsTrace_step _ _ _ (Rendered leaf)).
    + right. exists fragment. cbn. by rewrite Hb.
  - split_and!; [done| |by left].
    eapply extendsTrace_trans; [|exact Ht].
    by apply (extendsTrace_step _ _ _ (Tokenized leaf)).
  - split_and!; [done| |by left].
    eapply extendsTrace_trans; [|exact Ht].
    by apply (extendsTrace_step _ _ _ (Tokenized leaf)).
Qed.

(** A pass over [nodes] only adds to the processed set, only logs events
    on these nodes, and keeps every other text node of the document. *)
Lemma processTextNodes_frame nodes :
  forall s,
    let s' := stateOf (processTextNodes nodes s) in
    processedNodes s ⊆ processedNodes s' /\
    extendsTrace (fun i => In i (List.map leafId nodes)) s s' /\
    (forall above x, In x (textNodes above (body s)) ->
                     ~ In (leafId x) (List.map leafId nodes) ->
                     In x (textNodes above (body s'))).
Proof.
  induction nodes as [|[[leaf text] chain] rest IH]; intros s; cbn [processTextNodes].
  { cbn. split_and!; [done|apply extendsTrace_refl|done]. }
  destruct (bool_decide (leaf ∈ processedNodes s)).
  { destruct (IH s) as (Hp & Ht & Hb). split_and!; [done| |].
    - eapply extendsTrace_weaken; [|exact Ht]. intros i Hi. by right.
    - intros above x Hx Hn. apply Hb; [done|]. intros Hin. apply Hn. by right. }
  match goal with |- context [processTextNode leaf text ?s1] =>
    pose proof (processTextNode_frame leaf text s1) as (Hp1 & Ht1 & Hb1);
    destruct (processTextNode leaf text s1) as [s2|s2|s2] end;
    cbn [stateOf] in Hp1, Ht1, Hb1; cbn [processedNodes set_processedNodes] in Hp1.
  - destruct (IH s2) as (Hp & Ht & Hb). split_and!.
    + etrans; [|exact Hp]. rewrite Hp1. apply union_subseteq_r.
    + eapply extendsTrace_trans.
      * eapply extendsTrace_weaken; [|exact Ht1]. intros i <-. by left.
      * eapply extendsTrace_weaken; [|exact Ht]. intros i Hi. by right.
    + intros above x Hx Hn. apply Hb.
      * destruct Hb1 as [->|(fragment & ->)]; [done|].
        apply textNodes_replaceChild; [done|]. intros Heq. apply Hn. by left.
      * intros Hin. apply Hn. by right.
  - cbn [stateOf]. split_and!.
    + rewrite Hp1. apply union_subseteq_r.
    + eapply extendsTrace_weaken; [|exact Ht1]. intros i <-. by left.
    + intros above x Hx Hn.
      destruct Hb1 as [->|(fragment & ->)]; [done|].
      apply textNodes_replaceChild; [done|]. intros Heq. apply Hn. by left.
  - cbn [stateOf]. split_and!.
    + rewrite Hp1. apply union_subseteq_r.
    + eapply extendsTrace_weaken; [|exact Ht1]. intros i <-. by left.
    + intros above x Hx Hn.
      destruct Hb1 as [->|(fragment & ->)]; [done|].
      apply textNodes_replaceChild; [done|]. intros Heq. apply Hn. by left.
Qed.

Lemma processContainer_frame above container s :
  let s' := stateOf (processContainer above container s) in
  processedNodes s ⊆ processedNodes s' /\
  extendsTrace (fun i => In i (List.map leafId (scanned above container s))) s s' /\
  (forall ab x, In x (textNodes ab (body s)) ->
                ~ In (leafId x) (List.map leafId (scanned above container s)) ->
                In x (textNodes ab (body s'))).
Proof.
  unfold processContainer.
  destruct (bool_decide (nodeId container ∈ processedNodes s)).
  { cbn. split_and!; [done|apply extendsTrace_refl|done]. }
  cbn zeta.
  match goal with |- context [processTextNodes ?ns ?s1] =>
    destruct (processTextNodes_frame ns s1) as (Hp & Ht & Hb) end.
  cbn [processedNodes set_processedNodes] in Hp.
  split_and!; [|exact Ht|exact Hb].
  etrans; [|exact Hp]. apply union_subseteq_r.
Qed.

(** With settings that are an object a pass completes, and leaves the
    settings as they are. *)
Lemma replaceWords_returns st leaf text words :
  forall s newContent hasReplacements,
    settings s = Some st ->
    exists s' newContent' hasReplacements',
      replaceWords leaf text words s newContent hasReplacements
      = inl (s', newContent', hasReplacements') /\
      settings s' = Some st.
Proof.
  induction words as [|word rest IH]; intros s nc h Hs; cbn [replaceWords].
  { by exists s, nc, h. }
  destruct (hasWhiteSpace word); [by apply IH|].
  destruct (vocabularyMap s !! normalizeWord word) as [vw|]; [|by apply IH].
  rewrite Hs. destruct (shouldReplaceWord_returns vw st (rng s)) as (yes & g & ->).
  cbn zeta. destruct yes; by apply IH.
Qed.

Lemma processTextNode_completes st leaf text s :
  settings s = Some st ->
  exists s', processTextNode leaf text s = Completed s' /\ settings s' = Some st.
Proof.
  intros Hs. unfold processTextNode.
  destruct (bool_decide (text = []) || bool_decide (trim text = [])); [by exists s|].
  destruct (negb (textContainsVocabulary s text)); [by exists s|].
  cbn zeta.
  destruct (replaceWords_returns st leaf text (splitWhiteSpace text)
              (set_trace (trace s ++ [Tokenized leaf]) s) [] false)
    as (s' & nc & h & -> & Hs'); [done|].
  destruct h; eexists; (split; [done|]); [|done].
  unfold replaceTextNode. by destruct (fragmentOf nc (nextNodeId s')).
Qed.

Lemma processTextNodes_completes st nodes :
  forall s,
    settings s = Some st ->
    exists s', processTextNodes nodes s = Completed s' /\ settings s' = Some st.
Proof.
  induction nodes as [|[[leaf text] chain] rest IH]; intros s Hs;
    cbn [processTextNodes]; [by exists s|].
  destruct (bool_decide (leaf ∈ processedNodes s)); [by apply IH|].
  destruct (processTextNode_completes st leaf text
              (set_processedNodes ({[leaf]} ∪ processedNodes s) s))
    as (s1 & -> & Hs1); [done|].
  by apply IH.
Qed.

Lemma processContainer_completes st above container s :
  settings s = Some st ->
  exists s', processContainer above container s = Completed s' /\ settings s' = Some st.
Proof.
  intros Hs. unfold processContainer.
  destruct (bool_decide (nodeId container ∈ processedNodes s)); [by exists s|].
  by apply processTextNodes_completes.
Qed.

Lemma processPage_completes s :
  exists s', processPage s = Completed s'.
Proof.
  unfold processPage, enabled. destruct (settings s) as [st|] eqn:Hs; [|by exists s].
  destruct (negb (isEnabled st) || bool_decide (size (vocabularyMap s) = 0));
    [by exists s|].
  cbn zeta.
  match goal with |- context [processContainer ?a ?c ?s1] =>
    destruct (processContainer_completes st a c s1) as (s' & -> & _); [done|] end.
  eauto.
Qed.

(** A pass that completes has the container in the processed set. *)
Lemma processContainer_marks above container s s' :
  processContainer above container s = Completed s' ->
  nodeId container ∈ processedNodes s'.
Proof.
  unfold processContainer.
  destruct (bool_decide_reflect (nodeId container ∈ processedNodes s)) as [Hin|Hout].
  { by intros [= <-]. }
  cbn zeta. intros Hrun.
  match type of Hrun with processTextNodes ?ns ?s1 = _ =>
    destruct (processTextNodes_frame ns s1) as (Hp & _) end.
  rewrite Hrun in Hp. cbn [stateOf processedNodes set_processedNodes] in Hp.
  apply Hp, elem_of_union_l, elem_of_singleton. done.
Qed.

(** C6. No double processing: once [processContainer] has completed on a
    container, a second call on the same element (whatever its content
    and place by then) returns at once in the state the first one left:
    the document, the registered replacements, the random source, the
    messages sent and the trace of tokenizations, instructions and
    renderings are all as they were. *)
Theorem processContainer_twice above container s s' above' container' :
  processContainer above container s = Completed s' ->
  nodeId container' = nodeId container ->
  processContainer above' container' s' = Completed s'.
Proof.
  intros Hfirst Hid. apply processContainer_marks in Hfirst.
  unfold processContainer. rewrite Hid. by rewrite bool_decide_eq_true_2.
Qed.

End ScannerFacts.

(** *** The filter of the tree walker *)

Lemma NoDup_map_eq {A B : Type} (f : A -> B) (l : list A) (x y : A) :
  NoDup (List.map f l) -> In x l -> In y l -> f x = f y -> x = y.
Proof.
  induction l as [|a l IH]; cbn; [done|]. intros Hnd Hx Hy Hf.
  apply NoDup_cons in Hnd as [Ha Hnd].
  destruct Hx as [->|Hx], Hy as [->|Hy]; [done| | |by apply IH].
  - exfalso. apply Ha, list_elem_of_In. rewrite Hf. by apply in_map.
  - exfalso. apply Ha, list_elem_of_In. rewrite <- Hf. by apply in_map.
Qed.

Section FilterFacts.
Context {L : LowerCase}.

Lemma acceptNode_excluded s leaf text chain :
  underSkippedTag chain \/ underOwnElement chain ->
  acceptNode s (leaf, text, chain) = FILTER_REJECT.
Proof.
  unfold acceptNode, underOwnElement. intros [(parent & rest & -> & Htag)|Hown].
  - by rewrite Htag.
  - destruct chain as [|parent rest]; [done|].
    destruct (isSkipTag (tag parent)); [done|].
    by rewrite Hown, orb_true_r.
Qed.

(** What the filter does reject.  A text node below the container whose
    parent has one of the tag names SCRIPT, STYLE, TEXTAREA, INPUT, CODE,
    PRE and NOSCRIPT, or whose parent or any element above it is a marker
    or an overlay of the script, is rejected by the filter of
    [processContainer]; the pass logs no tokenization, instruction or
    rendering of it, and every text node of that identity stays in the
    document as it was.  (The text nodes below the container have
    identities of their own.) *)
Lemma processContainer_skips_excluded above container s leaf text chain :
  In (leaf, text, chain) (textNodesBelow above container) ->
  NoDup (List.map leafId (textNodesBelow above container)) ->
  underSkippedTag chain \/ underOwnElement chain ->
  (forall s0, acceptNode s0 (leaf, text, chain) = FILTER_REJECT) /\
  extendsTrace (fun i => i <> leaf) s (stateOf (processContainer above container s)) /\
  (forall ab x,
      In x (textNodes ab (body s)) -> leafId x = leaf ->
      In x (textNodes ab (body (stateOf (processContainer above container s))))).
Proof.
  intros Hin Hnd Hex.
  assert (Hrej : forall s0, acceptNode s0 (leaf, text, chain) = FILTER_REJECT)
    by (intros s0; by apply acceptNode_excluded).
  assert (Hout : ~ In leaf (List.map leafId (scanned above container s))).
  { intros (x & Hid & Hx)%in_map_iff. apply filter_In in Hx as [Hx Hacc].
    assert (x = (leaf, text, chain)) as ->
      by (eapply (NoDup_map_eq leafId); eauto).
    unfold accepted in Hacc. by rewrite Hrej in Hacc. }
  destruct (processContainer_frame above container s) as (_ & Ht & Hb).
  split_and!; [done| |].
  - eapply extendsTrace_weaken; [|exact Ht]. intros i Hi ->. by apply Hout.
  - intros ab x Hx Hid. apply Hb; [done|]. by rewrite Hid.
Qed.

End FilterFacts.

(** The page [<body><script>Hello</script><p>Hello</p></body>], scanned
    with ["hello"] in the vocabulary and the mode ['all']. *)
Lemma processContainer_skips_script :
  (forall s0, acceptNode s0 (2, str "Hello", [{| tag := str "SCRIPT"; classes := [] |};
                                               {| tag := str "BODY"; classes := [] |}])
              = FILTER_REJECT) /\
  extendsTrace (fun i => i <> 2)
    (loadData helloReply (freshScript exampleHref [] scriptPage 5 zeroDraws))
    (stateOf (processContainer [] scriptPage
                (loadData helloReply (freshScript exampleHref [] scriptPage 5 zeroDraws)))) /\
  (forall ab x,
      In x (textNodes ab scriptPage) -> leafId x = 2 ->
      In x (textNodes ab
              (body (stateOf (processContainer [] scriptPage
                (loadData helloReply (freshScript exampleHref [] scriptPage 5 zeroDraws))))))).
Proof.
  apply (processContainer_skips_excluded [] scriptPage
           (loadData helloReply (freshScript exampleHref [] scriptPage 5 zeroDraws))
           2 (str "Hello")).
  - vm_compute. tauto.
  - by apply (bool_decide_unpack _).
  - left. eexists _, _. split; [reflexivity|]. vm_compute. reflexivity.
Defined.

(** C3. The filter of [processContainer] tests the tag name of the
    parent only, against names in upper case.  In
    [<body><pre><span>hello</span></pre></body>] the text node has a PRE
    element in its chain, and in
    [<body><svg><style>hello</style></svg></body>] its parent is a style
    element; the filter accepts both, and the pass tokenizes and replaces
    them. *)
Theorem processContainer_visits_below_pre :
  (In (3, str "hello", [{| tag := str "SPAN"; classes := [] |};
                        {| tag := str "PRE"; classes := [] |};
                        {| tag := str "BODY"; classes := [] |}])
      (textNodesBelow [] highlightedPage) /\
   existsb (fun a => isSkipTag (tag a))
           [{| tag := str "SPAN"; classes := [] |};
            {| tag := str "PRE"; classes := [] |};
            {| tag := str "BODY"; classes := [] |}] = true /\
   acceptNode (loadData helloReply (freshScript exampleHref [] highlightedPage 4 zeroDraws))
              (3, str "hello", [{| tag := str "SPAN"; classes := [] |};
                                {| tag := str "PRE"; classes := [] |};
                                {| tag := str "BODY"; classes := [] |}])
   = FILTER_ACCEPT /\
   trace (stateOf (processContainer [] highlightedPage
            (loadData helloReply (freshScript exampleHref [] highlightedPage 4 zeroDraws))))
   = [Tokenized 3; Instructed 3 (str "hello") helloWord; Rendered 3] /\
   textContent (body (stateOf (processContainer [] highlightedPage
            (loadData helloReply (freshScript exampleHref [] highlightedPage 4 zeroDraws)))))
   = shalom) /\
  (In (3, str "hello", [{| tag := str "style"; classes := [] |};
                        {| tag := str "svg"; classes := [] |};
                        {| tag := str "BODY"; classes := [] |}])
      (textNodesBelow [] svgPage) /\
   acceptNode (loadData helloReply (freshScript exampleHref [] svgPage 4 zeroDraws))
              (3, str "hello", [{| tag := str "style"; classes := [] |};
                                {| tag := str "svg"; classes := [] |};
                                {| tag := str "BODY"; classes := [] |}])
   = FILTER_ACCEPT /\
   trace (stateOf (processContainer [] svgPage
            (loadData helloReply (freshScript exampleHref [] svgPage 4 zeroDraws))))
   = [Tokenized 3; Instructed 3 (str "hello") helloWord; Rendered 3] /\
   textContent (body (stateOf (processContainer [] svgPage
            (loadData helloReply (freshScript exampleHref [] svgPage 4 zeroDraws)))))
   = shalom).
Proof. vm_compute. tauto. Qed.

(** *** A disabled extension *)

Section DisabledFacts.
Context {L : LowerCase}.

Lemma quiet_refl s : quiet s s.
Proof. split; [done|]. exists []. by rewrite app_nil_r. Qed.

Lemma quiet_trans s1 s2 s3 : quiet s1 s2 -> quiet s2 s3 -> quiet s1 s3.
Proof.
  intros [F1 (e1 & T1 & A1)] [F2 (e2 & T2 & A2)]. split; [congruence|].
  exists (e1 ++ e2). split; [by rewrite T2, T1, app_assoc|by apply Forall_app].
Qed.

Lemma quiet_settings s s' : quiet s s' -> settings s' = settings s.
Proof. intros [F _]. exact (f_equal settings F). Qed.

Lemma quiet_body s s' : quiet s s' -> body s' = body s.
Proof. intros [F _]. exact (f_equal body F). Qed.

Lemma quiet_bodyAncestors s s' : quiet s s' -> bodyAncestors s' = bodyAncestors s.
Proof. intros [F _]. exact (f_equal bodyAncestors F). Qed.

Lemma replaceWords_disabled st leaf text words :
  forall s newContent hasReplacements,
    settings s = Some st -> isEnabled st = false ->
    exists newContent',
      replaceWords leaf text words s newContent hasReplacements
      = inl (s, newContent', hasReplacements).
Proof.
  induction words as [|word rest IH]; intros s nc h Hs Hen; cbn [replaceWords].
  { by exists nc. }
  destruct (hasWhiteSpace word); [by apply IH|].
  destruct (vocabularyMap s !! normalizeWord word) as [vw|]; [|by apply IH].
  rewrite Hs, (shouldReplaceWord_disabled vw st (rng s) Hen).
  by apply (IH s).
Qed.

Lemma processTextNode_disabled st leaf text s :
  settings s = Some st -> isEnabled st = false ->
  exists s', processTextNode leaf text s = Completed s' /\ quiet s s'.
Proof.
  intros Hs Hen. unfold processTextNode.
  destruct (bool_decide (text = []) || bool_decide (trim text = []));
    [exists s; split; [done|apply quiet_refl]|].
  destruct (negb (textContainsVocabulary s text));
    [exists s; split; [done|apply quiet_refl]|].
  cbn zeta.
  destruct (replaceWords_disabled st leaf text (splitWhiteSpace text)
              (set_trace (trace s ++ [Tokenized leaf]) s) [] false)
    as [nc ->]; [done..|].
  eexists. split; [done|]. split; [done|].
  exists [Tokenized leaf]. split; [done|]. repeat constructor. by exists leaf.
Qed.

Lemma processTextNodes_disabled st nodes :
  forall s,
    settings s = Some st -> isEnabled st = false ->
    exists s', processTextNodes nodes s = Completed s' /\ quiet s s'.
Proof.
  induction nodes as [|[[leaf text] chain] rest IH]; intros s Hs Hen;
    cbn [processTextNodes].
  { exists s. split; [done|apply quiet_refl]. }
  destruct (bool_decide (leaf ∈ processedNodes s)); [by apply IH|].
  destruct (processTextNode_disabled st leaf text
              (set_processedNodes ({[leaf]} ∪ processedNodes s) s))
    as (s1 & -> & Hq1); [done..|].
  destruct (IH s1) as (s2 & -> & Hq2); [by rewrite (quiet_settings _ _ Hq1)|done|].
  exists s2. split; [done|].
  eapply quiet_trans; [|exact Hq2]. eapply quiet_trans; [|exact Hq1].
  split; [done|]. exists []. by rewrite app_nil_r.
Qed.

Lemma processContainer_disabled st above container s :
  settings s = Some st -> isEnabled st = false ->
  exists s', processContainer above container s = Completed s' /\ quiet s s'.
Proof.
  intros Hs Hen. unfold processContainer.
  destruct (bool_decide (nodeId container ∈ processedNodes s));
    [exists s; split; [done|apply quiet_refl]|].
  cbn zeta.
  match goal with |- context [processTextNodes ?ns ?s1] =>
    destruct (processTextNodes_disabled st ns s1) as (s2 & -> & Hq); [done..|] end.
  exists s2. split; [done|]. eapply quiet_trans; [|exact Hq].
  split; [done|]. exists []. by rewrite app_nil_r.
Qed.

Lemma processBatch_disabled st batch :
  forall s,
    settings s = Some st -> isEnabled st = false ->
    exists s', processBatch batch s = Completed s' /\ quiet s s'.
Proof.
  induction batch as [|node rest IH]; intros s Hs Hen; cbn [processBatch].
  { exists s. split; [done|apply quiet_refl]. }
  assert (exists s1,
             match locate (q_node node) (bodyAncestors s) (body s) with
             | Some (above, n) =>
               if q_nodeType node =? TEXT_NODE
               then processTextNode (q_node node) (textContent n) s
               else if q_nodeType node =? ELEMENT_NODE
                    then processContainer above n s
                    else Completed s
             | None => Completed s
             end = Completed s1 /\ quiet s s1) as (s1 & -> & Hq1).
  { destruct (locate _ _ _) as [[above n]|]; [|exists s; split; [done|apply quiet_refl]].
    destruct (q_nodeType node =? TEXT_NODE); [by eapply processTextNode_disabled|].
    destruct (q_nodeType node =? ELEMENT_NODE); [by eapply processContainer_disabled|].
    exists s. split; [done|apply quiet_refl]. }
  destruct (IH s1) as (s2 & -> & Hq2); [by rewrite (quiet_settings _ _ Hq1)|done|].
  exists s2. split; [done|]. by eapply quiet_trans.
Qed.

(** A scan that was queued before the extension was disabled still runs,
    and replaces nothing. *)
Lemma processQueue_disabled st s :
  settings s = Some st -> isEnabled st = false ->
  exists s', processQueue s = Completed s' /\ quiet s s'.
Proof.
  intros Hs Hen. unfold processQueue.
  destruct (isProcessing s); [exists s; split; [done|apply quiet_refl]|].
  cbn zeta.
  match goal with |- context [processBatch ?b ?s1] =>
    destruct (processBatch_disabled st b s1) as (s2 & -> & [F (evs & T & A)]);
      [done..|] end.
  eexists. split; [done|]. split; [exact F|]. by exists evs.
Qed.

Lemma enabled_false st s :
  settings s = Some st -> isEnabled st = false -> enabled s = false.
Proof. unfold enabled. by intros -> ->. Qed.

(** C5. Disabled invariant. With settings whose [isEnabled] is false:
    [shouldReplaceWord] returns false for every entry; [processPage]
    returns in the state it was called in; the observer's callback only
    arms its timer (document, queue and trace are as before), and when the
    timer fires the mutations are dropped: nothing is queued and no scan
    is scheduled; and a scan that was already queued runs to its end
    without replacing, registering, drawing or sending anything. *)
Theorem disabled_invariant (s : State) (st : UserSettings) :
  settings s = Some st -> isEnabled st = false ->
  (forall w g, shouldReplaceWord w (settings s) g = Returns (false, g)) /\
  processPage s = Completed s /\
  (forall mutations, debouncedMutations mutations s = s) /\
  (forall mutations,
      body (onMutations mutations s) = body s /\
      processingQueue (onMutations mutations s) = processingQueue s /\
      trace (onMutations mutations s) = trace s /\
      (forall t, processTimeout (onMutations mutations s) = Some t ->
                 fireTimer t (onMutations mutations s)
                 = Completed (clearTimeout t (onMutations mutations s)))) /\
  (exists s', processQueue s = Completed s' /\ quiet s s').
Proof.
  intros Hs Hen. pose proof (enabled_false st s Hs Hen) as Hoff. split_and!.
  - intros w g. rewrite Hs. by apply shouldReplaceWord_disabled.
  - unfold processPage. by rewrite Hoff.
  - intros mutations. unfold debouncedMutations. by rewrite Hoff, orb_true_r.
  - intros mutations. split_and!; try done.
    + unfold onMutations, clearProcessTimeout. by destruct (truthy (processTimeout s)).
    + unfold onMutations, clearProcessTimeout. by destruct (truthy (processTimeout s)).
    + unfold onMutations, clearProcessTimeout. by destruct (truthy (processTimeout s)).
    + intros t Ht. unfold fireTimer.
      assert (t = nextTimerId s) as ->.
      { unfold onMutations, clearProcessTimeout in Ht.
        destruct (truthy (processTimeout s)); cbn in Ht; congruence. }
      assert (timers (onMutations mutations s) !! nextTimerId s
              = Some (DebouncedMutations mutations)) as ->.
      { unfold onMutations, clearProcessTimeout.
        destruct (truthy (processTimeout s)); cbn; apply lookup_insert_eq. }
      unfold debouncedMutations.
      assert (enabled (set_timers (delete (nextTimerId s) (timers (onMutations mutations s)))
                         (onMutations mutations s)) = false) as ->.
      { unfold onMutations, clearProcessTimeout, enabled.
        destruct (truthy (processTimeout s)); cbn; by rewrite Hs, Hen. }
      by rewrite orb_true_r.
  - by apply (processQueue_disabled st).
Qed.

End DisabledFacts.

(** *** Locations that are no URL *)

Section ExcludedDomains.
Context {L : LowerCase} {U : UrlParser}.

(** C9. A location that [new URL] does not parse is excluded, whatever
    the list of excluded domains, the empty list included; on such a page
    [initialize] returns at once: nothing is loaded, registered, observed
    or scanned. *)
Theorem isDomainExcluded_unparsable (href : jsstring) :
  URL_hostname href = None ->
  (forall excluded, isDomainExcluded href excluded = true) /\
  (forall reply s, location_href s = href -> initialize reply s = Completed s).
Proof.
  intros Hurl. split.
  - intros excluded. unfold isDomainExcluded. by rewrite Hurl.
  - intros reply s Hhref. unfold initialize, isDomainExcluded.
    by rewrite Hhref, Hurl.
Qed.

End ExcludedDomains.

(** The location [invalid-url] of the tests. *)
Lemma isDomainExcluded_invalid_url :
  (forall excluded, isDomainExcluded (str "invalid-url") excluded = true) /\
  (forall reply s, location_href s = str "invalid-url" ->
                   initialize reply s = Completed s).
Proof. apply (isDomainExcluded_unparsable (str "invalid-url")). reflexivity. Defined.

(** *** The vocabulary store *)

Import Database.

Lemma deleteOccurrences_lookup (l : list WordOccurrence) :
  forall d k,
    occurrencesStore
      (fold_left (fun d o => deleteOccurrence (occ_id o) d) l d) !! k
    = if bool_decide (k ∈ List.map occ_id l) then None
      else occurrencesStore d !! k.
Proof.
  induction l as [|o l IH]; intros d k; cbn [fold_left List.map].
  { rewrite bool_decide_eq_false_2; [done|]. apply not_elem_of_nil. }
  rewrite IH. cbn [deleteOccurrence occurrencesStore].
  destruct (decide (occ_id o = k)) as [<-|Hne].
  - rewrite lookup_delete_eq.
    rewrite (bool_decide_eq_true_2 (occ_id o ∈ occ_id o :: _)) by apply list_elem_of_here.
    by destruct (bool_decide _).
  - rewrite lookup_delete_ne by done.
    destruct (bool_decide_reflect (k ∈ List.map occ_id l)) as [Hin|Hout].
    + by rewrite bool_decide_eq_true_2 by (by apply list_elem_of_further).
    + rewrite bool_decide_eq_false_2; [done|].
      intros [?|?]%elem_of_cons; congruence.
Qed.

Lemma deleteOccurrences_others (l : list WordOccurrence) :
  forall d,
    vocabularyStore (fold_left (fun d o => deleteOccurrence (occ_id o) d) l d)
    = vocabularyStore d /\
    settingsStore (fold_left (fun d o => deleteOccurrence (occ_id o) d) l d)
    = settingsStore d.
Proof. induction l as [|o l IH]; intros d; cbn [fold_left]; [done|]. by rewrite !(proj1 (IH _)), !(proj2 (IH _)). Qed.

Lemma occurrencesByWordId_spec d key o :
  In o (occurrencesByWordId d key)
  <-> (exists k, occurrencesStore d !! k = Some o) /\ wordId o = key.
Proof.
  unfold occurrencesByWordId. rewrite filter_In, eqb_eq, in_map_iff. split.
  - intros [([k o'] & <- & Hin) Hw]. split; [|done]. exists k.
    by apply elem_of_map_to_list, list_elem_of_In.
  - intros [[k Hk] Hw]. split; [|done]. exists (k, o). split; [done|].
    by apply list_elem_of_In, elem_of_map_to_list.
Qed.

(** The empty store keeps its records under their [id], and so does a
    store after [add] and [delete]. *)
Lemma keyedById_add o d d' :
  keyedById d -> addOccurrence o d = Some d' -> keyedById d'.
Proof.
  unfold addOccurrence, keyedById, map_Forall. intros Hk.
  destruct (occurrencesStore d !! occ_id o); [done|]. intros [= <-] key o'.
  cbn. rewrite lookup_insert. case_decide; [by intros [= <-]|apply Hk].
Qed.

Lemma keyedById_delete key d : keyedById d -> keyedById (deleteOccurrence key d).
Proof.
  unfold keyedById, map_Forall. intros Hk k o. cbn. rewrite lookup_delete.
  case_decide; [done|apply Hk].
Qed.

(** C10. On an initialized database, [removeWord] deletes the vocabulary
    record kept under the id and every occurrence whose [wordId] is the
    id; every other vocabulary record and every occurrence of another
    word stay as they were, no record appears, and the settings are not
    touched. *)
Theorem removeWord_deletes_word_and_occurrences
    (m : DatabaseManager) (d : Stores) (key : jsstring) :
  db m = Some d ->
  keyedById d ->
  exists d',
    removeWord m key = Returns {| db := Some d' |} /\
    vocabularyStore d' !! key = None /\
    (forall k, k <> key -> vocabularyStore d' !! k = vocabularyStore d !! k) /\
    (forall k o, occurrencesStore d !! k = Some o -> wordId o = key ->
                 occurrencesStore d' !! k = None) /\
    (forall k o, occurrencesStore d !! k = Some o -> wordId o <> key ->
                 occurrencesStore d' !! k = Some o) /\
    (forall k, occurrencesStore d !! k = None -> occurrencesStore d' !! k = None) /\
    settingsStore d' = settingsStore d.
Proof.
  intros Hdb Hkeyed. unfold removeWord. rewrite Hdb. eexists. split; [done|].
  set (d1 := deleteVocabulary key d).
  destruct (deleteOccurrences_others (occurrencesByWordId d1 key) d1) as [Hv Hs].
  split_and!.
  - rewrite Hv. apply lookup_delete_eq.
  - intros k Hne. rewrite Hv. by apply lookup_delete_ne.
  - intros k o Hk Hw. rewrite deleteOccurrences_lookup.
    rewrite bool_decide_eq_true_2; [done|].
    apply list_elem_of_In, in_map_iff. exists o. split; [by apply Hkeyed|].
    apply occurrencesByWordId_spec. eauto.
  - intros k o Hk Hw. rewrite deleteOccurrences_lookup.
    rewrite bool_decide_eq_false_2; [done|].
    intros (o' & Hid & [[k' Hk'] Hw']%occurrencesByWordId_spec)%list_elem_of_In%in_map_iff.
    cbn in Hk'. apply Hkeyed in Hk' as Hid'.
    assert (k' = k) as -> by congruence.
    assert (o' = o) as -> by congruence. done.
  - intros k Hk. rewrite deleteOccurrences_lookup.
    by destruct (bool_decide _).
  - by rewrite Hs.
Qed.

(** *** The pre-filter *)

Section PreFilter.
Context {L : LowerCase}.

Lemma normalizeWord_ascii s :
  forallb isAscii s = true ->
  normalizeWord s = stripNonWord (trim (List.map asciiLower s)).
Proof. intros H. unfold normalizeWord. by rewrite toLowerCase_ascii. Qed.

Lemma dontScript_vocabularyMap :
  vocabularyMap dontScript = {[ str "dont" := dontWord ]}.
Proof.
  unfold dontScript, loadData, buildVocabularyMap. cbn.
  rewrite normalizeWord_ascii by reflexivity. reflexivity.
Qed.

(** C2 fails on the code. The text [I don't know] holds the token
    [don't], whose normalization [dont] is a key of the index; the
    pre-filter looks for [dont] in the lower-cased text, where the
    apostrophe is still in place, and answers false; [processTextNode]
    then leaves the text node as it is, without splitting it. *)
Theorem textContainsVocabulary_false_negative :
  In (str "don't") (splitWhiteSpace (str "I don't know")) /\
  hasWhiteSpace (str "don't") = false /\
  vocabularyMap dontScript !! normalizeWord (str "don't") = Some dontWord /\
  textContainsVocabulary dontScript (str "I don't know") = false /\
  processTextNode 2 (str "I don't know") dontScript = Completed dontScript.
Proof.
  assert (Hfilter : textContainsVocabulary dontScript (str "I don't know") = false).
  { unfold textContainsVocabulary. rewrite dontScript_vocabularyMap.
    rewrite map_to_list_singleton. cbn [List.map fst existsb].
    rewrite toLowerCase_ascii by reflexivity. reflexivity. }
  split_and!.
  - vm_compute. tauto.
  - reflexivity.
  - rewrite dontScript_vocabularyMap, normalizeWord_ascii by reflexivity.
    reflexivity.
  - exact Hfilter.
  - unfold processTextNode. rewrite Hfilter. reflexivity.
Qed.

End PreFilter.

(** *** Reset *)

(** Unwrapping the markers keeps the text the document shows. *)
Lemma unwrapMarkers_textContent n :
  forall fresh, textContent (unwrapMarkers n fresh).1 = textContent n.
Proof.
  induction n as [i d|i t cl kids IH] using Node_ind'; intros fresh; [done|].
  cbn [unwrapMarkers]. destruct (contains cl markerClass); [done|].
  revert fresh. induction kids as [|k kids IHkids]; intros fresh; [done|].
  apply Forall_cons in IH as [Hk Hkids]. specialize (IHkids Hkids).
  specialize (Hk fresh). destruct (unwrapMarkers k fresh) as [k' f1].
  specialize (IHkids f1). cbn [fst] in Hk.
  destruct ((fix each (ks : list Node) (f : nat) {struct ks} : list Node * nat :=
               match ks with
               | [] => ([], f)
               | k0 :: ks' =>
                 let '(k'0, f0) := unwrapMarkers k0 f in
                 let '(ks'', f2) := each ks' f0 in (k'0 :: ks'', f2)
               end) kids f1) as [ks'' f2].
  cbn in IHkids |- *. by rewrite Hk, IHkids.
Qed.

(** So does [resetReplacements], when no tooltip is open. *)
Lemma resetReplacements_textContent s :
  tooltip s = None -> ctrlTooltip s = None ->
  textContent (body (resetReplacements s)) = textContent (body s).
Proof.
  intros Ht Hc. unfold resetReplacements.
  pose proof (unwrapMarkers_textContent (body s) (nextNodeId s)) as H.
  destruct (unwrapMarkers (body s) (nextNodeId s)) as [body' fresh].
  unfold hideCtrlTooltip, hideTooltip. cbn. rewrite Ht. cbn. by rewrite Hc.
Qed.

(** C1 fails on the code. The text node [Hello world] is replaced by a
    marker that shows the translation, registered with the original word
    [Hello], and by the text nodes of the blank and of [world]; then
    [resetReplacements] puts in the marker's place a text node with what
    the marker shows, the translation: the position reads the translation
    followed by [ world], not [Hello world]. *)
Theorem resetReplacements_keeps_translation :
  textContent helloPage = str "Hello world" /\
  body helloScanned
  = Element 0 (str "BODY") []
      [Element 1 (str "P") []
         [Element 3 (str "SPAN") [markerClass] [Text 4 shalom];
          Text 5 (str " "); Text 6 (str "world")]] /\
  replacedWords helloScanned !! 3
  = Some {| original := str "Hello"; word := helloWord |} /\
  body (resetReplacements helloScanned)
  = Element 0 (str "BODY") []
      [Element 1 (str "P") []
         [Text 7 shalom; Text 5 (str " "); Text 6 (str "world")]] /\
  textContent (body (resetReplacements helloScanned)) = shalom ++ str " world" /\
  textContent (body (resetReplacements helloScanned)) <> str "Hello world".
Proof. vm_compute. split_and!; done. Qed.

(** *** The properties at work *)

(** C4 on the entry ["hello"]: replaced in the mode ['all'], and not
    replaced in the mode ['random'] with a percentage of 0 when the draw
    is 0. *)
Lemma shouldReplaceWord_policy_boundary_example :
  shouldReplaceWord helloWord (Some settingsAll) zeroDraws = Returns (true, zeroDraws) /\
  shouldReplaceWord helloWord (Some settingsRandomZero) zeroDraws
  = Returns (false, snd (random zeroDraws)).
Proof.
  split.
  - apply (shouldReplaceWord_policy_boundary helloWord settingsAll zeroDraws);
      reflexivity.
  - apply (shouldReplaceWord_policy_boundary helloWord settingsRandomZero zeroDraws);
      [reflexivity|reflexivity|by exists false|reflexivity].
Defined.

(** C5 on the page [<body><p>Hello world</p></body>] with the extension
    disabled. *)
Lemma disabled_invariant_example :
  processPage
    (loadData (Some {| reply_vocabulary := Some [helloWord];
                       reply_settings := Some settingsOff |})
              (freshScript exampleHref [] helloPage 3 zeroDraws))
  = Completed
      (loadData (Some {| reply_vocabulary := Some [helloWord];
                         reply_settings := Some settingsOff |})
                (freshScript exampleHref [] helloPage 3 zeroDraws)).
Proof.
  apply (disabled_invariant
           (loadData (Some {| reply_vocabulary := Some [helloWord];
                              reply_settings := Some settingsOff |})
                     (freshScript exampleHref [] helloPage 3 zeroDraws))
           settingsOff); reflexivity.
Defined.

(** C6 on the same page with the mode ['all']: a second pass over the
    body, which now holds the marker, returns the state the first pass
    left. *)
Lemma processContainer_twice_example :
  processContainer []
    (body (stateOf (processContainer [] helloPage
             (loadData helloReply (freshScript exampleHref [] helloPage 3 zeroDraws)))))
    (stateOf (processContainer [] helloPage
       (loadData helloReply (freshScript exampleHref [] helloPage 3 zeroDraws))))
  = Completed
      (stateOf (processContainer [] helloPage
         (loadData helloReply (freshScript exampleHref [] helloPage 3 zeroDraws)))).
Proof.
  apply (processContainer_twice [] helloPage
           (loadData helloReply (freshScript exampleHref [] helloPage 3 zeroDraws))).
  - vm_compute. reflexivity.
  - reflexivity.
Defined.

(** C10 on the example database: removing the entry ["hello"] leaves the
    occurrence of the other word. *)
Lemma removeWord_example :
  exists d',
    removeWord {| db := Some exampleStores |} (str "1") = Returns {| db := Some d' |} /\
    vocabularyStore d' !! str "1" = None /\
    (forall k, k <> str "1" -> vocabularyStore d' !! k = vocabularyStore exampleStores !! k) /\
    (forall k o, occurrencesStore exampleStores !! k = Some o -> wordId o = str "1" ->
                 occurrencesStore d' !! k = None) /\
    (forall k o, occurrencesStore exampleStores !! k = Some o -> wordId o <> str "1" ->
                 occurrencesStore d' !! k = Some o) /\
    (forall k, occurrencesStore exampleStores !! k = None -> occurrencesStore d' !! k = None) /\
    settingsStore d' = settingsStore exampleStores.
Proof.
  apply (removeWord_deletes_word_and_occurrences
           {| db := Some exampleStores |} exampleStores (str "1")).
  - reflexivity.
  - by apply (bool_decide_unpack _).
Defined.

(** C7 on an entry of difficulty ['expert'] and on settings of mode
    ['sometimes']. *)
Lemma shouldReplaceWord_fail_safe_example :
  shouldReplaceWord helloWord
    (Some {| isEnabled := true; replacementMode := str "sometimes";
             replacementPercentage := ofZ 100; showTooltipDelay := ofZ 500;
             categories := []; excludedDomains := [] |})
    zeroDraws
  = Returns (false, zeroDraws) /\
  exists g',
    shouldReplaceWord
      {| id := str "3"; english := str "world"; hebrew := [1506; 1493; 1500; 1501]%N;
         dateAdded := 0; lastSeen := None; timesShown := 0;
         difficulty := str "expert"; category := str "general" |}
      (Some {| isEnabled := true; replacementMode := str "difficulty-based";
               replacementPercentage := ofZ 100; showTooltipDelay := ofZ 500;
               categories := []; excludedDomains := [] |})
      zeroDraws
    = Returns (false, g').
Proof.
  split.
  - by apply shouldReplaceWord_fail_safe.
  - by apply shouldReplaceWord_fail_safe.
Defined.

(** C8 on a word with capitals, blanks and punctuation. *)
Lemma normalizeWord_idempotent_example :
  normalizeWord (normalizeWord (str "  Don't! ")) = normalizeWord (str "  Don't! ").
Proof. apply normalizeWord_idempotent. Defined.

(** *** The tests of the repository, run on the model *)

Example test_normalizeWord :
  normalizeWord (str "Hello") = str "hello" /\
  normalizeWord (str "  Word  ") = str "word" /\
  normalizeWord (str "word!") = str "word" /\
  normalizeWord (str "caf" ++ [233%N]) = str "caf".
Proof. by vm_compute. Qed.

Example test_split_preserves_whitespace :
  splitWhiteSpace (str "Hello world test")
  = [str "Hello"; str " "; str "world"; str " "; str "test"].
Proof. reflexivity. Qed.

Example test_shouldReplaceWord :
  shouldReplaceWord helloWord (Some settingsOff) zeroDraws = Returns (false, zeroDraws) /\
  shouldReplaceWord helloWord (Some settingsAll) zeroDraws = Returns (true, zeroDraws).
Proof. by vm_compute. Qed.

Example test_isDomainExcluded :
  isDomainExcluded (str "https://google.com") [str "google.com"; str "facebook.com"] = true /\
  isDomainExcluded (str "https://www.google.com") [str "google.com"; str "facebook.com"] = true /\
  isDomainExcluded (str "https://example.com") [str "google.com"; str "facebook.com"] = false /\
  isDomainExcluded (str "invalid-url") [str "google.com"; str "facebook.com"] = true.
Proof. by vm_compute. Qed.

(** The scenarios of the specification: ["Hello world"] in the mode
    ['all'] becomes a marker for [Hello] followed by the rest, and one
    exposure is reported; in the mode ['random'] with a percentage of 0
    the text stays and nothing is reported. *)
Example scenario_all :
  trace helloScanned = [Tokenized 2; Instructed 2 (str "Hello") helloWord; Rendered 2] /\
  List.map msg_wordId (outbox helloScanned) = [str "1"].
Proof. by vm_compute. Qed.

Example scenario_random_zero :
  body (stateOf (initialize
                   (Some {| reply_vocabulary := Some [helloWord];
                            reply_settings := Some settingsRandomZero |})
                   (freshScript exampleHref [] helloPage 3 zeroDraws)))
  = helloPage /\
  trace (stateOf (initialize
                   (Some {| reply_vocabulary := Some [helloWord];
                            reply_settings := Some settingsRandomZero |})
                   (freshScript exampleHref [] helloPage 3 zeroDraws)))
  = [Tokenized 2] /\
  outbox (stateOf (initialize
                   (Some {| reply_vocabulary := Some [helloWord];
                            reply_settings := Some settingsRandomZero |})
                   (freshScript exampleHref [] helloPage 3 zeroDraws)))
  = [].
Proof. by vm_compute. Qed.

(** The filter belongs to [processContainer]: a text node that the
    observer saw added goes from the queue to [processTextNode] as it is.
    In [<body><pre>hello</pre></body>] the filter rejects the text node,
    and the queue's timer replaces it. *)
Example processQueue_text_below_pre :
  acceptNode (loadData helloReply (freshScript exampleHref [] prePage 3 zeroDraws))
             (2, str "hello", [{| tag := str "PRE"; classes := [] |};
                               {| tag := str "BODY"; classes := [] |}])
  = FILTER_REJECT /\
  textContent
    (body (stateOf (processQueue
       (set_processingQueue [{| q_node := 2; q_nodeType := TEXT_NODE |}]
          (loadData helloReply (freshScript exampleHref [] prePage 3 zeroDraws))))))
  = shalom.
Proof. by vm_compute. Qed.

(** * Further properties *)

(** *** Sorting *)

Lemma insertSorted_Permutation {A : Type} (ahead : A -> A -> bool) x l :
  insertSorted ahead x l ≡ₚ x :: l.
Proof.
  induction l as [|y l IH]; cbn [insertSorted]; [done|].
  destruct (ahead x y); [done|]. rewrite IH. apply Permutation_swap.
Qed.

Lemma stableSort_Permutation {A : Type} (ahead : A -> A -> bool) l :
  stableSort ahead l ≡ₚ l.
Proof.
  unfold stableSort. induction l as [|x l IH]; cbn [foldr]; [done|].
  by rewrite insertSorted_Permutation, IH.
Qed.

Section Sorted.
Context {A : Type} (ahead : A -> A -> bool).
Context (ahead_total : forall a b, ahead a b = true \/ ahead b a = true).
Context (ahead_trans : forall a b c, ahead a b = true -> ahead b c = true -> ahead a c = true).

Lemma insertSorted_sorted x l :
  StronglySorted (fun a b => ahead a b = true) l ->
  StronglySorted (fun a b => ahead a b = true) (insertSorted ahead x l).
Proof using ahead_total ahead_trans.
  induction l as [|y l IH]; cbn [insertSorted]; intros Hs.
  { repeat constructor. }
  apply StronglySorted_inv in Hs as [Hl Hy].
  destruct (ahead x y) eqn:Hxy.
  - constructor; [by constructor|]. constructor; [done|].
    eapply Forall_impl; [exact Hy|]. intros z Hz. by eapply ahead_trans.
  - constructor; [by apply IH|].
    assert (ahead y x = true) as Hyx by (destruct (ahead_total x y); congruence).
    rewrite insertSorted_Permutation. by constructor.
Qed.

Lemma stableSort_sorted l :
  StronglySorted (fun a b => ahead a b = true) (stableSort ahead l).
Proof using ahead_total ahead_trans.
  unfold stableSort. induction l as [|x l IH]; cbn [foldr]; [constructor|].
  by apply insertSorted_sorted.
Qed.

End Sorted.

(** A list that is already in order is left as it is. *)
Lemma stableSort_id {A : Type} (ahead : A -> A -> bool) l :
  StronglySorted (fun a b => ahead a b = true) l -> stableSort ahead l = l.
Proof.
  unfold stableSort. induction l as [|x l IH]; cbn [foldr]; intros Hs; [done|].
  apply StronglySorted_inv in Hs as [Hl Hx]. rewrite (IH Hl).
  destruct l as [|y l]; [done|]. cbn [insertSorted].
  apply Forall_cons in Hx as [-> _]. done.
Qed.

(** *** The stores *)

Lemma getAll_In {A : Type} (store : gmap jsstring A) x :
  In x (getAll store) <-> exists key, store !! key = Some x.
Proof.
  unfold getAll. rewrite in_map_iff. split.
  - intros ([k y] & <- & Hin). exists k.
    apply list_elem_of_In in Hin. rewrite stableSort_Permutation in Hin.
    by apply elem_of_map_to_list.
  - intros [k Hk]. exists (k, x). split; [done|].
    apply list_elem_of_In. rewrite stableSort_Permutation.
    by apply elem_of_map_to_list.
Qed.

Lemma getAll_length {A : Type} (store : gmap jsstring A) :
  List.length (getAll store) = size store.
Proof.
  unfold getAll. rewrite length_map, stableSort_Permutation.
  apply length_map_to_list.
Qed.

Lemma getAll_insert {A : Type} (store : gmap jsstring A) key x :
  store !! key = None -> getAll (<[key := x]> store) ≡ₚ x :: getAll store.
Proof.
  intros Hk. unfold getAll. rewrite !stableSort_Permutation.
  by rewrite map_to_list_insert.
Qed.

(** The writes keep the keys. *)
Lemma wellKeyed_putVocabulary w d : wellKeyed d -> wellKeyed (putVocabulary w d).
Proof.
  intros [Hv Ho]. split; [|done]. unfold vocabularyKeyed, map_Forall. cbn.
  intros k w'. rewrite lookup_insert. case_decide; [by intros [= <-]|apply Hv].
Qed.

Lemma wellKeyed_deleteVocabulary key d : wellKeyed d -> wellKeyed (deleteVocabulary key d).
Proof.
  intros [Hv Ho]. split; [|done]. unfold vocabularyKeyed, map_Forall. cbn.
  intros k w'. rewrite lookup_delete. case_decide; [done|apply Hv].
Qed.

Lemma wellKeyed_deleteOccurrence key d : wellKeyed d -> wellKeyed (deleteOccurrence key d).
Proof. intros [Hv Ho]. split; [done|]. by apply keyedById_delete. Qed.

Lemma wellKeyed_addOccurrence o d d' :
  wellKeyed d -> addOccurrence o d = Some d' -> wellKeyed d'.
Proof.
  intros [Hv Ho] Hadd. split; [|by eapply keyedById_add].
  unfold addOccurrence in Hadd. destruct (occurrencesStore d !! occ_id o); [done|].
  by injection Hadd as <-.
Qed.

Lemma wellKeyed_deleteOccurrences l :
  forall d, wellKeyed d ->
            wellKeyed (fold_left (fun d o => deleteOccurrence (occ_id o) d) l d).
Proof.
  induction l as [|o l IH]; intros d Hd; cbn [fold_left]; [done|].
  by apply IH, wellKeyed_deleteOccurrence.
Qed.

(** A write keeps both stores keyed by the ids of their records. *)
Lemma writes_keep_keys m m' :
  wellKeyedManager m -> writes m m' -> wellKeyedManager m'.
Proof.
  intros Hm Hstep d' Hd'. destruct Hstep as
    [m uuid now w m' r H|m w m' H|m key m' H|m uuid now later wid page ctx m' H|m st m' H].
  - unfold addWord in H. destruct (db m) as [d|] eqn:Hd; [|done].
    destruct (vocabularyStore d !! uuid); [done|]. injection H as <- _.
    cbv [db] in Hd'. injection Hd' as <-. apply wellKeyed_putVocabulary, Hm, Hd.
  - unfold updateWord in H. destruct (db m) as [d|] eqn:Hd; [|done].
    injection H as <-. cbv [db] in Hd'. injection Hd' as <-.
    apply wellKeyed_putVocabulary, Hm, Hd.
  - unfold removeWord in H. destruct (db m) as [d|] eqn:Hd; [|done].
    injection H as <-. cbv [db] in Hd'. injection Hd' as <-.
    apply wellKeyed_deleteOccurrences, wellKeyed_deleteVocabulary, Hm, Hd.
  - unfold recordOccurrence in H. destruct (db m) as [d|] eqn:Hd; [|done].
    destruct (addOccurrence _ d) as [d1|] eqn:Hadd; [|done].
    assert (wellKeyed d1) by (eapply wellKeyed_addOccurrence; [apply Hm, Hd|done]).
    destruct (vocabularyStore d1 !! wid); injection H as <-; cbv [db] in Hd';
      injection Hd' as <-; [by apply wellKeyed_putVocabulary|done].
  - unfold updateSettings in H. destruct (db m) as [d|] eqn:Hd; [|done].
    injection H as <-. cbv [db] in Hd'. injection Hd' as <-.
    destruct (Hm d Hd) as [Hv Ho]. by split.
Qed.

(** *** Counting the occurrences of a word *)

Lemma filter_length_Permutation {A : Type} (f : A -> bool) (l l' : list A) :
  l ≡ₚ l' -> List.length (List.filter f l) = List.length (List.filter f l').
Proof.
  induction 1 as [|x l l' _ IH|x y l|l l' l'' _ IH1 _ IH2]; cbn [List.filter].
  - done.
  - destruct (f x); cbn [List.length]; by rewrite IH.
  - by destruct (f x), (f y).
  - by rewrite IH1.
Qed.

Lemma countIn_insert {A : Type} (f : A -> bool) (store : gmap jsstring A) key x :
  store !! key = None ->
  countIn f (<[key := x]> store) = (if f x then 1 else 0) + countIn f store.
Proof.
  intros Hk. unfold countIn.
  rewrite (filter_length_Permutation f _ (x :: List.map snd (map_to_list store))).
  - cbn [List.filter]. by destruct (f x).
  - change (x :: List.map snd (map_to_list store))
      with (List.map snd ((key, x) :: map_to_list store)).
    apply Permutation_map, map_to_list_insert, Hk.
Qed.

Lemma countIn_subseteq {A : Type} (f : A -> bool) (store : gmap jsstring A) :
  forall store',
    store' ⊆ store ->
    (forall key x, store !! key = Some x -> store' !! key = None -> f x = false) ->
    countIn f store' = countIn f store.
Proof.
  induction store as [|key x store Hkey IH] using map_ind; intros store' Hsub Hrest.
  { replace store' with (∅ : gmap jsstring A); [done|].
    symmetry. apply map_empty. intros k.
    destruct (store' !! k) as [z|] eqn:Hz; [|done].
    pose proof (lookup_weaken _ _ _ _ Hz Hsub) as H. by rewrite lookup_empty in H. }
  destruct (store' !! key) as [y|] eqn:Hy.
  - assert (y = x) as ->.
    { pose proof (lookup_weaken _ _ _ _ Hy Hsub) as H.
      rewrite lookup_insert_eq in H. congruence. }
    rewrite <- (insert_delete_id store' key x Hy).
    rewrite !countIn_insert by (done || apply lookup_delete_eq).
    f_equal. apply IH.
    + apply map_subseteq_spec. intros k z Hz.
      apply lookup_delete_Some in Hz as [Hne Hz].
      pose proof (lookup_weaken _ _ _ _ Hz Hsub) as H.
      by rewrite lookup_insert_ne in H.
    + intros k z Hz Hnone. apply (Hrest k z).
      * rewrite lookup_insert_ne; [done|]. intros ->. congruence.
      * rewrite lookup_delete_ne in Hnone; [done|]. intros ->. congruence.
  - rewrite countIn_insert by done.
    rewrite (Hrest key x) by (done || apply lookup_insert_eq). cbn. apply IH.
    + apply map_subseteq_spec. intros k z Hz.
      pose proof (lookup_weaken _ _ _ _ Hz Hsub) as H.
      rewrite lookup_insert_ne in H; [done|]. intros ->. congruence.
    + intros k z Hz Hnone. apply (Hrest k z); [|done].
      rewrite lookup_insert_ne; [done|]. intros ->. congruence.
Qed.

Lemma occurrencesByWordId_length d key :
  List.length (occurrencesByWordId d key)
  = countIn (fun o => eqb (wordId o) key) (occurrencesStore d).
Proof. done. Qed.

(** *** The methods of the database *)

Lemma initializeDatabase_wellKeyed m : initializeDatabase None = Returns m -> wellKeyedManager m.
Proof.
  intros [= <-] d [= <-]. split; cbn; unfold vocabularyKeyed, keyedById; cbn;
    apply map_Forall_empty.
Qed.

(** X1. Whatever sequence of [addWord], [updateWord], [removeWord],
    [recordOccurrence] and [updateSettings] follows the first opening of
    the database, both stores keep every record under the record's own
    [id]: the condition under which [removeWord] cleans up (C10) holds in
    every state the methods reach. *)
Theorem database_keeps_records_under_their_id (m0 m : DatabaseManager) :
  initializeDatabase None = Returns m0 ->
  rtc writes m0 m ->
  wellKeyedManager m.
Proof.
  intros Hinit Hsteps. apply initializeDatabase_wellKeyed in Hinit.
  induction Hsteps as [|m1 m2 m3 Hstep _ IH]; [done|].
  by apply IH, (writes_keep_keys m1).
Qed.

Lemma List_filter_Permutation {A : Type} (f : A -> bool) (l l' : list A) :
  l ≡ₚ l' -> List.filter f l ≡ₚ List.filter f l'.
Proof.
  induction 1 as [|x l l' _ IH|x y l|l l' l'' _ IH1 _ IH2]; cbn [List.filter].
  - done.
  - destruct (f x); by rewrite IH.
  - destruct (f x), (f y); try done. apply perm_swap.
  - by rewrite IH1.
Qed.

Lemma occurrencesByWordId_insert d d' key k o :
  occurrencesStore d !! k = None ->
  occurrencesStore d' = <[k := o]> (occurrencesStore d) ->
  occurrencesByWordId d' key
  ≡ₚ (if eqb (wordId o) key then [o] else []) ++ occurrencesByWordId d key.
Proof.
  intros Hfresh Hd'. unfold occurrencesByWordId. rewrite Hd'.
  rewrite (List_filter_Permutation _ _ (o :: List.map snd (map_to_list (occurrencesStore d)))).
  - cbn [List.filter]. by destruct (eqb (wordId o) key).
  - change (o :: List.map snd (map_to_list (occurrencesStore d)))
      with (List.map snd ((k, o) :: map_to_list (occurrencesStore d))).
    by apply Permutation_map, map_to_list_insert.
Qed.

(** The word that [recordOccurrence] puts back. *)
Lemma recordOccurrence_stores m d uuid now later word_id page ctx :
  db m = Some d ->
  occurrencesStore d !! uuid = None ->
  exists d',
    recordOccurrence m uuid now later word_id page ctx = Returns {| db := Some d' |} /\
    occurrencesStore d'
    = <[uuid := {| occ_id := uuid; wordId := word_id; url := page; timestamp := now;
                   context := ctx |}]> (occurrencesStore d) /\
    vocabularyStore d'
    = match vocabularyStore d !! word_id with
      | Some w =>
        <[id w := {| id := id w; english := english w; hebrew := hebrew w;
                     dateAdded := dateAdded w; lastSeen := Some later;
                     timesShown := (timesShown w + 1)%N;
                     difficulty := difficulty w; category := category w |}]>
          (vocabularyStore d)
      | None => vocabularyStore d
      end /\
    settingsStore d' = settingsStore d.
Proof.
  intros Hdb Hfresh. unfold recordOccurrence, addOccurrence. rewrite Hdb.
  cbn [occ_id]. rewrite Hfresh. cbn [vocabularyStore].
  destruct (vocabularyStore d !! word_id) as [w|]; eexists; (split; [done|]); done.
Qed.


(** What [removeWord] leaves of the stores. *)
Lemma removeWord_stores m d key :
  db m = Some d ->
  keyedById d ->
  exists d',
    removeWord m key = Returns {| db := Some d' |} /\
    vocabularyStore d' = delete key (vocabularyStore d) /\
    (forall k, occurrencesStore d' !! k
               = match occurrencesStore d !! k with
                 | Some o => if eqb (wordId o) key then None else Some o
                 | None => None
                 end) /\
    settingsStore d' = settingsStore d.
Proof.
  intros Hdb Hkeyed. unfold removeWord. rewrite Hdb. eexists. split; [done|].
  set (d1 := deleteVocabulary key d).
  destruct (deleteOccurrences_others (occurrencesByWordId d1 key) d1) as [Hv Hs].
  split_and!; [by rewrite Hv| |by rewrite Hs].
  intros k. rewrite deleteOccurrences_lookup. cbn [d1 deleteVocabulary occurrencesStore].
  destruct (occurrencesStore d !! k) as [o|] eqn:Hk; [|by destruct (bool_decide _)].
  unfold eqb. destruct (bool_decide_reflect (wordId o = key)) as [Hw|Hw].
  - rewrite bool_decide_eq_true_2; [done|].
    apply list_elem_of_In, in_map_iff. exists o. split; [by apply Hkeyed|].
    apply occurrencesByWordId_spec. eauto.
  - rewrite bool_decide_eq_false_2; [done|].
    intros (o' & Hid & [[k' Hk'] Hw']%occurrencesByWordId_spec)%list_elem_of_In%in_map_iff.
    cbn in Hk'. apply Hkeyed in Hk' as Hid'.
    assert (k' = k) as -> by congruence.
    assert (o' = o) as -> by congruence. done.
Qed.

Lemma occurrencesByWordId_nil d key :
  (forall k o, occurrencesStore d !! k = Some o -> wordId o <> key) ->
  occurrencesByWordId d key = [].
Proof.
  intros Hnone. destruct (occurrencesByWordId d key) as [|o l] eqn:Hl; [done|].
  assert (In o (occurrencesByWordId d key)) as Hin by (rewrite Hl; by left).
  apply occurrencesByWordId_spec in Hin as [[k Hk] Hw]. by destruct (Hnone k o).
Qed.

(** X3. After [removeWord] has returned on an open database keyed by id,
    [getWordOccurrences] of the removed id returns the empty list, and
    removing the same id once more returns the database as it is:
    removal is idempotent. *)
Theorem removeWord_twice (m m' : DatabaseManager) (d : Stores) (key : jsstring) :
  db m = Some d ->
  keyedById d ->
  removeWord m key = Returns m' ->
  getWordOccurrences m' key = Returns [] /\
  removeWord m' key = Returns m'.
Proof.
  intros Hdb Hkeyed Hcall.
  destruct (removeWord_stores m d key Hdb Hkeyed) as (d' & Hcall' & Hv & Ho & Hs).
  rewrite Hcall' in Hcall. injection Hcall as <-.
  assert (occurrencesByWordId d' key = []) as Hnil.
  { apply occurrencesByWordId_nil. intros k o Hk. rewrite Ho in Hk.
    destruct (occurrencesStore d !! k) as [o'|]; [|done].
    unfold eqb in Hk. destruct (bool_decide_reflect (wordId o' = key)); [done|].
    by injection Hk as <-. }
  split.
  - unfold getWordOccurrences. cbn [db]. by rewrite Hnil.
  - unfold removeWord. cbn [db].
    assert (deleteVocabulary key d' = d') as ->.
    { unfold deleteVocabulary. rewrite Hv, delete_delete_eq, <- Hv. by destruct d'. }
    by rewrite Hnil.
Qed.

Lemma occurrencesByWordId_subseteq d d' key :
  occurrencesStore d' ⊆ occurrencesStore d ->
  (forall k o, occurrencesStore d !! k = Some o -> occurrencesStore d' !! k = None ->
               wordId o <> key) ->
  List.length (occurrencesByWordId d' key) = List.length (occurrencesByWordId d key).
Proof.
  intros Hsub Hrest. rewrite !occurrencesByWordId_length.
  apply countIn_subseteq; [done|]. intros k o Hk Hnone.
  unfold eqb. apply bool_decide_eq_false_2. by apply (Hrest k o).
Qed.

(** X4. The counter agrees with the record: on an open database keyed by
    id in which every word's [timesShown] is the number of its
    occurrences on record, [recordOccurrence] and [removeWord] return a
    database in which that is so again. *)
Theorem counter_agrees_with_record (m : DatabaseManager) (d : Stores) :
  db m = Some d ->
  wellKeyed d ->
  countsAgree d ->
  (forall uuid now later word_id page ctx m',
      recordOccurrence m uuid now later word_id page ctx = Returns m' ->
      countsAgreeManager m') /\
  (forall key m', removeWord m key = Returns m' -> countsAgreeManager m').
Proof.
  intros Hdb [Hvk Hok] Hcount. split.
  - intros uuid now later word_id page ctx m' Hcall.
    destruct (occurrencesStore d !! uuid) as [o|] eqn:Hfresh.
    { unfold recordOccurrence, addOccurrence in Hcall. rewrite Hdb in Hcall.
      cbn [occ_id] in Hcall. by rewrite Hfresh in Hcall. }
    destruct (recordOccurrence_stores m d uuid now later word_id page ctx Hdb Hfresh)
      as (d' & Hcall' & Hocc & Hvoc & _).
    rewrite Hcall' in Hcall. injection Hcall as <-. intros ? [= <-] key w' Hw'.
    pose proof (occurrencesByWordId_insert d d' key _ _ Hfresh Hocc) as Hperm.
    apply Permutation_length in Hperm. rewrite Hperm. cbn [wordId]. unfold eqb.
    rewrite Hvoc in Hw'.
    destruct (vocabularyStore d !! word_id) as [w|] eqn:Hw.
    + rewrite (Hvk _ _ Hw) in Hw'.
      destruct (decide (word_id = key)) as [<-|Hne].
      * rewrite lookup_insert_eq in Hw'. injection Hw' as <-. cbn [timesShown].
        rewrite bool_decide_eq_true_2 by done. cbn [app List.length].
        rewrite (Hcount _ _ Hw). lia.
      * rewrite lookup_insert_ne in Hw' by done.
        rewrite bool_decide_eq_false_2 by done. by apply Hcount.
    + destruct (decide (word_id = key)) as [<-|Hne]; [congruence|].
      rewrite bool_decide_eq_false_2 by done. by apply Hcount.
  - intros key m' Hcall.
    destruct (removeWord_stores m d key Hdb Hok) as (d' & Hcall' & Hv & Ho & _).
    rewrite Hcall' in Hcall. injection Hcall as <-. intros ? [= <-] k w Hw.
    rewrite Hv in Hw. apply lookup_delete_Some in Hw as [Hne Hw].
    rewrite (Hcount _ _ Hw). f_equal. symmetry.
    apply occurrencesByWordId_subseteq.
    + apply map_subseteq_spec. intros k' o Hk'. rewrite Ho in Hk'.
      destruct (occurrencesStore d !! k') as [o'|]; [|done].
      destruct (eqb (wordId o') key); [done|]. done.
    + intros k' o Hk' Hnone. rewrite Ho, Hk' in Hnone. unfold eqb in Hnone.
      destruct (bool_decide_reflect (wordId o = key)); [congruence|done].
Qed.

(** *** Listings and statistics *)

Lemma StronglySorted_app_inv {A : Type} (R : A -> A -> Prop) (l1 l2 : list A) x y :
  StronglySorted R (l1 ++ l2) -> In x l1 -> In y l2 -> R x y.
Proof.
  induction l1 as [|z l1 IH]; cbn [app]; intros Hs Hx Hy; [done|].
  apply StronglySorted_inv in Hs as [Hl Hz]. destruct Hx as [->|Hx].
  - rewrite List.Forall_forall in Hz. apply Hz, in_or_app. by right.
  - by apply IH.
Qed.

Lemma In_firstn {A : Type} (l : list A) x n : In x (firstn n l) -> In x l.
Proof.
  revert n. induction l as [|z l IH]; intros [|n]; cbn [firstn]; try done.
  intros [->|Hx]; [by left|right; by apply (IH n)].
Qed.

Lemma StronglySorted_firstn {A : Type} (R : A -> A -> Prop) (l : list A) n :
  StronglySorted R l -> StronglySorted R (firstn n l).
Proof.
  revert n. induction l as [|z l IH]; intros [|n] Hs; cbn [firstn]; try constructor.
  - apply IH. by apply StronglySorted_inv in Hs as [Hl _].
  - apply StronglySorted_inv in Hs as [_ Hz]. rewrite List.Forall_forall in *.
    intros x Hx. apply Hz. by apply (In_firstn l x n).
Qed.

Lemma StronglySorted_weaken {A : Type} (R R' : A -> A -> Prop) (l : list A) :
  (forall a b, R a b -> R' a b) -> StronglySorted R l -> StronglySorted R' l.
Proof.
  intros Himp. induction 1 as [|x l _ IH Hx]; constructor; [done|].
  eapply Forall_impl; [exact Hx|]. intros y. apply Himp.
Qed.

Section Top.
Context {A : Type} (ahead : A -> A -> bool).
Context (ahead_total : forall a b, ahead a b = true \/ ahead b a = true).
Context (ahead_trans : forall a b c, ahead a b = true -> ahead b c = true -> ahead a c = true).

(** [l.sort(compare).slice(0, n)]: the [n] elements of [l] that the
    order puts first. *)
Lemma top_spec (n : nat) (l : list A) :
  List.length (firstn n (stableSort ahead l)) = n `min` List.length l /\
  (forall x, In x (firstn n (stableSort ahead l)) -> In x l) /\
  StronglySorted (fun a b => ahead a b = true) (firstn n (stableSort ahead l)) /\
  (forall x y, In x (firstn n (stableSort ahead l)) -> In y l ->
               ~ In y (firstn n (stableSort ahead l)) -> ahead x y = true).
Proof using ahead_total ahead_trans.
  pose proof (stableSort_sorted ahead ahead_total ahead_trans l) as Hs.
  pose proof (stableSort_Permutation ahead l) as Hp.
  split_and!.
  - by rewrite length_firstn, Hp.
  - intros x Hx. apply list_elem_of_In. rewrite <- Hp. apply list_elem_of_In.
    by apply (In_firstn _ x n).
  - by apply StronglySorted_firstn.
  - intros x y Hx Hy Hout.
    rewrite <- (firstn_skipn n (stableSort ahead l)) in Hs.
    apply (StronglySorted_app_inv _ _ _ x y Hs Hx).
    apply list_elem_of_In in Hy. rewrite <- Hp in Hy. apply list_elem_of_In in Hy.
    rewrite <- (firstn_skipn n (stableSort ahead l)) in Hy.
    apply in_app_or in Hy as [Hy|Hy]; [by destruct Hout|done].
Qed.

End Top.

(** X5. [getStatistics] on an open database returns; the totals are the
    sizes of the two stores; [mostSeenWords] pairs each listed word with
    its own [timesShown], lists at most ten words (ten when there are as
    many), all of the vocabulary, in descending order of [timesShown],
    and no word left out has been shown more often than a listed one;
    [recentActivity] lists at most twenty occurrences of the store, the
    newest first, and none left out is newer than a listed one. *)
Theorem getStatistics_top (m : DatabaseManager) (d : Stores) :
  db m = Some d ->
  exists st words,
    getStatistics m = Returns st /\
    totalWords st = size (vocabularyStore d) /\
    totalOccurrences st = size (occurrencesStore d) /\
    mostSeenWords st = List.map (fun w => (w, timesShown w)) words /\
    List.length words = 10 `min` size (vocabularyStore d) /\
    (forall w, In w words -> exists key, vocabularyStore d !! key = Some w) /\
    StronglySorted (fun a b => (timesShown b <= timesShown a)%N) words /\
    (forall key w w', vocabularyStore d !! key = Some w -> ~ In w words ->
                      In w' words -> (timesShown w <= timesShown w')%N) /\
    List.length (recentActivity st) = 20 `min` size (occurrencesStore d) /\
    (forall o, In o (recentActivity st) -> exists key, occurrencesStore d !! key = Some o) /\
    StronglySorted (fun a b => (timestamp b <= timestamp a)%Z) (recentActivity st) /\
    (forall key o o', occurrencesStore d !! key = Some o -> ~ In o (recentActivity st) ->
                      In o' (recentActivity st) -> (timestamp o <= timestamp o')%Z).
Proof.
  intros Hdb. unfold getStatistics. rewrite Hdb. eexists. eexists.
  split; [done|]. cbn [totalWords totalOccurrences mostSeenWords recentActivity].
  destruct (top_spec (fun a b : VocabularyWord => (timesShown b <=? timesShown a)%N))
    with (n := 10) (l := getAll (vocabularyStore d)) as (Hlen & Hin & Hsort & Htop).
  { intros a b. rewrite !N.leb_le. lia. }
  { intros a b c. rewrite !N.leb_le. lia. }
  destruct (top_spec (fun a b : WordOccurrence => (timestamp b <=? timestamp a)%Z))
    with (n := 20) (l := getAll (occurrencesStore d)) as (Hlen' & Hin' & Hsort' & Htop').
  { intros a b. rewrite !Z.leb_le. lia. }
  { intros a b c. rewrite !Z.leb_le. lia. }
  rewrite getAll_length in Hlen. rewrite getAll_length in Hlen'.
  split_and!; try done.
  - apply getAll_length.
  - apply getAll_length.
  - intros w Hw. by apply getAll_In, Hin.
  - eapply StronglySorted_weaken; [|exact Hsort]. intros a b. apply N.leb_le.
  - intros key w w' Hw Hout Hw'. apply N.leb_le, Htop; [done| |done].
    apply getAll_In. eauto.
  - intros o Ho. by apply getAll_In, Hin'.
  - eapply StronglySorted_weaken; [|exact Hsort']. intros a b. apply Z.leb_le.
  - intros key o o' Ho Hout Ho'. apply Z.leb_le, Htop'; [done| |done].
    apply getAll_In. eauto.
Qed.

(** *** Looking a word up *)

Section Lookup.
Context {L : LowerCase}.

(** X6. [getWordByEnglish] on an open database returns a word of the
    vocabulary whose [english] is the lower-cased query, and returns
    [undefined] exactly when the vocabulary has no such word. *)
Theorem getWordByEnglish_finds (m : DatabaseManager) (d : Stores) (query : jsstring) :
  db m = Some d ->
  exists r,
    getWordByEnglish m query = Returns r /\
    (forall w, r = Some w ->
               english w = toLowerCase query /\
               exists key, vocabularyStore d !! key = Some w) /\
    (r = None <->
     forall key w, vocabularyStore d !! key = Some w -> english w <> toLowerCase query).
Proof.
  intros Hdb. unfold getWordByEnglish. rewrite Hdb. eexists. split; [done|].
  set (words := List.filter _ _).
  assert (forall w, In w words <->
                    (exists key, vocabularyStore d !! key = Some w) /\
                    english w = toLowerCase query) as Hwords.
  { intros w. unfold words. rewrite filter_In, getAll_In. unfold eqb.
    by rewrite bool_decide_eq_true. }
  split.
  - intros w Hw. destruct words as [|w' l]; [done|]. injection Hw as ->.
    destruct (proj1 (Hwords w)) as [Hk He]; [by left|done].
  - split.
    + intros Hnone key w Hw He. destruct words as [|w' l] eqn:Hl; [|done].
      apply (proj2 (Hwords w)). eauto.
    + intros Hno. destruct words as [|w l]; [done|].
      destruct (proj1 (Hwords w)) as [[key Hk] He]; [by left|].
      by destruct (Hno key w).
Qed.

(** X7. The index is read with the lower-cased query but holds the words
    as they were stored: a word whose [english] has a capital letter
    [A-Z] is returned for no query. *)
Theorem getWordByEnglish_misses_capitals
    (m : DatabaseManager) (w : VocabularyWord) (c : N) (query : jsstring) :
  In c (english w) ->
  isUpper c = true ->
  getWordByEnglish m query <> Returns (Some w).
Proof.
  intros Hc Hup Hcall. unfold getWordByEnglish in Hcall.
  destruct (db m) as [d|]; [|done]. injection Hcall as Hhead.
  destruct (List.filter _ _) as [|w' l] eqn:Hl; [done|]. injection Hhead as ->.
  assert (In w (w :: l)) as Hin by (by left). rewrite <- Hl in Hin.
  apply filter_In in Hin as [_ He]. unfold eqb in He.
  apply bool_decide_eq_true in He. rewrite He in Hc.
  apply toLowerCase_no_upper in Hc. congruence.
Qed.

End Lookup.

(** *** Opening the database and the settings *)

(** X8. Opening the database always succeeds and leaves settings that
    [getSettings] returns: the stored ones when the browser holds any,
    the defaults otherwise; the vocabulary and the occurrences are the
    persisted ones, empty at the first opening. *)
Theorem initializeDatabase_settings (persisted : option Stores) :
  exists d,
    initializeDatabase persisted = Returns {| db := Some d |} /\
    getSettings {| db := Some d |}
    = Returns (Some (default defaultSettings
                       (persisted ≫= fun p => settingsStore p !! userSettingsKey))) /\
    vocabularyStore d = from_option vocabularyStore ∅ persisted /\
    occurrencesStore d = from_option occurrencesStore ∅ persisted /\
    (forall key, key <> userSettingsKey ->
                 settingsStore d !! key = from_option settingsStore ∅ persisted !! key).
Proof.
  unfold initializeDatabase, initializeDefaultSettings, getSettings, updateSettings.
  cbn [db]. destruct persisted as [p|]; cbn [default option_bind mbind from_option Datatypes.id].
  - destruct (settingsStore p !! userSettingsKey) as [s|] eqn:Hs.
    + exists p. by rewrite Hs.
    + eexists. split; [done|]. cbn [settingsStore vocabularyStore occurrencesStore].
      rewrite lookup_insert_eq. split_and!; try done.
      intros key Hne. by rewrite lookup_insert_ne.
  - cbn [settingsStore]. rewrite lookup_empty. eexists. split; [done|].
    cbn [settingsStore vocabularyStore occurrencesStore].
    rewrite lookup_insert_eq. split_and!; try done.
    intros key Hne. by rewrite lookup_insert_ne.
Qed.

(** *** The vocabulary *)

Lemma NoDup_map_snd_keyed {A : Type} (f : A -> jsstring) (l : list (jsstring * A)) :
  NoDup l.*1 -> (forall k x, (k, x) ∈ l -> f x = k) -> NoDup (List.map f (List.map snd l)).
Proof.
  intros Hnd Hkey. rewrite List.map_map.
  replace (List.map (fun x => f x.2) l) with l.*1; [done|].
  apply map_ext_in. intros [k x] Hin. symmetry. apply (Hkey k x). by apply list_elem_of_In.
Qed.

(** X9. [getVocabulary] on an open database keyed by id lists every
    stored word, and nothing else, once: the ids of the list are
    pairwise distinct and its length is the size of the store. *)
Theorem getVocabulary_lists_each_word_once (m : DatabaseManager) (d : Stores) :
  db m = Some d ->
  vocabularyKeyed d ->
  exists l,
    getVocabulary m = Returns l /\
    (forall w, In w l <-> vocabularyStore d !! id w = Some w) /\
    NoDup (List.map id l) /\
    List.length l = size (vocabularyStore d).
Proof.
  intros Hdb Hkeyed. unfold getVocabulary. rewrite Hdb. eexists. split; [done|].
  split_and!.
  - intros w. rewrite getAll_In. split; [|by eauto].
    intros [key Hk]. by rewrite (Hkeyed _ _ Hk).
  - unfold getAll. apply NoDup_map_snd_keyed.
    + rewrite stableSort_Permutation. apply NoDup_fst_map_to_list.
    + intros k x. rewrite stableSort_Permutation, elem_of_map_to_list. apply Hkeyed.
  - apply getAll_length.
Qed.

(** X10. [addWord] on an open database with an id that no word has yet
    returns the word it stored, with that id, the date read and a counter
    of zero; [getVocabulary] then lists this word and the words it listed
    before, and [getWordOccurrences] of every id is as before. *)
Theorem addWord_then_getVocabulary
    (m : DatabaseManager) (d : Stores) (uuid : jsstring) (now : Z) (w : NewWord) :
  db m = Some d ->
  vocabularyStore d !! uuid = None ->
  exists m' stored,
    addWord m uuid now w = Returns (m', stored) /\
    id stored = uuid /\ dateAdded stored = now /\ timesShown stored = 0%N /\
    english stored = new_english w /\ hebrew stored = new_hebrew w /\
    (exists l l', getVocabulary m = Returns l /\ getVocabulary m' = Returns l' /\
                  l' ≡ₚ stored :: l) /\
    (forall key, getWordOccurrences m' key = getWordOccurrences m key).
Proof.
  intros Hdb Hfresh. unfold addWord. rewrite Hdb, Hfresh. eexists. eexists.
  split; [done|]. cbn [id dateAdded timesShown english hebrew]. split_and!; try done.
  - unfold getVocabulary. rewrite Hdb. cbn [db]. eexists. eexists.
    split; [done|]. split; [done|].
    cbn [putVocabulary vocabularyStore id]. by apply getAll_insert.
  - intros key. unfold getWordOccurrences. by rewrite Hdb.
Qed.

(** *** The database on examples *)

(** X1 on the database that is opened and given the word ["Hello"]. *)
Lemma database_keeps_records_under_their_id_example : wellKeyedManager capitalManager.
Proof.
  apply (database_keeps_records_under_their_id openedManager capitalManager).
  - vm_compute. reflexivity.
  - eapply rtc_l; [|apply rtc_refl].
    apply (writes_addWord openedManager (str "9") 7 capitalHello capitalManager capitalWord).
    vm_compute. reflexivity.
Defined.


(** X3 on the example database. *)
Lemma removeWord_twice_example :
  getWordOccurrences
    {| db := Some {| vocabularyStore := ∅;
                     occurrencesStore :=
                       {[ str "b" := exampleOccurrence (str "b") (str "7") ]};
                     settingsStore := settingsStore exampleStores |} |} (str "1")
  = Returns [] /\
  removeWord
    {| db := Some {| vocabularyStore := ∅;
                     occurrencesStore :=
                       {[ str "b" := exampleOccurrence (str "b") (str "7") ]};
                     settingsStore := settingsStore exampleStores |} |} (str "1")
  = Returns
    {| db := Some {| vocabularyStore := ∅;
                     occurrencesStore :=
                       {[ str "b" := exampleOccurrence (str "b") (str "7") ]};
                     settingsStore := settingsStore exampleStores |} |}.
Proof.
  apply (removeWord_twice {| db := Some exampleStores |} _ exampleStores (str "1")).
  - reflexivity.
  - by apply (bool_decide_unpack _).
  - vm_compute. reflexivity.
Defined.

(** X4 on a database whose counter is right: two occurrences of
    ["hello"], shown twice. *)
Lemma counter_agrees_with_record_example :
  (forall uuid now later word_id page ctx m',
      recordOccurrence {| db := Some countedStores |} uuid now later word_id page ctx
      = Returns m' ->
      countsAgreeManager m') /\
  (forall key m', removeWord {| db := Some countedStores |} key = Returns m' ->
                  countsAgreeManager m').
Proof.
  apply (counter_agrees_with_record {| db := Some countedStores |} countedStores).
  - reflexivity.
  - split; by apply (bool_decide_unpack _).
  - by apply (bool_decide_unpack _).
Defined.

(** X5 on the example database. *)
Lemma getStatistics_top_example :
  exists st words,
    getStatistics {| db := Some exampleStores |} = Returns st /\
    totalWords st = size (vocabularyStore exampleStores) /\
    totalOccurrences st = size (occurrencesStore exampleStores) /\
    mostSeenWords st = List.map (fun w => (w, timesShown w)) words /\
    List.length words = 10 `min` size (vocabularyStore exampleStores) /\
    (forall w, In w words -> exists key, vocabularyStore exampleStores !! key = Some w) /\
    StronglySorted (fun a b => (timesShown b <= timesShown a)%N) words /\
    (forall key w w', vocabularyStore exampleStores !! key = Some w -> ~ In w words ->
                      In w' words -> (timesShown w <= timesShown w')%N) /\
    List.length (recentActivity st) = 20 `min` size (occurrencesStore exampleStores) /\
    (forall o, In o (recentActivity st) ->
               exists key, occurrencesStore exampleStores !! key = Some o) /\
    StronglySorted (fun a b => (timestamp b <= timestamp a)%Z) (recentActivity st) /\
    (forall key o o', occurrencesStore exampleStores !! key = Some o ->
                      ~ In o (recentActivity st) ->
                      In o' (recentActivity st) -> (timestamp o <= timestamp o')%Z).
Proof.
  apply (getStatistics_top {| db := Some exampleStores |} exampleStores). reflexivity.
Defined.

(** X6 on the example database, asked for ["HELLO"]. *)
Lemma getWordByEnglish_finds_example :
  exists r,
    getWordByEnglish {| db := Some exampleStores |} (str "HELLO") = Returns r /\
    (forall w, r = Some w ->
               english w = toLowerCase (str "HELLO") /\
               exists key, vocabularyStore exampleStores !! key = Some w) /\
    (r = None <->
     forall key w, vocabularyStore exampleStores !! key = Some w ->
                   english w <> toLowerCase (str "HELLO")).
Proof.
  apply (getWordByEnglish_finds {| db := Some exampleStores |} exampleStores (str "HELLO")).
  reflexivity.
Defined.

(** X7 on the word ["Hello"], stored with its capital and asked for as
    it was stored. *)
Lemma getWordByEnglish_misses_capitals_example :
  getWordByEnglish capitalManager (str "Hello") <> Returns (Some capitalWord).
Proof.
  apply (getWordByEnglish_misses_capitals capitalManager capitalWord 72 (str "Hello")).
  - vm_compute. by left.
  - reflexivity.
Defined.

(** X9 on the example database. *)
Lemma getVocabulary_lists_each_word_once_example :
  exists l,
    getVocabulary {| db := Some exampleStores |} = Returns l /\
    (forall w, In w l <-> vocabularyStore exampleStores !! id w = Some w) /\
    NoDup (List.map id l) /\
    List.length l = size (vocabularyStore exampleStores).
Proof.
  apply (getVocabulary_lists_each_word_once {| db := Some exampleStores |} exampleStores).
  - reflexivity.
  - by apply (bool_decide_unpack _).
Defined.

(** X10 on the database that has just been opened. *)
Lemma addWord_then_getVocabulary_example :
  exists m' stored,
    addWord openedManager (str "9") 7 capitalHello = Returns (m', stored) /\
    id stored = str "9" /\ dateAdded stored = 7%Z /\ timesShown stored = 0%N /\
    english stored = new_english capitalHello /\ hebrew stored = new_hebrew capitalHello /\
    (exists l l', getVocabulary openedManager = Returns l /\
                  getVocabulary m' = Returns l' /\
                  l' ≡ₚ stored :: l) /\
    (forall key, getWordOccurrences m' key = getWordOccurrences openedManager key).
Proof.
  apply (addWord_then_getVocabulary openedManager
           {| vocabularyStore := ∅; occurrencesStore := ∅;
              settingsStore := {[ userSettingsKey := defaultSettings ]} |}).
  - reflexivity.
  - reflexivity.
Defined.

(** *** [trim], [startsWith] and [endsWith] *)

Lemma trimStart_split s :
  exists pre, s = pre ++ trimStart s /\ forallb isWhiteSpace pre = true.
Proof.
  induction s as [|c s (pre & Hs & Hpre)]; cbn [trimStart]; [by exists []|].
  destruct (isWhiteSpace c) eqn:Hc; [|by exists []].
  exists (c :: pre). cbn [app forallb]. rewrite Hc, Hpre. split; [by f_equal|done].
Qed.

Lemma trimStart_head s c : head (trimStart s) = Some c -> isWhiteSpace c = false.
Proof.
  induction s as [|d s IH]; cbn [trimStart]; [done|].
  destruct (isWhiteSpace d) eqn:Hd; [done|]. cbn. by intros [= <-].
Qed.

Lemma trimEnd_split s :
  exists post, s = trimEnd s ++ post /\ forallb isWhiteSpace post = true.
Proof.
  unfold trimEnd. destruct (trimStart_split (rev s)) as (pre & Hs & Hpre).
  exists (rev pre). split.
  - rewrite <- rev_app_distr, <- Hs. by rewrite rev_involutive.
  - apply forallb_forall. intros c Hc%in_rev.
    by apply (proj1 (forallb_forall _ _) Hpre).
Qed.

Lemma last_rev_head {A : Type} (l : list A) : last (rev l) = head l.
Proof. destruct l as [|x l]; [done|]. cbn [rev]. by rewrite last_snoc. Qed.

Lemma trimEnd_last s c : last (trimEnd s) = Some c -> isWhiteSpace c = false.
Proof. unfold trimEnd. rewrite last_rev_head. apply trimStart_head. Qed.

Lemma trimEnd_head s c :
  head s = Some c -> isWhiteSpace c = false -> head (trimEnd s) = Some c.
Proof.
  intros Hh Hc. destruct (trimEnd_split s) as (post & Hs & Hpost).
  destruct (trimEnd s) as [|d t].
  - cbn [app] in Hs. subst post. destruct s as [|d s]; [done|].
    injection Hh as ->. cbn [forallb] in Hpost. by rewrite Hc in Hpost.
  - rewrite Hs in Hh. done.
Qed.

(** What [trim] returns is the string without a prefix and a suffix of
    white space, and neither begins nor ends with white space. *)
Lemma trim_split s :
  exists pre post,
    s = pre ++ trim s ++ post /\
    forallb isWhiteSpace pre = true /\ forallb isWhiteSpace post = true.
Proof.
  unfold trim. destruct (trimStart_split s) as (pre & Hs & Hpre).
  destruct (trimEnd_split (trimStart s)) as (post & Ht & Hpost).
  exists pre, post. by rewrite <- Ht.
Qed.

Lemma trim_ends s c :
  (head (trim s) = Some c -> isWhiteSpace c = false) /\
  (last (trim s) = Some c -> isWhiteSpace c = false).
Proof.
  unfold trim. split; [|apply trimEnd_last].
  destruct (trimStart s) as [|d t] eqn:Ht; [done|].
  assert (isWhiteSpace d = false) as Hd by (apply (trimStart_head s); by rewrite Ht).
  rewrite (trimEnd_head (d :: t) d) by done. by intros [= <-].
Qed.

Lemma startsWith_spec s prefix :
  startsWith s prefix = true <-> exists rest, s = prefix ++ rest.
Proof.
  revert s. induction prefix as [|p prefix IH]; intros s.
  { split; [by exists s|by destruct s]. }
  destruct s as [|c s]; cbn [startsWith].
  { split; [done|]. by intros [rest H]. }
  rewrite andb_true_iff, N.eqb_eq, IH. split.
  - intros [-> [rest ->]]. by exists rest.
  - intros [rest [= -> ->]]. eauto.
Qed.

Lemma endsWith_spec s suffix :
  endsWith s suffix = true <-> exists front, s = front ++ suffix.
Proof.
  unfold endsWith. rewrite startsWith_spec. split.
  - intros [rest H]. exists (rev rest).
    by rewrite <- (rev_involutive s), H, rev_app_distr, rev_involutive.
  - intros [front ->]. exists (rev front). by rewrite rev_app_distr.
Qed.

(** *** [extractContext] *)

Lemma firstn_skipn_infix {A : Type} (l : list A) p q :
  exists pre post, l = pre ++ firstn q (skipn p l) ++ post.
Proof.
  exists (firstn p l), (skipn q (skipn p l)).
  by rewrite firstn_skipn, firstn_skipn.
Qed.

(** X11. [extractContext], for a position and a length with
    [0 <= wordIndex + wordLength + 50] (the end of the window is then no
    negative index, which [slice] would count from the end): the context
    is a piece of the text, of at most [wordLength + 100] code units,
    that neither begins nor ends with white space. *)
Theorem extractContext_window (text : jsstring) (wordIndex wordLength : Z) :
  (0 <= wordIndex + wordLength + 50)%Z ->
  (exists pre post, text = pre ++ extractContext text wordIndex wordLength ++ post) /\
  (Z.of_nat (List.length (extractContext text wordIndex wordLength))
   <= Z.max 0 (wordLength + 100))%Z /\
  (forall c, head (extractContext text wordIndex wordLength) = Some c ->
             isWhiteSpace c = false) /\
  (forall c, last (extractContext text wordIndex wordLength) = Some c ->
             isWhiteSpace c = false).
Proof.
  intros Hend. unfold extractContext, slice.
  set (start := Z.max 0 (wordIndex - 50)).
  set (stop := Z.min (Z.of_nat (List.length text)) (wordIndex + wordLength + 50)).
  set (window := firstn (Z.to_nat (stop - start)) (skipn (Z.to_nat start) text)).
  destruct (trim_split window) as (pre & post & Hw & _).
  split_and!.
  - destruct (firstn_skipn_infix text (Z.to_nat start) (Z.to_nat (stop - start)))
      as (pre' & post' & Ht).
    fold window in Ht. rewrite Hw in Ht.
    exists (pre' ++ pre), (post ++ post'). by rewrite Ht, <- !app_assoc.
  - assert (List.length (trim window) <= List.length window) as Hle.
    { rewrite Hw at 2. rewrite !length_app. lia. }
    assert (List.length window <= Z.to_nat (stop - start)) as Hle'.
    { unfold window. rewrite length_firstn. lia. }
    lia.
  - intros c. apply trim_ends.
  - intros c. apply trim_ends.
Qed.

Lemma firstn_add_app {A : Type} (l : list A) p q :
  firstn (p + q) l = firstn p l ++ firstn q (skipn p l).
Proof.
  revert l. induction p as [|p IH]; intros l; [done|].
  destruct l as [|x l]; cbn [Nat.add firstn skipn app]; [by rewrite firstn_nil|].
  by rewrite IH.
Qed.

Lemma trimStart_keeps a w b c :
  head w = Some c -> isWhiteSpace c = false ->
  exists a', trimStart (a ++ w ++ b) = a' ++ w ++ b /\ List.length a' <= List.length a.
Proof.
  intros Hw Hc. induction a as [|d a (a' & IH & Hlen)]; cbn [app].
  - exists []. split; [|done]. destruct w as [|d w]; [done|].
    injection Hw as ->. cbn [app trimStart]. by rewrite Hc.
  - cbn [trimStart]. destruct (isWhiteSpace d).
    + exists a'. split; [done|]. cbn [List.length]. lia.
    + by exists (d :: a).
Qed.

Lemma trimEnd_keeps a w b c :
  last w = Some c -> isWhiteSpace c = false ->
  exists b', trimEnd (a ++ w ++ b) = a ++ w ++ b' /\ List.length b' <= List.length b.
Proof.
  intros Hw Hc. unfold trimEnd.
  destruct (trimStart_keeps (rev b) (rev w) (rev a) c) as (b' & Ht & Hlen).
  { rewrite <- last_rev_head, rev_involutive. done. }
  { done. }
  exists (rev b'). split.
  - rewrite !rev_app_distr, <- app_assoc, Ht.
    by rewrite !rev_app_distr, !rev_involutive, <- app_assoc.
  - rewrite length_rev. by rewrite length_rev in Hlen.
Qed.

(** X12. A word that lies in the text and neither begins nor ends with
    white space is part of its context, with at most 50 code units of
    the text before it and at most 50 after it. *)
Theorem extractContext_contains_word
    (text : jsstring) (wordIndex wordLength : Z) (first final : N) :
  (0 <= wordIndex)%Z ->
  (wordIndex + wordLength <= Z.of_nat (List.length text))%Z ->
  head (slice text wordIndex (wordIndex + wordLength)) = Some first ->
  last (slice text wordIndex (wordIndex + wordLength)) = Some final ->
  isWhiteSpace first = false ->
  isWhiteSpace final = false ->
  exists before after,
    extractContext text wordIndex wordLength
    = before ++ slice text wordIndex (wordIndex + wordLength) ++ after /\
    List.length before <= 50 /\ List.length after <= 50.
Proof.
  intros Hi Hlen Hfirst Hfinal Hf Hl. unfold extractContext.
  set (start := Z.max 0 (wordIndex - 50)).
  set (stop := Z.min (Z.of_nat (List.length text)) (wordIndex + wordLength + 50)).
  assert (0 < wordLength)%Z as Hn.
  { unfold slice in Hfirst. destruct (Z.to_nat (wordIndex + wordLength - wordIndex)) eqn:Hz;
      [done|lia]. }
  set (a := Z.to_nat (wordIndex - start)).
  set (n := Z.to_nat wordLength).
  set (b := Z.to_nat (stop - (wordIndex + wordLength))).
  assert (slice text start stop
          = firstn a (skipn (Z.to_nat start) text)
            ++ slice text wordIndex (wordIndex + wordLength)
            ++ firstn b (skipn (Z.to_nat (wordIndex + wordLength)) text)) as Hwin.
  { unfold slice.
    replace (Z.to_nat (stop - start)) with (a + (n + b)) by lia.
    replace (Z.to_nat (wordIndex + wordLength - wordIndex)) with n by lia.
    rewrite !firstn_add_app, !skipn_skipn. repeat f_equal; lia. }
  rewrite Hwin. unfold trim.
  destruct (trimStart_keeps (firstn a (skipn (Z.to_nat start) text))
              (slice text wordIndex (wordIndex + wordLength))
              (firstn b (skipn (Z.to_nat (wordIndex + wordLength)) text)) first)
    as (a' & -> & Ha'); [done..|].
  destruct (trimEnd_keeps a' (slice text wordIndex (wordIndex + wordLength))
              (firstn b (skipn (Z.to_nat (wordIndex + wordLength)) text)) final)
    as (b' & -> & Hb'); [done..|].
  exists a', b'. split; [done|]. rewrite length_firstn in Ha', Hb'. lia.
Qed.

(** *** [isDomainExcluded] *)

Section Excluded.
Context {U : UrlParser}.

(** X13. For a location that parses, [isDomainExcluded] returns true
    exactly when the host is a listed domain or ends with a dot followed
    by a listed domain: a sub-domain of a listed domain is excluded, a
    host that only ends with the letters of one is not. *)
Theorem isDomainExcluded_spec (url host : jsstring) (excluded : list jsstring) :
  URL_hostname url = Some host ->
  isDomainExcluded url excluded = true
  <-> exists domain,
        In domain excluded /\
        (host = domain \/ exists sub, host = sub ++ str "." ++ domain).
Proof.
  intros Hurl. unfold isDomainExcluded. rewrite Hurl, existsb_exists.
  split; intros (domain & Hin & H); exists domain; (split; [done|]).
  - apply orb_true_iff in H as [H|H]; [left; by apply eqb_eq|right].
    by apply endsWith_spec.
  - apply orb_true_iff. destruct H as [->|H]; [left; by apply eqb_eq|right].
    by apply endsWith_spec.
Qed.

End Excluded.

(** X11 on a text of the tests. *)
Lemma extractContext_window_example :
  (exists pre post,
      str "This is a long text with many words in it"
      = pre ++ extractContext (str "This is a long text with many words in it") 10 4
            ++ post) /\
  (Z.of_nat (List.length
               (extractContext (str "This is a long text with many words in it") 10 4))
   <= Z.max 0 (4 + 100))%Z /\
  (forall c, head (extractContext (str "This is a long text with many words in it") 10 4)
             = Some c -> isWhiteSpace c = false) /\
  (forall c, last (extractContext (str "This is a long text with many words in it") 10 4)
             = Some c -> isWhiteSpace c = false).
Proof.
  apply (extractContext_window (str "This is a long text with many words in it") 10 4).
  lia.
Defined.

(** X12 on the word ["long"] of that text. *)
Lemma extractContext_contains_word_example :
  exists before after,
    extractContext (str "This is a long text with many words in it") 10 4
    = before ++ slice (str "This is a long text with many words in it") 10 (10 + 4)
             ++ after /\
    List.length before <= 50 /\ List.length after <= 50.
Proof.
  apply (extractContext_contains_word
           (str "This is a long text with many words in it") 10 4 108 103).
  - lia.
  - vm_compute. discriminate.
  - reflexivity.
  - reflexivity.
  - reflexivity.
  - reflexivity.
Defined.

(** X13 on a page of [sub.example.com]. *)
Lemma isDomainExcluded_spec_example :
  isDomainExcluded (str "https://sub.example.com/page") [str "example.com"] = true
  <-> exists domain,
        In domain [str "example.com"] /\
        (str "sub.example.com" = domain
         \/ exists sub, str "sub.example.com" = sub ++ str "." ++ domain).
Proof.
  apply (isDomainExcluded_spec (str "https://sub.example.com/page")
           (str "sub.example.com") [str "example.com"]).
  reflexivity.
Defined.

(** *** [debounce] and [throttle] *)

Section TimingFacts.
Context {Args : Type}.

Lemma debounced_oneWaiting (args : Args) d :
  oneWaiting d ->
  waiting (debounced args d) = {[ nextHandle d := args ]} /\
  oneWaiting (debounced args d).
Proof.
  intros Hone. unfold debounced.
  assert (match timeout d with Some t => delete t (waiting d) | None => waiting d end = ∅)
    as ->.
  { apply map_empty. intros t. destruct (timeout d) as [t0|] eqn:Ht.
    - destruct (decide (t0 = t)) as [<-|Hne]; [apply lookup_delete_eq|].
      rewrite lookup_delete_ne by done.
      destruct (waiting d !! t) as [a|] eqn:Hw; [|done].
      specialize (Hone _ _ Hw). cbn in Hone. congruence.
    - destruct (waiting d !! t) as [a|] eqn:Hw; [|done].
      specialize (Hone _ _ Hw). cbn in Hone. congruence. }
  cbn. split; [done|]. intros t a. cbn. by intros [<- _]%lookup_singleton_Some.
Qed.

Lemma debounceTimer_oneWaiting t (d : Debounced Args) :
  oneWaiting d -> oneWaiting (debounceTimer t d).
Proof.
  intros Hone. unfold debounceTimer. destruct (waiting d !! t) as [args|]; [|done].
  intros t' a. cbn. intros [_ Hw]%lookup_delete_Some. by apply (Hone t' a).
Qed.

Lemma debounceStep_run (run : list (Action Args)) :
  forall d,
    oneWaiting d ->
    oneWaiting (fold_left debounceStep run d) /\
    exists last, sublist (invoked (fold_left debounceStep run d))
                         (invoked d ++ last ++ callsOf run) /\
                 (forall t a, waiting d !! t = Some a -> last = [a]) /\
                 (waiting d = ∅ -> last = []).
Proof.
  induction run as [|[args|t] run IH]; intros d Hone; cbn [fold_left debounceStep].
  - split; [done|]. destruct (map_choose_or_empty (waiting d)) as [(t & a & Hw)|Hempty].
    + exists [a]. split_and!.
      * cbn. by apply sublist_inserts_r.
      * intros t' a' Hw'. pose proof (Hone _ _ Hw) as H1. pose proof (Hone _ _ Hw') as H2.
        cbn in H1, H2. congruence.
      * intros He. by rewrite He in Hw.
    + exists []. split_and!; [cbn; by rewrite !app_nil_r| |done].
      intros t a. by rewrite Hempty.
  - destruct (debounced_oneWaiting args d Hone) as [Hw Hone'].
    destruct (IH _ Hone') as (Hone'' & last' & Hsub & Hlast & _). split; [done|].
    assert (last' = [args]) as ->.
    { apply (Hlast (nextHandle d)). rewrite Hw. apply lookup_singleton_eq. }
    destruct (map_choose_or_empty (waiting d)) as [(t & a & Hwd)|Hempty].
    + exists [a]. split_and!.
      * cbn [callsOf flat_map app] in *. etrans; [exact Hsub|].
        cbn [invoked debounced]. apply sublist_app; [done|]. by apply sublist_cons.
      * intros t' a' Hw'. pose proof (Hone _ _ Hwd) as H1. pose proof (Hone _ _ Hw') as H2.
        cbn in H1, H2. congruence.
      * intros He. by rewrite He in Hwd.
    + exists []. split_and!; [exact Hsub| |done]. intros t a. by rewrite Hempty.
  - pose proof (debounceTimer_oneWaiting t d Hone) as Hone'.
    destruct (IH _ Hone') as (Hone'' & last' & Hsub & Hlast & Hnone). split; [done|].
    unfold debounceTimer in *. destruct (waiting d !! t) as [a|] eqn:Hw.
    + exists [a]. cbn [invoked waiting] in *.
      assert (last' = []) as ->.
      { apply Hnone. apply map_empty. intros t'.
        destruct (decide (t = t')) as [<-|Hne]; [apply lookup_delete_eq|].
        rewrite lookup_delete_ne by done.
        destruct (waiting d !! t') as [a'|] eqn:Hw'; [|done].
        pose proof (Hone _ _ Hw) as H1. pose proof (Hone _ _ Hw') as H2.
        cbn in H1, H2. congruence. }
      split_and!.
      * cbn [app callsOf flat_map] in *. by rewrite <- app_assoc in Hsub.
      * intros t' a' Hw'. pose proof (Hone _ _ Hw) as H1. pose proof (Hone _ _ Hw') as H2.
        cbn in H1, H2. assert (t' = t) as -> by congruence. congruence.
      * intros He. by rewrite He in Hw.
    + exists last'. split_and!; done.
Qed.

(** X21. A function made by [debounce]: after a burst of calls with no
    timer firing in between exactly one timer is pending, and when it
    fires [func] is called once, with the arguments of the last call of
    the burst; the calls before it never reach [func]. *)
Theorem debounce_passes_the_last_call
    (d : Debounced Args) (burst : list Args) (last : Args) :
  oneWaiting d ->
  waiting (fold_left debounceStep (List.map Call (burst ++ [last])) d)
  = {[ nextHandle d + List.length burst := last ]} /\
  invoked (fold_left debounceStep (List.map Call (burst ++ [last])) d) = invoked d /\
  invoked (debounceTimer (nextHandle d + List.length burst)
             (fold_left debounceStep (List.map Call (burst ++ [last])) d))
  = invoked d ++ [last] /\
  waiting (debounceTimer (nextHandle d + List.length burst)
             (fold_left debounceStep (List.map Call (burst ++ [last])) d))
  = ∅.
Proof.
  intros Hone.
  assert (forall (l : list Args) d0,
             oneWaiting d0 ->
             oneWaiting (fold_left debounceStep (List.map Call l) d0) /\
             nextHandle (fold_left debounceStep (List.map Call l) d0)
             = nextHandle d0 + List.length l /\
             invoked (fold_left debounceStep (List.map Call l) d0) = invoked d0) as Hburst.
  { induction l as [|a l IHl]; intros d0 Hd0; cbn [List.map fold_left debounceStep].
    - split_and!; [done|cbn; lia|done].
    - destruct (debounced_oneWaiting a d0 Hd0) as [_ Hone'].
      destruct (IHl _ Hone') as (H1 & H2 & H3). split_and!; [done| |done].
      rewrite H2. cbn. lia. }
  rewrite List.map_app, fold_left_app. cbn [List.map fold_left debounceStep].
  destruct (Hburst burst d Hone) as (Hone' & Hnext & Hinv).
  destruct (debounced_oneWaiting last _ Hone') as [Hw _]. rewrite Hnext in Hw.
  split_and!.
  - exact Hw.
  - exact Hinv.
  - unfold debounceTimer. rewrite Hw, lookup_singleton_eq. cbn [invoked debounced].
    by rewrite Hinv.
  - unfold debounceTimer. rewrite Hw, lookup_singleton_eq.
    cbn [waiting]. apply delete_singleton_eq.
Qed.

(** X22. Whatever calls and timer firings a function made by [debounce]
    goes through, [func] is called with arguments of calls only, in the
    order of the calls and each at most once. *)
Theorem debounce_passes_calls_in_order (run : list (Action Args)) :
  sublist (invoked (fold_left debounceStep run debounce)) (callsOf run).
Proof.
  destruct (debounceStep_run run debounce) as (_ & last & Hsub & _ & Hnone).
  { intros t a. cbn. by rewrite lookup_empty. }
  by rewrite (Hnone eq_refl) in Hsub.
Qed.

Lemma throttled_unfold (args : Args) calls throws th :
  throttled args (funcRun calls throws) th
  = if inThrottle th then th
    else
      let th1 :=
        reentrant calls
          {| inThrottle := inThrottle th; resets := resets th;
             passed := passed th ++ [args] |} in
      if throws then th1
      else {| inThrottle := true; resets := S (resets th1); passed := passed th1 |}.
Proof.
  cbn [throttled]. destruct (inThrottle th); [done|]. cbn zeta.
  match goal with |- (if throws then ?a else _) = (if throws then ?b else _) =>
    assert (a = b) as Heq end.
  { generalize ({| inThrottle := false; resets := resets th; passed := passed th ++ [args] |}).
    induction calls as [|[a r] rest IH]; intros th0; [done|]. cbn [reentrant fold_left fst snd].
    apply IH. }
  by rewrite Heq.
Qed.

Lemma throttled_opens (run : FuncRun Args) :
  forall args th, opens th -> opens (throttled args run th).
Proof.
  revert run. fix IH 1. intros [calls throws] args th Hth.
  rewrite throttled_unfold. destruct (inThrottle th) eqn:Hin; [done|]. cbn zeta.
  assert (forall th0, opens th0 -> opens (reentrant calls th0)) as Hcalls.
  { induction calls as [|[a r] rest IHc]; intros th0 H0; [done|].
    cbn [reentrant fold_left fst snd]. apply IHc, IH, H0. }
  destruct throws.
  - apply Hcalls. intros H. cbn in H. congruence.
  - intros _. cbn. lia.
Qed.

Lemma throttleStep_opens (run : list (ThrottleAction Args)) :
  forall th, opens th -> opens (fold_left throttleStep run th).
Proof.
  induction run as [|[args r|] run IH]; intros th Hth; cbn [fold_left throttleStep];
    [done| |].
  - by apply IH, throttled_opens.
  - apply IH. unfold throttleTimer. destruct (resets th); [done|]. intros H. cbn in H.
    congruence.
Qed.

Lemma throttleStep_run (run : list (ThrottleAction Args)) :
  forall th,
    Forall (fun a => funcReturns a = true) run ->
    resets th <= 1 ->
    (inThrottle th = true <-> resets th = 1) ->
    List.length (passed (fold_left throttleStep run th)) + resets th
    <= List.length (passed th) + throttleFirings run + 1 /\
    sublist (passed (fold_left throttleStep run th)) (passed th ++ throttleCalls run) /\
    resets (fold_left throttleStep run th) <= 1.
Proof.
  induction run as [|[args r|] run IH]; intros th Hret Hle Hiff;
    cbn [fold_left throttleStep].
  - split_and!; [cbn; lia|by rewrite app_nil_r|done].
  - apply Forall_cons in Hret as [Hr Hret].
    destruct r as [[|c calls] [|]]; cbn in Hr; try discriminate.
    rewrite throttled_unfold. cbn [reentrant fold_left].
    case_eq (inThrottle th); intros Hin.
    + destruct (IH th Hret Hle Hiff) as (Hlen & Hsub & Hres). split_and!; [exact Hlen| |done].
      etrans; [exact Hsub|]. apply sublist_app; [done|]. by apply sublist_cons.
    + assert (resets th = 0) as H0.
      { destruct (resets th) as [|[|n]] eqn:Hr'; [done| |lia].
        destruct Hiff as [_ Hiff]. specialize (Hiff eq_refl). congruence. }
      clear Hiff. cbn zeta. cbn [passed resets].
      destruct (IH {| inThrottle := true; resets := S (resets th);
                      passed := passed th ++ [args] |} Hret) as (Hlen & Hsub & Hres).
      { cbn. lia. }
      { cbn. rewrite H0. done. }
      cbn [passed resets] in Hlen, Hsub. rewrite length_app in Hlen. cbn in Hlen.
      split_and!; [|by rewrite <- app_assoc in Hsub|done].
      unfold throttleFirings in *. cbn [List.filter]. lia.
  - apply Forall_cons in Hret as [_ Hret].
    unfold throttleTimer. destruct (resets th) as [|n] eqn:Hr.
    + destruct (IH th Hret) as (Hlen & Hsub & Hres); [lia|by rewrite Hr|].
      split_and!; [|done|done]. unfold throttleFirings in *.
      cbn [List.filter List.length]. lia.
    + destruct (IH {| inThrottle := false; resets := n; passed := passed th |} Hret)
        as (Hlen & Hsub & Hres).
      { cbn. lia. }
      { cbn. split; [done|lia]. }
      cbn [passed resets] in Hlen, Hsub. split_and!; [|done|done].
      unfold throttleFirings in *. cbn [List.filter List.length]. lia.
Qed.

Lemma throttled_throwing (calls : list Args) :
  forall th : Throttled Args,
    inThrottle th = false ->
    fold_left throttleStep (List.map (fun args => CallWith args (funcRun [] true)) calls) th
    = {| inThrottle := false; resets := resets th; passed := passed th ++ calls |}.
Proof.
  induction calls as [|args calls IH]; intros th Hin; cbn [List.map fold_left throttleStep].
  - rewrite app_nil_r. destruct th. cbn in *. by subst.
  - rewrite throttled_unfold, Hin. cbn [reentrant fold_left]. cbn zeta.
    rewrite IH by done. cbn [resets passed]. by rewrite <- app_assoc.
Qed.

(** X23. A function made by [throttle], through any calls and timer
    firings.  While [func] returns from every call that reaches it and
    does not call the function in its turn, [func] is called at most
    once more than the timers of the function have fired, with arguments
    of calls only and in the order of the calls, and at most one timer is
    pending.  Whatever [func] does, when [inThrottle] is set a timer is
    pending and a call does not reach [func].  The flag is set after
    [func] has returned: when [func] throws every time, every call
    reaches it, and no timer is armed. *)
Theorem throttle_passes_one_call_per_window (run : list (ThrottleAction Args)) :
  (Forall (fun a => funcReturns a = true) run ->
   List.length (passed (fold_left throttleStep run throttle)) <= throttleFirings run + 1 /\
   sublist (passed (fold_left throttleStep run throttle)) (throttleCalls run) /\
   resets (fold_left throttleStep run throttle) <= 1) /\
  (inThrottle (fold_left throttleStep run throttle) = true ->
   1 <= resets (fold_left throttleStep run throttle) /\
   forall args what,
     throttled args what (fold_left throttleStep run throttle)
     = fold_left throttleStep run throttle) /\
  (forall calls : list Args,
      fold_left throttleStep
        (List.map (fun args => CallWith args (funcRun [] true)) calls) throttle
      = {| inThrottle := false; resets := 0; passed := calls |}).
Proof.
  split_and!.
  - intros Hret.
    destruct (throttleStep_run run throttle Hret) as (Hlen & Hsub & Hres);
      [cbn; lia|done|].
    cbn in Hlen. split_and!; [lia|done|done].
  - intros Hin. split.
    + apply (throttleStep_opens run throttle); [done|exact Hin].
    + intros args [calls throws]. by rewrite throttled_unfold, Hin.
  - intros calls. by rewrite throttled_throwing.
Qed.

End TimingFacts.

(** X23 on a run of three calls with a firing before the third. *)
Lemma throttle_passes_one_call_per_window_example :
  List.length
    (passed (fold_left throttleStep
               [CallWith 1 (funcRun [] false); CallWith 2 (funcRun [] false); Expire;
                CallWith 3 (funcRun [] false)] throttle))
  <= throttleFirings
       [CallWith 1 (funcRun [] false); CallWith 2 (funcRun [] false); Expire;
        CallWith 3 (funcRun [] false)] + 1 /\
  sublist
    (passed (fold_left throttleStep
               [CallWith 1 (funcRun [] false); CallWith 2 (funcRun [] false); Expire;
                CallWith 3 (funcRun [] false)] throttle))
    (throttleCalls
       [CallWith 1 (funcRun [] false); CallWith 2 (funcRun [] false); Expire;
        CallWith 3 (funcRun [] false)]) /\
  resets (fold_left throttleStep
            [CallWith 1 (funcRun [] false); CallWith 2 (funcRun [] false); Expire;
             CallWith 3 (funcRun [] false)] throttle) <= 1.
Proof.
  apply (throttle_passes_one_call_per_window
           [CallWith 1 (funcRun [] false); CallWith 2 (funcRun [] false); Expire;
            CallWith 3 (funcRun [] false)]).
  repeat constructor.
Defined.

(** A [func] that calls the function made by [throttle] in its turn is
    reached by the call within the call, and two timers are armed. *)
Example throttle_reentrant :
  fold_left throttleStep
    [CallWith 1 (funcRun [(2, funcRun [] false)] false)] throttle
  = {| inThrottle := true; resets := 2; passed := [1; 2] |}.
Proof. reflexivity. Qed.

(** *** What a scan leaves alone *)

Section ScanFrame.
Context {L : LowerCase}.

Lemma replaceWords_outside leaf text words :
  forall s newContent hasReplacements,
    outsideScan (loopState (replaceWords leaf text words s newContent hasReplacements))
    = outsideScan s.
Proof.
  induction words as [|word rest IH]; intros s nc h; cbn [replaceWords]; [done|].
  destruct (hasWhiteSpace word); [apply IH|].
  destruct (vocabularyMap s !! normalizeWord word) as [vw|]; [|apply IH].
  destruct (shouldReplaceWord vw (settings s) (rng s)) as [[[] g]|msg]; [| |done].
  - cbn zeta. unfold createReplacement. cbn zeta. by rewrite IH.
  - cbn zeta. by rewrite IH.
Qed.

Lemma processTextNode_outside leaf text s :
  outsideScan (stateOf (processTextNode leaf text s)) = outsideScan s.
Proof.
  unfold processTextNode.
  destruct (bool_decide (text = []) || bool_decide (trim text = [])); [done|].
  destruct (negb (textContainsVocabulary s text)); [done|]. cbn zeta.
  match goal with |- context [replaceWords ?a ?b ?c ?s1 ?nc1 ?h1] =>
    pose proof (replaceWords_outside a b c s1 nc1 h1) as Hf;
    destruct (replaceWords a b c s1 nc1 h1) as [[[s2 nc2] []]|s2] end;
    cbn [loopState] in Hf; cbn [stateOf]; [|done..].
  unfold replaceTextNode. destruct (fragmentOf nc2 (nextNodeId s2)) as [fragment fresh].
  exact Hf.
Qed.

Lemma processTextNodes_outside nodes :
  forall s, outsideScan (stateOf (processTextNodes nodes s)) = outsideScan s.
Proof.
  induction nodes as [|[[leaf text] chain] rest IH]; intros s; cbn [processTextNodes];
    [done|].
  destruct (bool_decide (leaf ∈ processedNodes s)); [apply IH|].
  match goal with |- context [processTextNode leaf text ?s1] =>
    pose proof (processTextNode_outside leaf text s1) as Hf;
    destruct (processTextNode leaf text s1) as [s2|s2|s2] end;
    cbn [stateOf] in *; [by rewrite IH|done..].
Qed.

Lemma processContainer_outside above container s :
  outsideScan (stateOf (processContainer above container s)) = outsideScan s.
Proof.
  unfold processContainer.
  destruct (bool_decide (nodeId container ∈ processedNodes s)); [done|].
  cbn zeta. by rewrite processTextNodes_outside.
Qed.

Lemma processBatch_outside batch :
  forall s, outsideScan (stateOf (processBatch batch s)) = outsideScan s.
Proof.
  induction batch as [|node rest IH]; intros s; cbn [processBatch]; [done|].
  set (o := match locate _ _ _ with Some _ => _ | None => _ end).
  assert (outsideScan (stateOf o) = outsideScan s) as Ho.
  { unfold o. destruct (locate _ _ _) as [[above n]|]; [|done].
    destruct (q_nodeType node =? TEXT_NODE); [apply processTextNode_outside|].
    destruct (q_nodeType node =? ELEMENT_NODE); [apply processContainer_outside|done]. }
  destruct o as [s1|s1|s1]; cbn [stateOf] in *; [by rewrite IH|done..].
Qed.

(** [processPage] writes [isProcessing] as well, and returns. *)
Lemma processPage_outside s :
  exists s',
    processPage s = Completed s' /\
    outsideScan (set_isProcessing false s') = outsideScan (set_isProcessing false s) /\
    (isProcessing s' = isProcessing s \/ isProcessing s' = false).
Proof.
  unfold processPage, enabled. destruct (settings s) as [st|] eqn:Hs.
  2:{ exists s. by split_and!; [| |left]. }
  destruct (negb (isEnabled st) || bool_decide (size (vocabularyMap s) = 0)).
  { exists s. by split_and!; [| |left]. }
  cbn zeta.
  match goal with |- context [processContainer ?a ?c ?s1] =>
    pose proof (processContainer_outside a c s1) as Hf;
    destruct (processContainer_completes st a c s1) as (s2 & Hrun & _); [done|] end.
  rewrite Hrun in Hf |- *. cbn [stateOf] in Hf. eexists. split; [done|]. split; [|by right].
  exact (f_equal (set_isProcessing false) Hf).
Qed.

Lemma processBatch_completes st batch :
  forall s,
    settings s = Some st ->
    exists s', processBatch batch s = Completed s' /\ settings s' = Some st.
Proof.
  induction batch as [|node rest IH]; intros s Hs; cbn [processBatch]; [by exists s|].
  assert (exists s1,
             match locate (q_node node) (bodyAncestors s) (body s) with
             | Some (above, n) =>
               if q_nodeType node =? TEXT_NODE
               then processTextNode (q_node node) (textContent n) s
               else if q_nodeType node =? ELEMENT_NODE
                    then processContainer above n s
                    else Completed s
             | None => Completed s
             end = Completed s1 /\ settings s1 = Some st) as (s1 & -> & Hs1).
  { destruct (locate _ _ _) as [[above n]|]; [|by exists s].
    destruct (q_nodeType node =? TEXT_NODE); [by apply processTextNode_completes|].
    destruct (q_nodeType node =? ELEMENT_NODE); [by apply processContainer_completes|].
    by exists s. }
  by apply IH.
Qed.

(** So does the scan of the queue, which also empties the queue. *)
Lemma processQueue_outside st s :
  settings s = Some st ->
  isProcessing s = false ->
  exists s',
    processQueue s = Completed s' /\
    outsideScan s' = outsideScan (set_processingQueue [] s).
Proof.
  intros Hs Hp. unfold processQueue. rewrite Hp. cbn zeta.
  match goal with |- context [processBatch ?b ?s1] =>
    pose proof (processBatch_outside b s1) as Hf;
    destruct (processBatch_completes st b s1) as (s2 & Hrun & _); [done|] end.
  rewrite Hrun in Hf |- *. cbn [stateOf] in Hf. eexists. split; [done|].
  etrans; [exact (f_equal (set_isProcessing false) Hf)|].
  rewrite <- Hp. reflexivity.
Qed.

End ScanFrame.

(** *** The timers *)

Section Timers.
Context {L : LowerCase} {U : UrlParser}.

Lemma processPage_timerPart s : timerPart (stateOf (processPage s)) = timerPart s.
Proof.
  destruct (processPage_outside s) as (s' & -> & H & _).
  exact (f_equal timerPart H).
Qed.

Lemma processQueue_timerPart s : timerPart (stateOf (processQueue s)) = timerPart s.
Proof.
  unfold processQueue. destruct (isProcessing s); [done|]. cbn zeta.
  match goal with |- context [processBatch ?b ?s1] =>
    pose proof (processBatch_outside b s1) as Hf;
    destruct (processBatch b s1) as [s2|s2|s2] end;
    cbn [stateOf] in *; exact (f_equal timerPart Hf).
Qed.

Lemma loadData_timerPart reply s : timerPart (loadData reply s) = timerPart s.
Proof. by destruct reply. Qed.

Lemma resetReplacements_timerPart s : timerPart (resetReplacements s) = timerPart s.
Proof.
  unfold resetReplacements. destruct (unwrapMarkers (body s) (nextNodeId s)) as [b f].
  unfold hideCtrlTooltip, hideTooltip. cbn.
  destruct (tooltip s); cbn; by destruct (ctrlTooltip s).
Qed.

(** What arming a timer does when at most the held one is pending. *)
Lemma arm_timer task s :
  onePendingTimer s ->
  timers (setTimeout task (clearProcessTimeout s)).2 = {[ nextTimerId s := task ]} /\
  nextTimerId (setTimeout task (clearProcessTimeout s)).2 = S (nextTimerId s) /\
  (setTimeout task (clearProcessTimeout s)).1 = nextTimerId s.
Proof.
  intros [Hnext Hheld].
  assert (timers (clearProcessTimeout s) = ∅ /\
          nextTimerId (clearProcessTimeout s) = nextTimerId s) as [Hnone Hsame].
  { unfold clearProcessTimeout, truthy.
    destruct (processTimeout s) as [t|] eqn:Ht.
    - destruct (Nat.eqb_spec t 0) as [->|Hne].
      + split; [|done]. apply map_empty. intros t'.
        destruct (timers s !! t') as [task'|] eqn:Ht'; [|done].
        destruct (Hheld _ _ Ht') as [[= <-] Hne]. done.
      + split; [|done]. apply map_empty. intros t'. cbn.
        destruct (decide (t = t')) as [<-|Hne']; [apply lookup_delete_eq|].
        rewrite lookup_delete_ne by done.
        destruct (timers s !! t') as [task'|] eqn:Ht'; [|done].
        destruct (Hheld _ _ Ht') as [[= <-] _]. done.
    - split; [|done]. apply map_empty. intros t'.
      destruct (timers s !! t') as [task'|] eqn:Ht'; [|done].
      by destruct (Hheld _ _ Ht') as [[=] _]. }
  unfold setTimeout. cbn. rewrite Hnone, Hsame. split_and!; try done.
Qed.

Lemma onMutations_arms mutations s :
  onePendingTimer s ->
  timers (onMutations mutations s) = {[ nextTimerId s := DebouncedMutations mutations ]} /\
  processTimeout (onMutations mutations s) = Some (nextTimerId s) /\
  processingQueue (onMutations mutations s) = processingQueue s /\
  onePendingTimer (onMutations mutations s).
Proof.
  intros Hone.
  destruct (arm_timer (DebouncedMutations mutations) s Hone) as (Ht & Hn & Hh).
  unfold onMutations.
  destruct (setTimeout _ (clearProcessTimeout s)) as [t s1] eqn:Harm.
  cbn [fst snd] in Ht, Hn, Hh. subst t. cbn.
  assert (processingQueue s1 = processingQueue s) as Hq.
  { unfold setTimeout, clearProcessTimeout in Harm. injection Harm as _ <-.
    by destruct (truthy (processTimeout s)). }
  split_and!; [done..|]. split; cbn; [lia|].
  intros t task. rewrite Ht. intros [<- _]%lookup_singleton_Some.
  split; [done|apply Hone].
Qed.

Lemma queueNodesForProcessing_arms nodes s :
  onePendingTimer s ->
  timers (queueNodesForProcessing nodes s) = {[ nextTimerId s := ProcessQueue ]} /\
  processTimeout (queueNodesForProcessing nodes s) = Some (nextTimerId s) /\
  onePendingTimer (queueNodesForProcessing nodes s).
Proof.
  intros Hone. unfold queueNodesForProcessing.
  set (s0 := set_processingQueue _ s).
  assert (onePendingTimer s0) as Hone0 by exact Hone.
  destruct (arm_timer ProcessQueue s0 Hone0) as (Ht & Hn & Hh).
  destruct (setTimeout _ (clearProcessTimeout s0)) as [t s1] eqn:Harm.
  cbn [fst snd] in Ht, Hn, Hh. subst t. cbn.
  split_and!; [done..|]. split; cbn; [rewrite Hn; by cbn|].
  intros t task. rewrite Ht. intros [<- _]%lookup_singleton_Some.
  split; [done|apply Hone].
Qed.

(** X14. The debounce of the observer and the queue keep their timer in
    the one field [processTimeout]: an observer callback and a queueing
    each cancel the timer held there and arm one, so that afterwards
    exactly one of these timers is pending, the new one.  Of a burst of
    callbacks only the mutations of the last are ever examined, and a
    callback that comes while a scan of the queue is pending cancels that
    scan and leaves the nodes queued. *)
Theorem arming_cancels_the_pending_timer (s : State) :
  onePendingTimer s ->
  (forall mutations,
      timers (onMutations mutations s)
      = {[ nextTimerId s := DebouncedMutations mutations ]} /\
      processTimeout (onMutations mutations s) = Some (nextTimerId s) /\
      processingQueue (onMutations mutations s) = processingQueue s) /\
  (forall nodes mutations,
      timers (onMutations mutations (queueNodesForProcessing nodes s))
      = {[ S (nextTimerId s) := DebouncedMutations mutations ]} /\
      processingQueue (onMutations mutations (queueNodesForProcessing nodes s))
      = processingQueue (queueNodesForProcessing nodes s)) /\
  (forall earlier later,
      timers (onMutations later (onMutations earlier s))
      = {[ S (nextTimerId s) := DebouncedMutations later ]}).
Proof.
  intros Hone. split_and!.
  - intros mutations. by destruct (onMutations_arms mutations s Hone) as (? & ? & ? & _).
  - intros nodes mutations.
    destruct (queueNodesForProcessing_arms nodes s Hone) as (Ht & _ & Hone').
    destruct (onMutations_arms mutations _ Hone') as (Ht' & _ & Hq & _).
    split; [|done]. rewrite Ht'. f_equal.
    unfold queueNodesForProcessing, clearProcessTimeout.
    by destruct (truthy _).
  - intros earlier later.
    destruct (onMutations_arms earlier s Hone) as (_ & _ & _ & Hone').
    destruct (onMutations_arms later _ Hone') as (Ht' & _). rewrite Ht'. f_equal.
    unfold onMutations, clearProcessTimeout. by destruct (truthy _).
Qed.

Lemma onePendingTimer_timerPart s s' :
  timerPart s' = timerPart s -> onePendingTimer s -> onePendingTimer s'.
Proof. unfold onePendingTimer. intros [= -> -> ->]. done. Qed.

Lemma onePendingTimer_delete t s :
  onePendingTimer s -> onePendingTimer (set_timers (delete t (timers s)) s).
Proof.
  intros [Hn Hh]. split; [done|]. intros t' task. cbn.
  intros [_ Ht']%lookup_delete_Some. by apply (Hh t' task).
Qed.

Lemma scriptStep_onePendingTimer s s' :
  scriptStep s s' -> onePendingTimer s -> onePendingTimer s'.
Proof.
  intros Hstep Hone. destruct Hstep as [mutations s|t s|reply s].
  - by apply onMutations_arms.
  - unfold fireTimer. destruct (timers s !! t) as [task|]; [|done].
    apply (onePendingTimer_delete t) in Hone.
    destruct task as [mutations|].
    + cbn [stateOf]. unfold debouncedMutations.
      destruct (isProcessing _ || negb (enabled _)); [done|].
      destruct (List.filter relevantMutation mutations) as [|m ms]; [done|].
      unfold processMutations.
      destruct (flat_map _ (m :: ms)) as [|n ns]; [done|].
      by apply queueNodesForProcessing_arms.
    + eapply onePendingTimer_timerPart; [apply processQueue_timerPart|done].
  - unfold onUpdated. eapply onePendingTimer_timerPart; [|exact Hone].
    by rewrite processPage_timerPart, resetReplacements_timerPart, loadData_timerPart.
Qed.

(** X15. From [initialize] on a script that was just constructed, through
    whatever callbacks of the observer, timers and update messages
    follow, at most one of the timers of the debounce and of the queue is
    pending: the one whose handle [processTimeout] holds. *)
Theorem one_timer_at_a_time
    (reply : option Reply) (href : jsstring) (above : list Ancestor) (page : Node)
    (fresh : nat) (g : RandomSource) (s : State) :
  rtc scriptStep (stateOf (initialize reply (freshScript href above page fresh g))) s ->
  onePendingTimer s.
Proof.
  intros Hrun.
  assert (onePendingTimer
            (stateOf (initialize reply (freshScript href above page fresh g)))) as Hinit.
  { unfold initialize. destruct (isDomainExcluded _ _).
    - split; [done|]. intros t task. cbn. by rewrite lookup_empty.
    - eapply onePendingTimer_timerPart; [apply processPage_timerPart|].
      split; [by destruct reply|]. intros t task. destruct reply; cbn; by rewrite lookup_empty. }
  remember (stateOf (initialize reply (freshScript href above page fresh g))) as s0 eqn:E.
  clear E. induction Hrun as [|s1 s2 s3 Hstep _ IH]; [done|].
  by apply IH, (scriptStep_onePendingTimer s1).
Qed.

End Timers.

(** *** The scan of the queue *)

Section Queue.
Context {L : LowerCase}.

(** X16. The timer of the queue, with settings loaded: when no scan is
    in progress it takes every queued node, returns, and leaves the
    queue empty and the flag [isProcessing] false, the settings and the
    vocabulary as they were; when a scan is in progress it does nothing,
    and the nodes stay queued with no timer armed for them. *)
Theorem processQueue_empties_the_queue (s : State) (st : UserSettings) :
  settings s = Some st ->
  (isProcessing s = false ->
   exists s',
     processQueue s = Completed s' /\
     processingQueue s' = [] /\ isProcessing s' = false /\
     settings s' = Some st /\
     vocabulary s' = vocabulary s /\ vocabularyMap s' = vocabularyMap s) /\
  (isProcessing s = true -> processQueue s = Completed s).
Proof.
  intros Hs. split.
  - intros Hp. destruct (processQueue_outside st s Hs Hp) as (s' & Hrun & Hf).
    exists s'. split; [done|]. split_and!.
    + exact (f_equal processingQueue Hf).
    + rewrite <- Hp. exact (f_equal isProcessing Hf).
    + rewrite <- Hs. exact (f_equal settings Hf).
    + exact (f_equal vocabulary Hf).
    + exact (f_equal vocabularyMap Hf).
  - intros Hp. unfold processQueue. by rewrite Hp.
Qed.

End Queue.

(** *** What is replaced *)

Section Sound.
Context {L : LowerCase} {U : UrlParser}.

Lemma buildVocabularyMap_sound s : soundMap (buildVocabularyMap s).
Proof.
  unfold soundMap, buildVocabularyMap. cbn.
  assert (forall l (m : gmap jsstring VocabularyWord),
             (forall w, In w l -> In w (vocabulary s)) ->
             map_Forall (fun key w => In w (vocabulary s) /\ normalizeWord (english w) = key) m ->
             map_Forall (fun key w => In w (vocabulary s) /\ normalizeWord (english w) = key)
                        (fold_left (fun m w => <[normalizeWord (english w) := w]> m) l m))
    as Hfold.
  { induction l as [|w l IH]; intros m Hl Hm; cbn [fold_left]; [done|].
    apply IH; [intros w' Hw'; apply Hl; by right|].
    apply map_Forall_insert_2; [|done]. split; [apply Hl; by left|done]. }
  apply Hfold; [done|apply map_Forall_empty].
Qed.

Lemma replaceWords_sound leaf text words :
  forall s newContent hasReplacements,
    sound s -> sound (loopState (replaceWords leaf text words s newContent hasReplacements)).
Proof.
  induction words as [|word rest IH]; intros s nc h Hsound; cbn [replaceWords]; [done|].
  destruct (hasWhiteSpace word); [by apply IH|].
  destruct (vocabularyMap s !! normalizeWord word) as [vw|] eqn:Hvw; [|by apply IH].
  destruct (shouldReplaceWord vw (settings s) (rng s)) as [[[] g]|msg]; [| |done].
  - cbn zeta. unfold createReplacement. cbn zeta. apply IH.
    destruct Hsound as [Hm Hr]. split; [exact Hm|].
    unfold soundRegistry. cbn. apply map_Forall_insert_2; [|exact Hr]. cbn.
    destruct (Hm _ _ Hvw) as [Hin Hkey]. by split.
  - cbn zeta. by apply IH.
Qed.

Lemma processTextNode_sound leaf text s :
  sound s -> sound (stateOf (processTextNode leaf text s)).
Proof.
  intros Hsound. unfold processTextNode.
  destruct (bool_decide (text = []) || bool_decide (trim text = [])); [done|].
  destruct (negb (textContainsVocabulary s text)); [done|]. cbn zeta.
  match goal with |- context [replaceWords ?a ?b ?c ?s1 ?nc1 ?h1] =>
    pose proof (replaceWords_sound a b c s1 nc1 h1 Hsound) as Hf;
    destruct (replaceWords a b c s1 nc1 h1) as [[[s2 nc2] []]|s2] end;
    cbn [loopState] in Hf; cbn [stateOf]; [|done..].
  unfold replaceTextNode. destruct (fragmentOf nc2 (nextNodeId s2)) as [fragment fresh].
  exact Hf.
Qed.

Lemma processTextNodes_sound nodes :
  forall s, sound s -> sound (stateOf (processTextNodes nodes s)).
Proof.
  induction nodes as [|[[leaf text] chain] rest IH]; intros s Hsound;
    cbn [processTextNodes]; [done|].
  destruct (bool_decide (leaf ∈ processedNodes s)); [by apply IH|].
  match goal with |- context [processTextNode leaf text ?s1] =>
    pose proof (processTextNode_sound leaf text s1 Hsound) as Hf;
    destruct (processTextNode leaf text s1) as [s2|s2|s2] end;
    cbn [stateOf] in *; [by apply IH|done..].
Qed.

Lemma processContainer_sound above container s :
  sound s -> sound (stateOf (processContainer above container s)).
Proof.
  intros Hsound. unfold processContainer.
  destruct (bool_decide (nodeId container ∈ processedNodes s)); [done|].
  cbn zeta. by apply processTextNodes_sound.
Qed.

Lemma processBatch_sound batch :
  forall s, sound s -> sound (stateOf (processBatch batch s)).
Proof.
  induction batch as [|node rest IH]; intros s Hsound; cbn [processBatch]; [done|].
  set (o := match locate _ _ _ with Some _ => _ | None => _ end).
  assert (sound (stateOf o)) as Ho.
  { unfold o. destruct (locate _ _ _) as [[above n]|]; [|done].
    destruct (q_nodeType node =? TEXT_NODE); [by apply processTextNode_sound|].
    destruct (q_nodeType node =? ELEMENT_NODE); [by apply processContainer_sound|done]. }
  destruct o as [s1|s1|s1]; cbn [stateOf] in *; [by apply IH|done..].
Qed.

Lemma processPage_sound s : sound s -> sound (stateOf (processPage s)).
Proof.
  intros Hsound. unfold processPage.
  destruct (negb (enabled s) || bool_decide (size (vocabularyMap s) = 0)); [done|].
  cbn zeta.
  match goal with |- context [processContainer ?a ?c ?s1] =>
    pose proof (processContainer_sound a c s1 Hsound) as Hf;
    destruct (processContainer a c s1) as [s2|s2|s2] end; exact Hf.
Qed.

Lemma processQueue_sound s : sound s -> sound (stateOf (processQueue s)).
Proof.
  intros Hsound. unfold processQueue. destruct (isProcessing s); [done|]. cbn zeta.
  match goal with |- context [processBatch ?b ?s1] =>
    pose proof (processBatch_sound b s1 Hsound) as Hf;
    destruct (processBatch b s1) as [s2|s2|s2] end; exact Hf.
Qed.

Lemma loadData_soundMap reply s : soundMap s -> soundMap (loadData reply s).
Proof. destruct reply as [r|]; [|done]. intros _. apply buildVocabularyMap_sound. Qed.

Lemma resetReplacements_sound s : soundMap s -> sound (resetReplacements s).
Proof.
  intros Hm. unfold resetReplacements.
  destruct (unwrapMarkers (body s) (nextNodeId s)) as [b f].
  unfold hideCtrlTooltip, hideTooltip. cbn.
  destruct (tooltip s); cbn; destruct (ctrlTooltip s); (split; [exact Hm|]);
    unfold soundRegistry; cbn; apply map_Forall_empty.
Qed.

Lemma scriptStep_sound s s' : scriptStep s s' -> sound s -> sound s'.
Proof.
  intros Hstep Hsound. destruct Hstep as [mutations s|t s|reply s].
  - unfold onMutations, clearProcessTimeout. by destruct (truthy _).
  - unfold fireTimer. destruct (timers s !! t) as [task|]; [|done].
    destruct task as [mutations|].
    + cbn [stateOf]. unfold debouncedMutations.
      destruct (isProcessing _ || negb (enabled _)); [done|].
      destruct (List.filter relevantMutation mutations) as [|m ms]; [done|].
      unfold processMutations.
      destruct (flat_map _ (m :: ms)) as [|n ns]; [done|].
      unfold queueNodesForProcessing, clearProcessTimeout. by destruct (truthy _).
    + by apply processQueue_sound.
  - unfold onUpdated. apply processPage_sound, resetReplacements_sound, loadData_soundMap.
    apply Hsound.
Qed.

(** X17. From [initialize] on a script that was just constructed, through
    whatever callbacks, timers and update messages follow: every entry
    of [replacedWords] pairs the token that was replaced with a word of
    the vocabulary the script holds, and the token and the word's
    [english] have the same normal form; every key of the index is the
    normal form of the word it maps to. *)
Theorem only_vocabulary_is_replaced
    (reply : option Reply) (href : jsstring) (above : list Ancestor) (page : Node)
    (fresh : nat) (g : RandomSource) (s : State) :
  rtc scriptStep (stateOf (initialize reply (freshScript href above page fresh g))) s ->
  soundRegistry s /\ soundMap s.
Proof.
  intros Hrun.
  assert (sound (stateOf (initialize reply (freshScript href above page fresh g)))) as Hinit.
  { unfold initialize. destruct (isDomainExcluded _ _).
    - split; [apply map_Forall_empty|apply map_Forall_empty].
    - apply processPage_sound. split; [apply buildVocabularyMap_sound|].
      unfold soundRegistry. destruct reply; cbn; apply map_Forall_empty. }
  remember (stateOf (initialize reply (freshScript href above page fresh g))) as s0 eqn:E.
  clear E. induction Hrun as [|s1 s2 s3 Hstep _ IH].
  - by destruct Hinit.
  - by apply IH, (scriptStep_sound s1).
Qed.

End Sound.

(** *** The originals *)

Lemma restoredText_empty n : restoredText ∅ n = textContent n.
Proof.
  induction n as [i d|i t cl kids IH] using Node_ind'; [done|].
  cbn [restoredText textContent]. rewrite lookup_empty.
  induction IH as [|k kids Hk _ IHkids]; [done|]. cbn [flat_map]. by rewrite Hk, IHkids.
Qed.

(** The text depends on the registry at the elements of the node only. *)
Lemma restoredText_ext (registry registry' : gmap nat Replacement) n :
  (forall i, In i (nodeIds n) -> registry' !! i = registry !! i) ->
  restoredText registry' n = restoredText registry n.
Proof.
  induction n as [i d|i t cl kids IH] using Node_ind'; intros Hsame; [done|].
  cbn [restoredText]. rewrite (Hsame i) by (by left).
  destruct (registry !! i); [done|].
  assert (forall j, In j (flat_map nodeIds kids) -> registry' !! j = registry !! j) as Hkids.
  { intros j Hj. apply Hsame. by right. }
  clear Hsame. induction IH as [|k kids Hk _ IHkids]; [done|]. cbn [flat_map].
  rewrite Hk, IHkids; [done| |].
  - intros j Hj. apply Hkids. cbn [flat_map]. apply in_or_app. by right.
  - intros j Hj. apply Hkids. cbn [flat_map]. apply in_or_app. by left.
Qed.

Lemma textNodes_nodeIds n :
  forall above x, In x (textNodes above n) -> In (leafId x) (nodeIds n).
Proof.
  induction n as [i d|i t cl kids IH] using Node_ind'; intros above x.
  { intros [<-|[]]. by left. }
  cbn [textNodes nodeIds]. rewrite in_flat_map. intros (k & Hk & Hx). right.
  apply in_flat_map. exists k. split; [done|].
  rewrite Forall_forall in IH. eapply (IH k); [by apply list_elem_of_In|exact Hx].
Qed.

Lemma NoDup_app_disjoint {A : Type} (l1 l2 : list A) x :
  NoDup (l1 ++ l2) -> In x l1 -> In x l2 -> False.
Proof.
  intros (_ & Hdis & _)%NoDup_app Hx1 Hx2.
  apply (Hdis x); by apply list_elem_of_In.
Qed.

(** On a page whose nodes have their own identities, a text node is
    known by its identity. *)
Lemma textNodes_unique n :
  NoDup (nodeIds n) ->
  forall above above' x y,
    In x (textNodes above n) -> In y (textNodes above' n) ->
    leafId x = leafId y -> x.1.2 = y.1.2.
Proof.
  induction n as [i d|i t cl kids IH] using Node_ind'; intros Hnd above above' x y.
  { by intros [<-|[]] [<-|[]]. }
  cbn [textNodes nodeIds] in *. apply NoDup_cons in Hnd as [_ Hnd].
  generalize ({| tag := t; classes := cl |} :: above).
  generalize ({| tag := t; classes := cl |} :: above').
  intros ab' ab. clear above above'.
  induction IH as [|k kids Hk _ IHkids]; [done|]. cbn [flat_map] in *.
  pose proof Hnd as Hnd'. apply NoDup_app in Hnd' as (Hndk & _ & Hndks).
  rewrite !in_app_iff. intros [Hx|Hx] [Hy|Hy] Hid.
  - by apply (Hk Hndk ab ab').
  - exfalso. apply (NoDup_app_disjoint _ _ (leafId x) Hnd).
    + by apply (textNodes_nodeIds k ab).
    + rewrite Hid. apply in_flat_map in Hy as (k' & Hk' & Hy).
      apply in_flat_map. exists k'. split; [done|]. by apply (textNodes_nodeIds k' ab').
  - exfalso. apply (NoDup_app_disjoint _ _ (leafId y) Hnd).
    + by apply (textNodes_nodeIds k ab').
    + rewrite <- Hid. apply in_flat_map in Hx as (k' & Hk' & Hx).
      apply in_flat_map. exists k'. split; [done|]. by apply (textNodes_nodeIds k' ab).
  - by apply IHkids.
Qed.

(** The nodes after a text node was replaced are nodes of before or
    nodes of the fragment. *)
Lemma nodeIds_replaceChild old fragment n j :
  In j (nodeIds (replaceChild old fragment n)) ->
  In j (nodeIds n) \/ In j (flat_map nodeIds fragment).
Proof.
  induction n as [i d|i t cl kids IH] using Node_ind'; [by left|].
  cbn [replaceChild nodeIds]. intros [<-|Hj]; [left; by left|].
  apply in_flat_map in Hj as (k' & Hk' & Hj). apply in_flat_map in Hk' as (k & Hk & Hk').
  rewrite Forall_forall in IH. specialize (IH k (proj2 (list_elem_of_In _ _) Hk)).
  destruct k as [i' d|i' t' cl' kids'].
  - destruct (i' =? old).
    + right. apply in_flat_map. eauto.
    + destruct Hk' as [<-|[]]. left. right. apply in_flat_map. eauto.
  - destruct Hk' as [<-|[]]. destruct (IH Hj) as [H|H]; [|by right].
    left. right. apply in_flat_map. eauto.
Qed.

Lemma textNodes_of_replaceChild old fragment n :
  forall above y,
    In y (textNodes above (replaceChild old fragment n)) ->
    In y (textNodes above n) \/ In (leafId y) (flat_map nodeIds fragment).
Proof.
  induction n as [i d|i t cl kids IH] using Node_ind'; intros above y; [by left|].
  cbn [replaceChild textNodes]. intros Hy.
  apply in_flat_map in Hy as (k' & Hk' & Hy). apply in_flat_map in Hk' as (k & Hk & Hk').
  rewrite Forall_forall in IH. specialize (IH k (proj2 (list_elem_of_In _ _) Hk)).
  destruct k as [i' d|i' t' cl' kids'].
  - destruct (i' =? old).
    + right. apply in_flat_map. exists k'. split; [done|].
      eapply textNodes_nodeIds. exact Hy.
    + destruct Hk' as [<-|[]]. left. apply in_flat_map. eauto.
  - destruct Hk' as [<-|[]]. destruct (IH _ _ Hy) as [H|H]; [|by right].
    left. apply in_flat_map. eauto.
Qed.

Lemma textNodes_rechain n :
  forall above above' x,
    In x (textNodes above n) -> exists chain, In (x.1.1, x.1.2, chain) (textNodes above' n).
Proof.
  induction n as [i d|i t cl kids IH] using Node_ind'; intros above above' x.
  { intros [<-|[]]. exists above'. by left. }
  cbn [textNodes]. intros (k & Hk & Hx)%in_flat_map.
  rewrite Forall_forall in IH.
  destruct (IH k (proj2 (list_elem_of_In _ _) Hk) _
              ({| tag := t; classes := cl |} :: above') x Hx) as [chain Hchain].
  exists chain. apply in_flat_map. eauto.
Qed.

(** Replacing a text node by nodes that restore to its data keeps the
    restored text. *)
Lemma restoredText_replaceChild registry old fragment text n :
  flat_map (restoredText registry) fragment = text ->
  (forall x, In x (textNodes [] n) -> leafId x = old -> x.1.2 = text) ->
  restoredText registry (replaceChild old fragment n) = restoredText registry n.
Proof.
  intros Hfragment.
  induction n as [i d|i t cl kids IH] using Node_ind'; intros Hdata; [done|].
  cbn [replaceChild restoredText]. destruct (registry !! i); [done|].
  assert (forall k x, In k kids -> In x (textNodes [] k) -> leafId x = old -> x.1.2 = text)
    as Hkids.
  { intros k x Hk Hx Hid.
    destruct (textNodes_rechain k [] [{| tag := t; classes := cl |}] x Hx) as [chain Hc].
    apply (Hdata (x.1.1, x.1.2, chain)); [|done].
    cbn [textNodes]. apply in_flat_map. eauto. }
  clear Hdata. induction IH as [|k kids Hk _ IHkids]; [done|]. cbn [flat_map].
  rewrite flat_map_app, IHkids.
  2:{ intros k' x Hk'. apply Hkids. by right. }
  f_equal. destruct k as [j d|j t' cl' kids'].
  - destruct (Nat.eqb_spec j old) as [->|Hne].
    + rewrite Hfragment. symmetry. apply (Hkids (Text old d) (old, d, [])); [by left| |done].
      by left.
    + cbn. by rewrite app_nil_r.
  - cbn [flat_map]. rewrite app_nil_r. apply Hk. intros x Hx.
    apply (Hkids (Element j t' cl' kids')); [by left|done].
Qed.

Section Originals.
Context {L : LowerCase}.

Lemma markersFrom_app base s content c :
  markersFrom base s content ->
  match c with
  | Literal _ => True
  | Marker span =>
    is_Some (replacedWords s !! nodeId span) /\
    (exists i t cl kids, span = Element i t cl kids) /\
    Forall (fun j => base <= j < nextNodeId s) (nodeIds span)
  end ->
  markersFrom base s (content ++ [c]).
Proof. intros Hc Hnew. apply Forall_app. split; [done|]. by constructor. Qed.

Lemma contentText_app registry content c :
  flat_map (contentText registry) (content ++ [c])
  = flat_map (contentText registry) content ++ contentText registry c.
Proof. rewrite flat_map_app. cbn. by rewrite app_nil_r. Qed.

(** The loop of [processTextNode] registers its markers at identities
    that were not in use, and its content read with the originals is the
    words it went through. *)
Lemma replaceWords_restores leaf text words :
  forall s content hasReplacements base,
    base <= nextNodeId s ->
    markersFrom base s content ->
    nextNodeId s
    <= nextNodeId (loopState (replaceWords leaf text words s content hasReplacements)) /\
    (forall j, j < nextNodeId s ->
               replacedWords
                 (loopState (replaceWords leaf text words s content hasReplacements)) !! j
               = replacedWords s !! j) /\
    match replaceWords leaf text words s content hasReplacements with
    | inl (s', content', _) =>
      markersFrom base s' content' /\
      flat_map (contentText (replacedWords s')) content'
      = flat_map (contentText (replacedWords s)) content ++ concat words
    | inr _ => True
    end.
Proof.
  induction words as [|token rest IH]; intros s nc h base Hbase Hnc; cbn [replaceWords].
  { cbn. split_and!; [done..|by rewrite app_nil_r]. }
  assert (forall s1 h1,
             nextNodeId s1 = nextNodeId s -> replacedWords s1 = replacedWords s ->
             nextNodeId s
             <= nextNodeId (loopState (replaceWords leaf text rest s1 (nc ++ [Literal token]) h1)) /\
             (forall j, j < nextNodeId s ->
                        replacedWords
                          (loopState (replaceWords leaf text rest s1 (nc ++ [Literal token]) h1)) !! j
                        = replacedWords s !! j) /\
             match replaceWords leaf text rest s1 (nc ++ [Literal token]) h1 with
             | inl (s', content', _) =>
               markersFrom base s' content' /\
               flat_map (contentText (replacedWords s')) content'
               = flat_map (contentText (replacedWords s)) nc ++ concat (token :: rest)
             | inr _ => True
             end) as Hkeep.
  { intros s1 h1 Hn Hr.
    destruct (IH s1 (nc ++ [Literal token]) h1 base) as (Hle & Hlook & Hres).
    { by rewrite Hn. }
    { apply markersFrom_app; [|done]. unfold markersFrom in *. by rewrite Hn, Hr. }
    rewrite Hn, Hr in *. split_and!; [done..|].
    destruct (replaceWords leaf text rest s1 _ h1) as [[[s' nc'] h']|]; [|done].
    destruct Hres as [Hm ->]. split; [done|].
    rewrite contentText_app. cbn [contentText concat]. by rewrite <- app_assoc. }
  destruct (hasWhiteSpace token); [by apply Hkeep|].
  destruct (vocabularyMap s !! normalizeWord token) as [vw|]; [|by apply Hkeep].
  destruct (shouldReplaceWord vw (settings s) (rng s)) as [[[] g]|msg].
  - cbn zeta. unfold createReplacement. cbn zeta.
    pose (i := nextNodeId s).
    pose (kids := match hebrew vw with [] => [] | _ :: _ => [Text (S i) (hebrew vw)] end).
    match goal with |- context [replaceWords _ _ _ ?sx (nc ++ [Marker ?sp]) ?hx] =>
      set (s1 := sx); set (span := sp) end.
    assert (span = Element i (str "SPAN") [markerClass] kids) as Hspan by reflexivity.
    assert (nextNodeId s1 = i + 1 + List.length kids) as Hn1 by reflexivity.
    assert (replacedWords s1
            = <[i := {| original := token; word := vw |}]> (replacedWords s)) as Hr1
      by reflexivity.
    clearbody s1 span.
    destruct (IH s1 (nc ++ [Marker span]) true base) as (Hle & Hlook & Hres).
    { lia. }
    { apply Forall_app. split.
      - eapply Forall_impl; [exact Hnc|]. intros [lit|m]; [done|].
        intros (Hsome & Hel & Hids). split_and!; [|done|].
        + rewrite Hr1, lookup_insert_ne; [done|].
          destruct Hel as (j & t & cl & ks & ->). cbn in Hids |- *.
          apply Forall_cons in Hids as [Hj _]. unfold i. lia.
        + eapply Forall_impl; [exact Hids|]. intros j Hj. cbn in Hj. rewrite Hn1.
          unfold i. lia.
      - constructor; [|done]. split_and!.
        + rewrite Hr1, Hspan. cbn. by rewrite lookup_insert_eq.
        + by exists i, (str "SPAN"), [markerClass], kids.
        + rewrite Hn1, Hspan. unfold kids. cbn [nodeIds].
          destruct (hebrew vw); repeat constructor; cbn; unfold i; lia. }
    split_and!.
    + unfold i in *. lia.
    + intros j Hj. rewrite Hlook by (unfold i in *; lia). rewrite Hr1.
      apply lookup_insert_ne. unfold i. lia.
    + destruct (replaceWords leaf text rest s1 _ true) as [[[s' nc'] h']|]; [|done].
      destruct Hres as [Hm ->]. split; [done|].
      rewrite contentText_app. cbn [contentText concat]. rewrite Hspan.
      cbn [restoredText]. rewrite Hr1, lookup_insert_eq. cbn [original].
      rewrite <- app_assoc. f_equal.
      clear -Hnc. induction Hnc as [|c nc Hc _ IHnc]; [done|]. cbn [flat_map].
      rewrite IHnc. f_equal. destruct c as [lit|m]; [done|]. cbn [contentText].
      apply restoredText_ext. intros j Hj. apply lookup_insert_ne.
      destruct Hc as (_ & _ & Hids). rewrite Forall_forall in Hids.
      specialize (Hids j (proj2 (list_elem_of_In _ _) Hj)). unfold i. lia.
  - cbn zeta. by apply Hkeep.
  - cbn. split_and!; done.
Qed.

Lemma fragmentOf_restores registry base content :
  forall fresh,
    base <= fresh ->
    Forall (fun c => match c with
                     | Literal _ => True
                     | Marker span => Forall (fun j => base <= j < fresh) (nodeIds span)
                     end) content ->
    fresh <= (fragmentOf content fresh).2 /\
    flat_map (restoredText registry) (fragmentOf content fresh).1
    = flat_map (contentText registry) content /\
    Forall (fun j => base <= j < (fragmentOf content fresh).2)
           (flat_map nodeIds (fragmentOf content fresh).1).
Proof.
  induction content as [|c content IH]; intros fresh Hbase Hc; cbn [fragmentOf].
  { cbn. split_and!; [lia|done|constructor]. }
  apply Forall_cons in Hc as [Hc Hrest]. destruct c as [lit|span].
  - destruct (IH (S fresh)) as (Hle & Htext & Hids).
    { lia. }
    { eapply Forall_impl; [exact Hrest|]. intros [lit'|m]; [done|].
      intros Hm. eapply Forall_impl; [exact Hm|]. intros j Hj. cbn in Hj |- *. lia. }
    destruct (fragmentOf content (S fresh)) as [nodes fresh'].
    cbn [fst snd flat_map restoredText contentText nodeIds app] in *.
    split_and!; [lia|by rewrite Htext|]. constructor; [lia|done].
  - destruct (IH fresh Hbase Hrest) as (Hle & Htext & Hids).
    destruct (fragmentOf content fresh) as [nodes fresh'].
    cbn [fst snd flat_map contentText] in *.
    split_and!; [done|by rewrite Htext|]. apply Forall_app. split; [|done].
    eapply Forall_impl; [exact Hc|]. intros j Hj. cbn in Hj |- *. lia.
Qed.

(** One text node: the restored text of the document is kept, and the
    text nodes after it are those of before or new ones. *)
Lemma processTextNode_restores leaf text s :
  Forall (fun i => i < nextNodeId s) (nodeIds (body s)) ->
  (forall x, In x (textNodes [] (body s)) -> leafId x = leaf -> x.1.2 = text) ->
  restoredText (replacedWords (stateOf (processTextNode leaf text s)))
               (body (stateOf (processTextNode leaf text s)))
  = restoredText (replacedWords s) (body s) /\
  nextNodeId s <= nextNodeId (stateOf (processTextNode leaf text s)) /\
  Forall (fun i => i < nextNodeId (stateOf (processTextNode leaf text s)))
         (nodeIds (body (stateOf (processTextNode leaf text s)))) /\
  (forall y, In y (textNodes [] (body (stateOf (processTextNode leaf text s)))) ->
             In y (textNodes [] (body s)) \/ nextNodeId s <= leafId y).
Proof.
  intros Hids Hdata. unfold processTextNode.
  destruct (bool_decide (text = []) || bool_decide (trim text = [])).
  { cbn. split_and!; [done..|by left]. }
  destruct (negb (textContainsVocabulary s text)).
  { cbn. split_and!; [done..|by left]. }
  cbn zeta.
  match goal with |- context [replaceWords ?a ?b ?c ?s1 ?nc1 ?h1] =>
    pose proof (replaceWords_frame a b c s1 nc1 h1) as (_ & Hb & _);
    destruct (replaceWords_restores a b c s1 nc1 h1 (nextNodeId s))
      as (Hle & Hlook & Hres); [done|constructor|];
    destruct (replaceWords a b c s1 nc1 h1) as [[[s2 nc2] h2]|s2] end;
    cbn [loopState] in Hle, Hlook, Hb; cbn [trace set_trace body nextNodeId replacedWords]
      in Hle, Hlook, Hb.
  2:{ cbn [stateOf]. rewrite Hb. split_and!.
      - apply restoredText_ext. intros j Hj. apply Hlook.
        rewrite Forall_forall in Hids. by apply Hids, list_elem_of_In.
      - done.
      - eapply Forall_impl; [exact Hids|]. intros j Hj. cbn in Hj. lia.
      - intros y Hy. by left. }
  destruct Hres as [Hm Htext]. cbn [flat_map app] in Htext.
  rewrite splitWhiteSpace_concat in Htext.
  assert (restoredText (replacedWords s2) (body s) = restoredText (replacedWords s) (body s))
    as Hsame.
  { apply restoredText_ext. intros j Hj. apply Hlook.
    rewrite Forall_forall in Hids. by apply Hids, list_elem_of_In. }
  destruct h2; cbn [stateOf].
  2:{ rewrite Hb. split_and!; [done..| |by left].
      eapply Forall_impl; [exact Hids|]. intros j Hj. cbn in Hj. lia. }
  unfold replaceTextNode.
  destruct (fragmentOf_restores (replacedWords s2) (nextNodeId s) nc2 (nextNodeId s2))
    as (Hfle & Hftext & Hfids).
  { done. }
  { eapply Forall_impl; [exact Hm|]. intros [lit|m]; [done|]. by intros (_ & _ & H). }
  destruct (fragmentOf nc2 (nextNodeId s2)) as [fragment fresh].
  cbn [fst snd] in Hfle, Hftext, Hfids. cbn. rewrite Hb. split_and!.
  - rewrite <- Hsame. apply (restoredText_replaceChild _ _ _ text); [|done].
    by rewrite Hftext.
  - lia.
  - apply Forall_forall. intros j Hj%list_elem_of_In.
    apply nodeIds_replaceChild in Hj as [Hj|Hj].
    + rewrite Forall_forall in Hids. apply list_elem_of_In, Hids in Hj. lia.
    + rewrite Forall_forall in Hfids. apply list_elem_of_In, Hfids in Hj. lia.
  - intros y Hy. apply textNodes_of_replaceChild in Hy as [Hy|Hy]; [by left|right].
    rewrite Forall_forall in Hfids. apply list_elem_of_In, Hfids in Hy. lia.
Qed.

Lemma processTextNodes_restores nodes :
  forall s,
    Forall (fun i => i < nextNodeId s) (nodeIds (body s)) ->
    (forall x, In x nodes -> leafId x < nextNodeId s) ->
    (forall x y, In x nodes -> In y (textNodes [] (body s)) ->
                 leafId y = leafId x -> y.1.2 = x.1.2) ->
    restoredText (replacedWords (stateOf (processTextNodes nodes s)))
                 (body (stateOf (processTextNodes nodes s)))
    = restoredText (replacedWords s) (body s) /\
    Forall (fun i => i < nextNodeId (stateOf (processTextNodes nodes s)))
           (nodeIds (body (stateOf (processTextNodes nodes s)))).
Proof.
  induction nodes as [|[[leaf text] chain] rest IH]; intros s Hids Hlt Hdata;
    cbn [processTextNodes]; [done|].
  destruct (bool_decide (leaf ∈ processedNodes s)).
  { apply IH; [done| |].
    - intros x Hx. apply Hlt. by right.
    - intros x y Hx. apply Hdata. by right. }
  match goal with |- context [processTextNode leaf text ?s1] =>
    destruct (processTextNode_restores leaf text s1) as (Htext & Hle & Hids' & Hnew) end.
  { done. }
  { intros x Hx Hid. apply (Hdata (leaf, text, chain) x); [by left|done..]. }
  cbn [body nextNodeId replacedWords set_processedNodes] in Htext, Hle, Hids', Hnew.
  destruct (processTextNode leaf text _) as [s2|s2|s2]; cbn [stateOf] in *; [|done..].
  destruct (IH s2) as (Htext2 & Hids2); [done| | |].
  - intros x Hx. specialize (Hlt x (or_intror Hx)). lia.
  - intros x y Hx Hy Hid. destruct (Hnew y Hy) as [Hold|Hfresh].
    + apply (Hdata x y); [by right|done..].
    + specialize (Hlt x (or_intror Hx)). lia.
  - split; [by rewrite Htext2|done].
Qed.

Lemma textNodesBelow_textNodes above n x :
  In x (textNodesBelow above n) -> In x (textNodes above n).
Proof. by destruct n. Qed.

(** X18. The registry keeps what the document lost: on a page whose
    nodes have their own identities, below the identity the next node
    gets, [processPage] leaves a document that reads as before when each
    registered element is read as the token recorded for it. *)
Theorem processPage_keeps_the_originals (s : State) :
  wellNumbered (body s) (nextNodeId s) ->
  restoredText (replacedWords (stateOf (processPage s))) (body (stateOf (processPage s)))
  = restoredText (replacedWords s) (body s).
Proof.
  intros [Hnd Hids]. unfold processPage.
  destruct (negb (enabled s) || bool_decide (size (vocabularyMap s) = 0)); [done|].
  cbn zeta. unfold processContainer.
  match goal with |- context [bool_decide ?P] => destruct (bool_decide P) end; [done|].
  cbn zeta.
  match goal with |- context [processTextNodes ?ns ?s1] =>
    destruct (processTextNodes_restores ns s1) as [Htext _] end.
  - done.
  - intros x [Hx _]%filter_In. apply textNodesBelow_textNodes, textNodes_nodeIds in Hx.
    rewrite Forall_forall in Hids. by apply Hids, list_elem_of_In.
  - intros x y [Hx _]%filter_In Hy Hid. apply textNodesBelow_textNodes in Hx.
    by apply (textNodes_unique (body s) Hnd [] (bodyAncestors s) y x).
  - cbn [body replacedWords set_processedNodes set_isProcessing] in Htext.
    by destruct (processTextNodes _ _).
Qed.

End Originals.

(** *** After a reset *)

Section Reset.
Context {L : LowerCase}.

Lemma unwrapMarkers_hasMarker n :
  forall fresh, hasMarker (unwrapMarkers n fresh).1 = false.
Proof.
  induction n as [i d|i t cl kids IH] using Node_ind'; intros fresh; [done|].
  cbn [unwrapMarkers]. destruct (contains cl markerClass) eqn:Hcl; [done|].
  revert fresh. induction kids as [|k kids IHkids]; intros fresh.
  { cbn [fst hasMarker existsb]. by rewrite Hcl. }
  apply Forall_cons in IH as [Hk Hkids]. specialize (IHkids Hkids).
  specialize (Hk fresh). destruct (unwrapMarkers k fresh) as [k' f1].
  specialize (IHkids f1). cbn [fst] in Hk.
  destruct ((fix each (ks : list Node) (f : nat) {struct ks} : list Node * nat :=
               match ks with
               | [] => ([], f)
               | k0 :: ks' =>
                 let '(k'0, f0) := unwrapMarkers k0 f in
                 let '(ks'', f2) := each ks' f0 in (k'0 :: ks'', f2)
               end) kids f1) as [ks'' f2].
  cbn [fst hasMarker existsb] in IHkids |- *. rewrite Hcl in *. cbn [orb] in *.
  by rewrite Hk.
Qed.

Lemma remove_hasMarker node n : hasMarker n = false -> hasMarker (remove node n) = false.
Proof.
  induction n as [i d|i t cl kids IH] using Node_ind'; [done|].
  cbn [hasMarker remove]. intros [Hcl Hkids]%orb_false_iff. rewrite Hcl. cbn [orb].
  induction IH as [|k kids Hk _ IHkids]; [done|].
  cbn [existsb] in Hkids. apply orb_false_iff in Hkids as [Hk' Hkids].
  cbn [flat_map]. rewrite existsb_app, (IHkids Hkids), orb_false_r.
  destruct (nodeId k =? node); [done|]. cbn [existsb]. by rewrite (Hk Hk').
Qed.

(** X19. After [resetReplacements] the document has no element of the
    class [hebrew-replacement], the registry and the processed set are
    empty, and no tooltip is open; the vocabulary, the settings, the
    queue and the timers are as before. *)
Theorem resetReplacements_leaves_no_marker (s : State) :
  hasMarker (body (resetReplacements s)) = false /\
  replacedWords (resetReplacements s) = ∅ /\
  processedNodes (resetReplacements s) = ∅ /\
  tooltip (resetReplacements s) = None /\
  ctrlTooltip (resetReplacements s) = None /\
  vocabulary (resetReplacements s) = vocabulary s /\
  settings (resetReplacements s) = settings s /\
  processingQueue (resetReplacements s) = processingQueue s /\
  timers (resetReplacements s) = timers s.
Proof.
  unfold resetReplacements.
  pose proof (unwrapMarkers_hasMarker (body s) (nextNodeId s)) as Hm.
  destruct (unwrapMarkers (body s) (nextNodeId s)) as [b f]. cbn [fst] in Hm.
  unfold hideCtrlTooltip, hideTooltip. cbn.
  destruct (tooltip s) as [t|] eqn:Ht; cbn; destruct (ctrlTooltip s) as [c|] eqn:Hc; cbn;
    split_and!; try done; repeat apply remove_hasMarker; done.
Qed.

End Reset.

(** *** The excluded domains *)

Section Exclusions.
Context {L : LowerCase} {U : UrlParser}.

Lemma shouldReplaceWord_withoutExcluded vw st g :
  shouldReplaceWord vw (option_map withoutExcluded st) g = shouldReplaceWord vw st g.
Proof. by destruct st. Qed.

Lemma replaceWords_forgetExcluded leaf text words :
  forall s content hasReplacements,
    replaceWords leaf text words (forgetExcluded s) content hasReplacements
    = match replaceWords leaf text words s content hasReplacements with
      | inl (s', content', h') => inl (forgetExcluded s', content', h')
      | inr s' => inr (forgetExcluded s')
      end.
Proof.
  induction words as [|token rest IH]; intros s nc h; cbn [replaceWords]; [done|].
  destruct (hasWhiteSpace token); [apply IH|].
  change (vocabularyMap (forgetExcluded s)) with (vocabularyMap s).
  destruct (vocabularyMap s !! normalizeWord token) as [vw|]; [|apply IH].
  change (settings (forgetExcluded s)) with (option_map withoutExcluded (settings s)).
  change (rng (forgetExcluded s)) with (rng s).
  rewrite shouldReplaceWord_withoutExcluded.
  destruct (shouldReplaceWord vw (settings s) (rng s)) as [[[] g]|msg]; [| |done].
  - cbn zeta. unfold createReplacement. cbn zeta. by rewrite <- IH.
  - cbn zeta. by rewrite <- IH.
Qed.

Lemma processTextNode_forgetExcluded leaf text s :
  processTextNode leaf text (forgetExcluded s)
  = onOutcome forgetExcluded (processTextNode leaf text s).
Proof.
  unfold processTextNode.
  destruct (bool_decide (text = []) || bool_decide (trim text = [])); [done|].
  change (textContainsVocabulary (forgetExcluded s) text)
    with (textContainsVocabulary s text).
  destruct (negb (textContainsVocabulary s text)); [done|]. cbn zeta.
  change (set_trace (trace (forgetExcluded s) ++ [Tokenized leaf]) (forgetExcluded s))
    with (forgetExcluded (set_trace (trace s ++ [Tokenized leaf]) s)).
  rewrite replaceWords_forgetExcluded.
  destruct (replaceWords _ _ _ _ _ _) as [[[s2 nc2] []]|s2]; [|done..].
  cbn [onOutcome]. f_equal. unfold replaceTextNode.
  change (nextNodeId (forgetExcluded s2)) with (nextNodeId s2).
  by destruct (fragmentOf nc2 (nextNodeId s2)).
Qed.

Lemma processTextNodes_forgetExcluded nodes :
  forall s,
    processTextNodes nodes (forgetExcluded s)
    = onOutcome forgetExcluded (processTextNodes nodes s).
Proof.
  induction nodes as [|[[leaf text] chain] rest IH]; intros s; cbn [processTextNodes];
    [done|].
  change (processedNodes (forgetExcluded s)) with (processedNodes s).
  destruct (bool_decide (leaf ∈ processedNodes s)); [apply IH|].
  change (set_processedNodes ({[leaf]} ∪ processedNodes s) (forgetExcluded s))
    with (forgetExcluded (set_processedNodes ({[leaf]} ∪ processedNodes s) s)).
  rewrite processTextNode_forgetExcluded.
  destruct (processTextNode leaf text _) as [s2|s2|s2]; cbn [onOutcome]; [apply IH|done..].
Qed.

Lemma processPage_forgetExcluded s :
  processPage (forgetExcluded s) = onOutcome forgetExcluded (processPage s).
Proof.
  unfold processPage.
  assert (enabled (forgetExcluded s) = enabled s) as -> by (unfold enabled; cbn; by destruct (settings s)).
  change (vocabularyMap (forgetExcluded s)) with (vocabularyMap s).
  destruct (negb (enabled s) || bool_decide (size (vocabularyMap s) = 0)); [done|].
  cbn zeta. unfold processContainer.
  change (processedNodes (set_processedNodes ∅ (set_isProcessing true (forgetExcluded s))))
    with (processedNodes (set_processedNodes ∅ (set_isProcessing true s))).
  change (body (set_processedNodes ∅ (set_isProcessing true (forgetExcluded s))))
    with (body (set_processedNodes ∅ (set_isProcessing true s))).
  match goal with |- context [bool_decide ?P] => destruct (bool_decide P) end; [done|].
  cbn zeta.
  match goal with
  | |- context [processTextNodes ?ns ?s1] =>
    match s1 with
    | context [forgetExcluded] =>
      match goal with
      | |- context [onOutcome _ match processTextNodes ?ns' ?s2 with _ => _ end] =>
        change (processTextNodes ns s1) with (processTextNodes ns' (forgetExcluded s2))
      end
    end
  end.
  rewrite processTextNodes_forgetExcluded.
  by destruct (processTextNodes _ _).
Qed.

(** X20. The list of excluded domains is read before the settings are
    loaded: on a script that was just constructed, at a location that
    parses, [initialize] does to the page what it does with no domain
    excluded, whatever domains the settings it loads exclude, the host
    of the page included. *)
Theorem excluded_domains_are_not_consulted
    (s : State) (host : jsstring) (words : option (list VocabularyWord))
    (st : UserSettings) :
  settings s = None ->
  URL_hostname (location_href s) = Some host ->
  onOutcome forgetExcluded
    (initialize (Some {| reply_vocabulary := words; reply_settings := Some st |}) s)
  = initialize (Some {| reply_vocabulary := words;
                        reply_settings := Some (withoutExcluded st) |}) s.
Proof.
  intros Hs Hurl. unfold initialize, isDomainExcluded. rewrite Hs, Hurl. cbn [existsb].
  rewrite <- processPage_forgetExcluded. reflexivity.
Qed.

End Exclusions.

(** *** The script on the scenario *)

(** X14 on the scenario after [initialize]. *)
Lemma arming_cancels_the_pending_timer_example :
  (forall mutations,
      timers (onMutations mutations helloScanned)
      = {[ nextTimerId helloScanned := DebouncedMutations mutations ]} /\
      processTimeout (onMutations mutations helloScanned) = Some (nextTimerId helloScanned) /\
      processingQueue (onMutations mutations helloScanned) = processingQueue helloScanned) /\
  (forall nodes mutations,
      timers (onMutations mutations (queueNodesForProcessing nodes helloScanned))
      = {[ S (nextTimerId helloScanned) := DebouncedMutations mutations ]} /\
      processingQueue (onMutations mutations (queueNodesForProcessing nodes helloScanned))
      = processingQueue (queueNodesForProcessing nodes helloScanned)) /\
  (forall earlier later,
      timers (onMutations later (onMutations earlier helloScanned))
      = {[ S (nextTimerId helloScanned) := DebouncedMutations later ]}).
Proof.
  apply (arming_cancels_the_pending_timer helloScanned).
  split; [vm_compute; lia|apply (bool_decide_unpack _); vm_compute; exact I].
Defined.

(** X15 on the scenario: a callback of the observer, then its timer. *)
Lemma one_timer_at_a_time_example :
  onePendingTimer (stateOf (fireTimer 1 (onMutations [exampleMutation] helloScanned))).
Proof.
  apply (one_timer_at_a_time helloReply exampleHref [] helloPage 3 zeroDraws).
  eapply rtc_l; [apply (step_mutations [exampleMutation])|].
  eapply rtc_l; [apply (step_timer 1)|]. apply rtc_refl.
Defined.

(** X16 on the scenario, with the paragraph queued. *)
Lemma processQueue_empties_the_queue_example :
  exists s',
    processQueue (queueNodesForProcessing [{| q_node := 1; q_nodeType := ELEMENT_NODE |}]
                    helloScanned) = Completed s' /\
    processingQueue s' = [] /\ isProcessing s' = false /\
    settings s' = Some settingsAll /\
    vocabulary s'
    = vocabulary (queueNodesForProcessing [{| q_node := 1; q_nodeType := ELEMENT_NODE |}]
                    helloScanned) /\
    vocabularyMap s'
    = vocabularyMap (queueNodesForProcessing [{| q_node := 1; q_nodeType := ELEMENT_NODE |}]
                       helloScanned).
Proof.
  destruct (processQueue_empties_the_queue
              (queueNodesForProcessing [{| q_node := 1; q_nodeType := ELEMENT_NODE |}]
                 helloScanned) settingsAll) as [Hidle _]; [reflexivity|].
  apply Hidle. reflexivity.
Defined.

(** X17 on the scenario: a callback of the observer, then its timer. *)
Lemma only_vocabulary_is_replaced_example :
  soundRegistry (stateOf (fireTimer 1 (onMutations [exampleMutation] helloScanned))) /\
  soundMap (stateOf (fireTimer 1 (onMutations [exampleMutation] helloScanned))).
Proof.
  apply (only_vocabulary_is_replaced helloReply exampleHref [] helloPage 3 zeroDraws).
  eapply rtc_l; [apply (step_mutations [exampleMutation])|].
  eapply rtc_l; [apply (step_timer 1)|]. apply rtc_refl.
Defined.

(** X18 on the scenario: the page reads [Hello world] again. *)
Lemma processPage_keeps_the_originals_example :
  restoredText
    (replacedWords
       (stateOf (processPage
                   (loadData helloReply (freshScript exampleHref [] helloPage 3 zeroDraws)))))
    (body
       (stateOf (processPage
                   (loadData helloReply (freshScript exampleHref [] helloPage 3 zeroDraws)))))
  = restoredText
      (replacedWords (loadData helloReply (freshScript exampleHref [] helloPage 3 zeroDraws)))
      (body (loadData helloReply (freshScript exampleHref [] helloPage 3 zeroDraws))).
Proof.
  apply (processPage_keeps_the_originals
           (loadData helloReply (freshScript exampleHref [] helloPage 3 zeroDraws))).
  split; by apply (bool_decide_unpack _).
Defined.

(** X20 on the scenario, with the host of the page excluded by the
    settings that are loaded. *)
Lemma excluded_domains_are_not_consulted_example :
  onOutcome forgetExcluded
    (initialize (Some {| reply_vocabulary := Some [helloWord];
                         reply_settings := Some settingsExcluded |})
                (freshScript exampleHref [] helloPage 3 zeroDraws))
  = initialize (Some {| reply_vocabulary := Some [helloWord];
                        reply_settings := Some (withoutExcluded settingsExcluded) |})
               (freshScript exampleHref [] helloPage 3 zeroDraws).
Proof.
  apply (excluded_domains_are_not_consulted
           (freshScript exampleHref [] helloPage 3 zeroDraws) (str "example.com")).
  - reflexivity.
  - reflexivity.
Defined.

(** X21 on a function that was just made: three calls, then the timer. *)
Lemma debounce_passes_the_last_call_example :
  waiting (fold_left debounceStep (List.map Call ([1; 2] ++ [3])) debounce)
  = {[ nextHandle (debounce (Args := nat)) + List.length [1; 2] := 3 ]} /\
  invoked (fold_left debounceStep (List.map Call ([1; 2] ++ [3])) debounce)
  = invoked (debounce (Args := nat)) /\
  invoked (debounceTimer (nextHandle (debounce (Args := nat)) + List.length [1; 2])
             (fold_left debounceStep (List.map Call ([1; 2] ++ [3])) debounce))
  = invoked debounce ++ [3] /\
  waiting (debounceTimer (nextHandle (debounce (Args := nat)) + List.length [1; 2])
             (fold_left debounceStep (List.map Call ([1; 2] ++ [3])) debounce))
  = ∅.
Proof.
  apply (debounce_passes_the_last_call debounce [1; 2] 3).
  by apply (bool_decide_unpack _).
Defined.

(** *** What the page shows after a pass *)

(** A child of an element read through [f]. *)
Lemma shownText_id above n : shownText (fun x => x.1.2) above n = textContent n.
Proof.
  revert above. induction n as [i d|i t cl kids IH] using Node_ind'; intros above; [done|].
  cbn [shownText textContent].
  induction IH as [|k kids Hk _ IHkids]; [done|]. cbn [flat_map]. rewrite IHkids.
  f_equal. destruct k as [j d|j t' cl' kids']; [done|]. apply Hk.
Qed.

Lemma shownText_ext f g above n :
  (forall x, In x (textNodesBelow above n) -> f x = g x) ->
  shownText f above n = shownText g above n.
Proof.
  revert above. induction n as [i d|i t cl kids IH] using Node_ind'; intros above Hfg; [done|].
  cbn [shownText textNodesBelow] in *.
  induction IH as [|k kids Hk _ IHkids]; [done|]. cbn [flat_map] in *.
  rewrite IHkids by (intros x Hx; apply Hfg, in_or_app; by right). f_equal.
  destruct k as [j d|j t' cl' kids'].
  - apply Hfg, in_or_app. left. by left.
  - apply Hk. intros x Hx. apply Hfg, in_or_app. by left.
Qed.

Lemma shownChild_id f chain k :
  (forall y, In y (textNodes chain k) -> f y = y.1.2) ->
  shownChild f chain k = textContent k.
Proof.
  intros Hf. destruct k as [j d|j t cl kids].
  - cbn. apply (Hf (j, d, chain)). by left.
  - cbn [shownChild]. rewrite <- (shownText_id chain). by apply shownText_ext.
Qed.

Lemma shownText_replaceChild f old fragment above n :
  shownText f above (replaceChild old fragment n)
  = shownText (fun x => if leafId x =? old
                        then flat_map (shownChild f x.2) fragment
                        else f x) above n.
Proof.
  revert above. induction n as [i d|i t cl kids IH] using Node_ind'; intros above; [done|].
  cbn [shownText replaceChild].
  induction IH as [|k kids Hk _ IHkids]; [done|]. cbn [flat_map].
  rewrite flat_map_app, IHkids. f_equal.
  destruct k as [j d|j t' cl' kids'].
  - cbn [leafId fst snd]. destruct (j =? old); [done|]. cbn. by rewrite app_nil_r.
  - cbn [flat_map]. rewrite app_nil_r. apply Hk.
Qed.

Lemma textNodes_leafIds_sublist above n :
  List.map leafId (textNodes above n) `sublist_of` nodeIds n.
Proof.
  revert above. induction n as [i d|i t cl kids IH] using Node_ind'; intros above; [done|].
  cbn [textNodes nodeIds]. apply sublist_cons.
  induction IH as [|k kids Hk _ IHkids]; [done|]. cbn [flat_map].
  rewrite List.map_app. by apply sublist_app.
Qed.

Section Translates.
Context {L : LowerCase}.

Lemma translateToken_ext s s' token :
  vocabularyMap s' = vocabularyMap s -> translateToken s' token = translateToken s token.
Proof. intros H. unfold translateToken. by rewrite H. Qed.

Lemma translateText_ext s s' text :
  vocabularyMap s' = vocabularyMap s -> translateText s' text = translateText s text.
Proof.
  intros H. unfold translateText, textContainsVocabulary. rewrite H.
  destruct (_ || _); [done|]. destruct (negb _); [done|].
  apply flat_map_ext. intros token. by apply translateToken_ext.
Qed.

Lemma shouldReplaceWord_all vw st g :
  isEnabled st = true -> replacementMode st = str "all" ->
  shouldReplaceWord vw (Some st) g = Returns (true, g).
Proof. intros He Hm. unfold shouldReplaceWord. by rewrite He, Hm. Qed.

Lemma shownContent_app content c :
  flat_map shownContent (content ++ [c]) = flat_map shownContent content ++ shownContent c.
Proof. rewrite flat_map_app. cbn. by rewrite app_nil_r. Qed.

(** In the mode ['all'] the loop replaces every token that is a word of
    the vocabulary. *)
Lemma replaceWords_all st leaf text words :
  forall s content hasReplacements,
    settings s = Some st -> isEnabled st = true -> replacementMode st = str "all" ->
    exists s' content' hasReplacements',
      replaceWords leaf text words s content hasReplacements
      = inl (s', content', hasReplacements') /\
      flat_map shownContent content'
      = flat_map shownContent content ++ flat_map (translateToken s) words /\
      (hasReplacements' = false ->
       hasReplacements = false /\ flat_map (translateToken s) words = concat words).
Proof.
  induction words as [|token rest IH]; intros s nc h Hs He Hm; cbn [replaceWords].
  { exists s, nc, h. split_and!; [done|by rewrite app_nil_r|done]. }
  cbn [flat_map concat]. unfold translateToken at 1 3.
  destruct (hasWhiteSpace token).
  { destruct (IH s (nc ++ [Literal token]) h Hs He Hm) as (s' & nc' & h' & -> & Htext & Hno).
    exists s', nc', h'. split_and!; [done| |].
    - rewrite Htext, shownContent_app. by rewrite <- app_assoc.
    - intros Hh. destruct (Hno Hh) as [-> ->]. done. }
  destruct (vocabularyMap s !! normalizeWord token) as [vw|] eqn:Hvw.
  2:{ destruct (IH s (nc ++ [Literal token]) h Hs He Hm) as (s' & nc' & h' & -> & Htext & Hno).
      exists s', nc', h'. split_and!; [done| |].
      - rewrite Htext, shownContent_app. by rewrite <- app_assoc.
      - intros Hh. destruct (Hno Hh) as [-> ->]. done. }
  rewrite Hs, (shouldReplaceWord_all vw st (rng s) He Hm). cbn zeta.
  unfold createReplacement. cbn zeta.
  match goal with |- context [replaceWords _ _ _ ?sx (nc ++ [Marker ?sp]) true] =>
    destruct (IH sx (nc ++ [Marker sp]) true) as (s' & nc' & h' & -> & Htext & Hno);
      [done..|];
    assert (textContent sp = hebrew vw) as Hspan
  end.
  { cbn [textContent]. destruct (hebrew vw); [done|]. cbn. by rewrite app_nil_r. }
  exists s', nc', h'. split_and!; [done| |].
  - rewrite Htext, shownContent_app. cbn [shownContent]. rewrite Hspan, <- app_assoc.
    reflexivity.
  - intros Hh. by destruct (Hno Hh).
Qed.

Lemma fragmentOf_shows content :
  forall fresh,
    flat_map textContent (fragmentOf content fresh).1 = flat_map shownContent content.
Proof.
  induction content as [|[lit|span] content IH]; intros fresh; cbn [fragmentOf]; [done| |].
  - specialize (IH (S fresh)). destruct (fragmentOf content (S fresh)) as [nodes fresh'].
    cbn in IH |- *. by rewrite IH.
  - specialize (IH fresh). destruct (fragmentOf content fresh) as [nodes fresh'].
    cbn in IH |- *. by rewrite IH.
Qed.

(** One text node in the mode ['all']: it is replaced by nodes, all new,
    that show its translation, or it is left when there is nothing to
    translate. *)
Lemma processTextNode_shows st leaf text s :
  settings s = Some st -> isEnabled st = true -> replacementMode st = str "all" ->
  exists s' fragment,
    processTextNode leaf text s = Completed s' /\
    flat_map textContent fragment = translateText s text /\
    (body s' = replaceChild leaf fragment (body s) \/
     body s' = body s /\ translateText s text = text) /\
    Forall (fun j => nextNodeId s <= j) (flat_map nodeIds fragment).
Proof.
  intros Hs He Hm. unfold processTextNode, translateText.
  destruct (bool_decide (text = []) || bool_decide (trim text = [])).
  { exists s, [Text (nextNodeId s) text]. cbn. rewrite app_nil_r.
    split_and!; [done..|by right|]. by repeat constructor. }
  destruct (negb (textContainsVocabulary s text)).
  { exists s, [Text (nextNodeId s) text]. cbn. rewrite app_nil_r.
    split_and!; [done..|by right|]. by repeat constructor. }
  cbn zeta.
  match goal with |- context [replaceWords ?a ?b ?c ?s1 ?nc1 ?h1] =>
    pose proof (replaceWords_frame a b c s1 nc1 h1) as (_ & Hb & _);
    destruct (replaceWords_restores a b c s1 nc1 h1 (nextNodeId s))
      as (Hle & _ & Hres); [done|constructor|];
    destruct (replaceWords_all st a b c s1 nc1 h1) as (s2 & nc2 & h2 & Hrun & Htext & Hno);
      [done..|]
  end.
  rewrite Hrun in Hb, Hle, Hres |- *. cbn [loopState] in Hb, Hle.
  cbn [body nextNodeId set_trace] in Hb, Hle. destruct Hres as [Hm2 _].
  cbn [flat_map app] in Htext.
  assert (flat_map (translateToken (set_trace (trace s ++ [Tokenized leaf]) s))
                   (splitWhiteSpace text)
          = flat_map (translateToken s) (splitWhiteSpace text)) as Hsame.
  { apply flat_map_ext. intros t. by apply translateToken_ext. }
  rewrite Hsame in Htext, Hno.
  destruct h2.
  - unfold replaceTextNode.
    destruct (fragmentOf_restores (replacedWords s2) (nextNodeId s) nc2 (nextNodeId s2))
      as (_ & _ & Hfids).
    { done. }
    { eapply Forall_impl; [exact Hm2|]. intros [lit|m]; [done|]. by intros (_ & _ & H). }
    pose proof (fragmentOf_shows nc2 (nextNodeId s2)) as Hshow.
    destruct (fragmentOf nc2 (nextNodeId s2)) as [fragment fresh].
    cbn [fst snd] in Hfids, Hshow. eexists. exists fragment. split; [done|]. split_and!.
    + by rewrite Hshow.
    + left. cbn. by rewrite Hb.
    + eapply Forall_impl; [exact Hfids|]. intros j Hj. cbn in Hj. lia.
  - destruct (Hno eq_refl) as [_ Hkeep]. rewrite splitWhiteSpace_concat in Hkeep.
    exists s2, [Text (nextNodeId s) (flat_map (translateToken s) (splitWhiteSpace text))].
    split; [done|]. cbn. rewrite app_nil_r. split_and!; [done|by right|].
    by repeat constructor.
Qed.

End Translates.

Lemma flat_map_ext_in {A B : Type} (f g : A -> list B) (l : list A) :
  (forall a, In a l -> f a = g a) -> flat_map f l = flat_map g l.
Proof.
  induction l as [|a l IH]; intros Hfg; [done|]. cbn [flat_map].
  rewrite (Hfg a) by (by left). rewrite IH; [done|]. intros b Hb. apply Hfg. by right.
Qed.

Section TranslatesPage.
Context {L : LowerCase}.

(** The loop of [processContainer] in the mode ['all'], over text nodes
    of the document that are listed once and were not processed: the
    document then shows the translation of each of them. *)
Lemma processTextNodes_shows st nodes :
  forall s above,
    settings s = Some st -> isEnabled st = true -> replacementMode st = str "all" ->
    Forall (fun i => i < nextNodeId s) (nodeIds (body s)) ->
    (forall x, In x nodes -> leafId x < nextNodeId s) ->
    (forall x y, In x nodes -> In y (textNodes [] (body s)) ->
                 leafId y = leafId x -> y.1.2 = x.1.2) ->
    NoDup (List.map leafId nodes) ->
    (forall x, In x nodes -> leafId x ∉ processedNodes s) ->
    exists s',
      processTextNodes nodes s = Completed s' /\
      textContent (body s')
      = shownText (fun x => if bool_decide (leafId x ∈ List.map leafId nodes)
                            then translateText s x.1.2 else x.1.2)
                  above (body s).
Proof.
  induction nodes as [|[[leaf text] chain] rest IH];
    intros s above Hs He Hm Hids Hlt Hdata Hnd Hnew; cbn [processTextNodes].
  { exists s. split; [done|]. rewrite <- (shownText_id above). apply shownText_ext.
    intros x _. rewrite bool_decide_eq_false_2; [done|]. apply not_elem_of_nil. }
  rewrite bool_decide_eq_false_2 by (apply (Hnew (leaf, text, chain)); by left).
  set (s0 := set_processedNodes ({[leaf]} ∪ processedNodes s) s).
  destruct (processTextNode_shows st leaf text s0) as (s1 & fragment & Hrun & Hshow & Hbody & Hfresh);
    [done..|].
  destruct (processTextNode_restores leaf text s0) as (_ & Hle & Hids1 & Hold).
  { done. }
  { intros x Hx Hid. apply (Hdata (leaf, text, chain) x); [by left|done..]. }
  pose proof (processTextNode_frame leaf text s0) as (Hp1 & _).
  pose proof (processTextNode_outside leaf text s0) as Hout.
  destruct (processTextNode_completes st leaf text s0 Hs) as (s1' & Hrun' & Hs1).
  rewrite Hrun in Hle, Hids1, Hold, Hp1, Hout, Hrun' |- *. injection Hrun' as <-.
  cbn [stateOf] in Hle, Hids1, Hold, Hp1, Hout.
  cbn [nextNodeId body processedNodes s0 set_processedNodes] in Hle, Hids1, Hold, Hp1, Hfresh.
  apply NoDup_cons in Hnd as [Hleaf Hnd]. cbn [leafId fst] in Hleaf.
  assert (vocabularyMap s1 = vocabularyMap s) as Hmap by exact (f_equal vocabularyMap Hout).
  destruct (IH s1 above) as (s' & Hrest & Htext); [done..| | | | |].
  { intros x Hx. specialize (Hlt x (or_intror Hx)). lia. }
  { intros x y Hx Hy Hid. destruct (Hold y Hy) as [Hy'|Hy'].
    - apply (Hdata x y); [by right|done..].
    - specialize (Hlt x (or_intror Hx)). lia. }
  { done. }
  { intros x Hx. rewrite Hp1. intros [Hin|Hin]%elem_of_union.
    - apply elem_of_singleton in Hin. apply Hleaf. rewrite <- Hin.
      apply list_elem_of_In, in_map_iff. eauto.
    - by apply (Hnew x (or_intror Hx)). }
  exists s'. split; [done|]. rewrite Htext.
  assert (forall x, In x (textNodesBelow above (body s)) -> leafId x = leaf -> x.1.2 = text)
    as Hleafdata.
  { intros x Hx Hid. apply textNodesBelow_textNodes in Hx.
    destruct (textNodes_rechain (body s) above [] x Hx) as [c Hc].
    apply (Hdata (leaf, text, chain) (x.1.1, x.1.2, c)); [by left|done..]. }
  destruct Hbody as [Hbody|[Hbody Hkeep]]; rewrite Hbody.
  - rewrite shownText_replaceChild. apply shownText_ext. intros x Hx.
    cbn [List.map leafId fst]. destruct (Nat.eqb_spec (leafId x) leaf) as [Hid|Hne].
    + rewrite bool_decide_eq_true_2 by (rewrite Hid; apply list_elem_of_here).
      rewrite (Hleafdata x Hx Hid).
      change (translateText s text) with (translateText s0 text). rewrite <- Hshow.
      apply flat_map_ext_in. intros k Hk. apply shownChild_id. intros y Hy.
      rewrite bool_decide_eq_false_2; [done|].
      intros (z & Hz & Hin)%list_elem_of_In%in_map_iff.
      specialize (Hlt z (or_intror Hin)).
      assert (In (leafId y) (flat_map nodeIds fragment)) as Hfrag.
      { apply in_flat_map. exists k. split; [done|]. eapply textNodes_nodeIds, Hy. }
      rewrite Forall_forall in Hfresh. apply list_elem_of_In, Hfresh in Hfrag. lia.
    + rewrite (translateText_ext s s1) by done.
      destruct (bool_decide_reflect (leafId x ∈ List.map leafId rest)) as [Hin|Hout'].
      * by rewrite bool_decide_eq_true_2 by (by apply list_elem_of_further).
      * rewrite bool_decide_eq_false_2; [done|].
        intros [?|?]%elem_of_cons; [done|]. by apply Hout'.
  - apply shownText_ext. intros x Hx. cbn [List.map leafId fst].
    rewrite (translateText_ext s s1) by done.
    destruct (Nat.eqb_spec (leafId x) leaf) as [Hid|Hne].
    + rewrite bool_decide_eq_false_2 by (by rewrite Hid).
      rewrite bool_decide_eq_true_2 by (rewrite Hid; apply list_elem_of_here).
      rewrite (Hleafdata x Hx Hid). symmetry. exact Hkeep.
    + destruct (bool_decide_reflect (leafId x ∈ List.map leafId rest)) as [Hin|Hout'].
      * by rewrite bool_decide_eq_true_2 by (by apply list_elem_of_further).
      * rewrite bool_decide_eq_false_2; [done|].
        intros [?|?]%elem_of_cons; [done|]. by apply Hout'.
Qed.

End TranslatesPage.

Section TranslatesTheorem.
Context {L : LowerCase}.

Lemma textContainsVocabulary_empty s text :
  vocabularyMap s = ∅ -> textContainsVocabulary s text = false.
Proof. intros H. unfold textContainsVocabulary. by rewrite H, map_to_list_empty. Qed.

Lemma accepted_processedNodes s s' x :
  processedNodes s' = processedNodes s -> accepted s' x = accepted s x.
Proof.
  intros H. unfold accepted, acceptNode. destruct x as [[i d] above].
  destruct above as [|parent above]; [done|]. by rewrite H.
Qed.

(** X24. What the page shows after a pass in the mode ['all']: on a page
    whose nodes have their own identities, below the identity the next
    node gets, [processPage] returns, and the text of the document is
    then the text it had with every text node that the filter of the
    tree walker accepts read as its translation (each token that is a
    word of the vocabulary under normalization replaced by the word's
    [hebrew], white space and the other tokens kept; a text that is
    blank or that the quick check rejects kept as a whole), and every
    other text node read as it was. *)
Theorem processPage_shows_the_translations (s : State) (st : UserSettings) :
  settings s = Some st ->
  isEnabled st = true ->
  replacementMode st = str "all" ->
  wellNumbered (body s) (nextNodeId s) ->
  exists s',
    processPage s = Completed s' /\
    textContent (body s')
    = shownText (fun x => if accepted (set_processedNodes {[nodeId (body s)]} s) x
                          then translateText s x.1.2 else x.1.2)
                (bodyAncestors s) (body s).
Proof.
  intros Hs He Hm [Hnd Hids]. unfold processPage, enabled. rewrite Hs, He. cbn [negb orb].
  destruct (bool_decide_reflect (size (vocabularyMap s) = 0)) as [Hsize|Hsize].
  { exists s. split; [done|]. rewrite <- (shownText_id (bodyAncestors s)).
    apply shownText_ext. intros x _. destruct (accepted _ x); [|done].
    unfold translateText. rewrite textContainsVocabulary_empty by (by apply map_size_empty_inv).
    by destruct (_ || _). }
  cbn zeta. unfold processContainer.
  rewrite bool_decide_eq_false_2 by apply not_elem_of_empty. cbn zeta.
  set (s0 := set_processedNodes ∅ (set_isProcessing true s)).
  set (s2 := set_processedNodes ({[nodeId (body s0)]} ∪ processedNodes s0) s0).
  set (nodes := List.filter (accepted s2) (textNodesBelow (bodyAncestors s0) (body s0))).
  assert (forall x, accepted s2 x = accepted (set_processedNodes {[nodeId (body s)]} s) x)
    as Hacc.
  { intros x. apply accepted_processedNodes. cbn. apply union_empty_r_L. }
  assert (NoDup (List.map leafId (textNodesBelow (bodyAncestors s) (body s)))) as Hnd'.
  { assert (List.map leafId (textNodesBelow (bodyAncestors s) (body s))
            `sublist_of` nodeIds (body s)) as Hsub.
    { destruct (body s) as [i d|i t cl kids]; [apply sublist_nil_l|].
      apply (textNodes_leafIds_sublist (bodyAncestors s) (Element i t cl kids)). }
    by eapply sublist_NoDup. }
  destruct (processTextNodes_shows st nodes s2 (bodyAncestors s)) as (s' & Hrun & Htext);
    [done..| | | | |].
  { intros x [Hx _]%filter_In. apply textNodesBelow_textNodes, textNodes_nodeIds in Hx.
    rewrite Forall_forall in Hids. by apply Hids, list_elem_of_In. }
  { intros x y [Hx _]%filter_In Hy Hid. apply textNodesBelow_textNodes in Hx.
    by apply (textNodes_unique (body s) Hnd [] (bodyAncestors s) y x). }
  { unfold nodes. eapply sublist_NoDup; [exact Hnd'|].
    clear. induction (textNodesBelow _ _) as [|x l IH]; [done|].
    cbn [List.filter]. destruct (accepted s2 x); cbn [List.map];
      [by apply sublist_skip|by apply sublist_cons]. }
  { intros [[i d] above] [_ Hx]%filter_In. unfold accepted, acceptNode in Hx.
    destruct above as [|parent above]; [done|].
    destruct (isSkipTag _); [done|]. destruct (_ || _); [done|].
    destruct (bool_decide_reflect (i ∈ processedNodes s2)); [done|]. done. }
  rewrite Hrun. eexists. split; [done|]. cbn [body set_isProcessing]. rewrite Htext.
  apply shownText_ext. intros x Hx. rewrite <- Hacc.
  change (translateText s2 x.1.2) with (translateText s x.1.2).
  destruct (accepted s2 x) eqn:Hax.
  - rewrite bool_decide_eq_true_2; [done|].
    apply list_elem_of_In, in_map. apply filter_In. by split.
  - rewrite bool_decide_eq_false_2; [done|].
    intros (y & Hy & [Hin Hay]%filter_In)%list_elem_of_In%in_map_iff.
    assert (y = x) as ->; [|congruence].
    by apply (NoDup_map_eq leafId (textNodesBelow (bodyAncestors s) (body s))).
Qed.

End TranslatesTheorem.

(** X24 on the scenario: the paragraph reads the translation of
    [Hello], a blank and [world]. *)
Lemma processPage_shows_the_translations_example :
  exists s',
    processPage (loadData helloReply (freshScript exampleHref [] helloPage 3 zeroDraws))
    = Completed s' /\
    textContent (body s')
    = shownText
        (fun x =>
           if accepted
                (set_processedNodes
                   {[nodeId (body (loadData helloReply
                                     (freshScript exampleHref [] helloPage 3 zeroDraws)))]}
                   (loadData helloReply (freshScript exampleHref [] helloPage 3 zeroDraws))) x
           then translateText
                  (loadData helloReply (freshScript exampleHref [] helloPage 3 zeroDraws))
                  x.1.2
           else x.1.2)
        (bodyAncestors (loadData helloReply (freshScript exampleHref [] helloPage 3 zeroDraws)))
        (body (loadData helloReply (freshScript exampleHref [] helloPage 3 zeroDraws))).
Proof.
  apply (processPage_shows_the_translations
           (loadData helloReply (freshScript exampleHref [] helloPage 3 zeroDraws))
           settingsAll).
  - reflexivity.
  - reflexivity.
  - reflexivity.
  - split; by apply (bool_decide_unpack _).
Defined.

(** What that is. *)
Example scenario_shown :
  shownText
    (fun x =>
       if accepted
            (set_processedNodes {[0]}
               (loadData helloReply (freshScript exampleHref [] helloPage 3 zeroDraws))) x
       then translateText
              (loadData helloReply (freshScript exampleHref [] helloPage 3 zeroDraws)) x.1.2
       else x.1.2)
    [] helloPage
  = shalom ++ str " world".
Proof. vm_compute. reflexivity. Qed.

(** *** The messages *)

Section Reports.
Context {L : LowerCase}.

Lemma reports_refl s : registeredBelow s -> reports s s [].
Proof. intros Hb. split_and!; try done. by rewrite app_nil_r. Qed.

Lemma reports_trans s1 s2 s3 sent sent' :
  registeredBelow s1 ->
  reports s1 s2 sent -> reports s2 s3 sent' -> reports s1 s3 (sent ++ sent').
Proof.
  intros Hb1 (Ho & Hsz & Hm & Hn & Hk & Hb & Hl) (Ho' & Hsz' & Hm' & Hn' & Hk' & Hb' & Hl').
  split_and!.
  - by rewrite Ho', Ho, app_assoc.
  - rewrite Hsz', Hsz, length_app. lia.
  - apply Forall_app. split.
    + eapply Forall_impl; [exact Hm|]. intros m (Hu & key & r & Hr & Hnone & Hid).
      split; [done|]. exists key, r. split_and!; [|done..].
      rewrite Hk'; [done|]. by apply (Hb key r).
    + eapply Forall_impl; [exact Hm'|]. intros m (Hu & key & r & Hr & Hnone & Hid).
      split; [congruence|]. exists key, r. split_and!; [done| |done].
      destruct (replacedWords s1 !! key) as [r1|] eqn:Hr1; [|done].
      pose proof (Hb1 key r1 Hr1) as Hlt. cbn in Hlt. rewrite Hk in Hnone by done.
      congruence.
  - lia.
  - intros key Hkey. rewrite Hk' by lia. by apply Hk.
  - done.
  - congruence.
Qed.

Lemma replaceWords_reports leaf text words :
  forall s content hasReplacements,
    registeredBelow s ->
    exists sent,
      reports s (loopState (replaceWords leaf text words s content hasReplacements)) sent.
Proof.
  induction words as [|token rest IH]; intros s nc h Hb; cbn [replaceWords].
  { exists []. by apply reports_refl. }
  destruct (hasWhiteSpace token); [by apply IH|].
  destruct (vocabularyMap s !! normalizeWord token) as [vw|]; [|by apply IH].
  destruct (shouldReplaceWord vw (settings s) (rng s)) as [[[] g]|msg].
  - cbn zeta. unfold createReplacement. cbn zeta.
    match goal with |- context [replaceWords _ _ _ ?sx ?ncx ?hx] =>
      set (s1 := sx);
      assert (reports s s1
                [{| msg_wordId := id vw; msg_url := location_href s;
                    msg_context :=
                      extractContext text 0 (Z.of_nat (List.length (english vw))) |}])
        as Hstep
    end.
    { assert (replacedWords s !! nextNodeId s = None) as Hfresh.
      { destruct (replacedWords s !! nextNodeId s) as [r|] eqn:Hr; [|done].
        pose proof (Hb _ _ Hr) as Hlt. cbn in Hlt. lia. }
      split_and!.
      - done.
      - cbn. rewrite map_size_insert_None by done. lia.
      - constructor; [|done]. split; [done|].
        exists (nextNodeId s), {| original := token; word := vw |}. split_and!; [|done..].
        cbn. apply lookup_insert_eq.
      - cbn. lia.
      - intros key Hkey. cbn. apply lookup_insert_ne. lia.
      - intros key r. cbn. intros [[<- _]|[_ Hr]]%lookup_insert_Some; [lia|].
        pose proof (Hb _ _ Hr) as Hlt. cbn in Hlt. lia.
      - done. }
    destruct (IH s1 (nc ++ [Marker (Element (nextNodeId s) (str "SPAN") [markerClass]
                                          match hebrew vw with
                                          | [] => []
                                          | _ :: _ => [Text (S (nextNodeId s)) (hebrew vw)]
                                          end)]) true) as [sent Hrest].
    { apply Hstep. }
    eexists. by eapply reports_trans.
  - cbn zeta. destruct (IH (set_rng g s) (nc ++ [Literal token]) h Hb) as [sent Hrest].
    exists sent. exact Hrest.
  - exists []. by apply reports_refl.
Qed.

Lemma processTextNode_reports leaf text s :
  registeredBelow s ->
  exists sent, reports s (stateOf (processTextNode leaf text s)) sent.
Proof.
  intros Hb. unfold processTextNode.
  destruct (bool_decide (text = []) || bool_decide (trim text = []));
    [exists []; by apply reports_refl|].
  destruct (negb (textContainsVocabulary s text)); [exists []; by apply reports_refl|].
  cbn zeta.
  match goal with |- context [replaceWords ?a ?b ?c ?s1 ?nc1 ?h1] =>
    destruct (replaceWords_reports a b c s1 nc1 h1) as [sent Hr]; [exact Hb|];
    destruct (replaceWords a b c s1 nc1 h1) as [[[s2 nc2] []]|s2] end;
    cbn [loopState] in Hr; cbn [stateOf]; exists sent; [|exact Hr..].
  unfold replaceTextNode.
  assert (nextNodeId s2 <= (fragmentOf nc2 (nextNodeId s2)).2) as Hle.
  { clear. generalize (nextNodeId s2). induction nc2 as [|[lit|m] nc IH]; intros n;
      cbn [fragmentOf]; [done| |].
    - specialize (IH (S n)). destruct (fragmentOf nc (S n)). cbn in *. lia.
    - specialize (IH n). destruct (fragmentOf nc n). cbn in *. lia. }
  destruct (fragmentOf nc2 (nextNodeId s2)) as [fragment fresh]. cbn [snd] in Hle.
  destruct Hr as (Ho & Hsz & Hm & Hn & Hk & Hb2 & Hl).
  split_and!; try done.
  - cbn. cbn in Hn. lia.
  - intros key r Hr. pose proof (Hb2 key r Hr) as Hlt. cbn in Hlt |- *. lia.
Qed.

Lemma processTextNodes_reports nodes :
  forall s,
    registeredBelow s ->
    exists sent, reports s (stateOf (processTextNodes nodes s)) sent.
Proof.
  induction nodes as [|[[leaf text] chain] rest IH]; intros s Hb; cbn [processTextNodes].
  { exists []. by apply reports_refl. }
  destruct (bool_decide (leaf ∈ processedNodes s)); [by apply IH|].
  match goal with |- context [processTextNode leaf text ?s1] =>
    destruct (processTextNode_reports leaf text s1) as [sent Hr]; [exact Hb|];
    destruct (processTextNode leaf text s1) as [s2|s2|s2] end;
    cbn [stateOf] in *; [|by exists sent..].
  destruct (IH s2) as [sent' Hr']; [apply Hr|].
  exists (sent ++ sent'). by apply (reports_trans s s2).
Qed.

(** X25. Every replacement is reported, and nothing else is: when the
    registered elements have identities below the one the next node
    gets, [processPage] hands as many [RECORD_OCCURRENCE] messages to be
    sent to the background script as it registers replacements; each
    message carries the location of the page and the [id] of the word of
    a replacement that was registered in the pass; the messages of
    before stay, and the replacements registered before are kept as they
    were. *)
Theorem processPage_reports_every_replacement (s : State) :
  registeredBelow s ->
  exists sent,
    outbox (stateOf (processPage s)) = outbox s ++ sent /\
    size (replacedWords (stateOf (processPage s)))
    = size (replacedWords s) + List.length sent /\
    Forall (fun m =>
              msg_url m = location_href s /\
              exists key r,
                replacedWords (stateOf (processPage s)) !! key = Some r /\
                replacedWords s !! key = None /\
                msg_wordId m = id (word r)) sent /\
    (forall key r, replacedWords s !! key = Some r ->
                   replacedWords (stateOf (processPage s)) !! key = Some r).
Proof.
  intros Hb.
  assert (exists sent, reports s (stateOf (processPage s)) sent) as [sent Hr].
  { unfold processPage.
    destruct (negb (enabled s) || bool_decide (size (vocabularyMap s) = 0));
      [exists []; by apply reports_refl|].
    cbn zeta. unfold processContainer.
    rewrite bool_decide_eq_false_2 by apply not_elem_of_empty. cbn zeta.
    match goal with |- context [processTextNodes ?ns ?s1] =>
      destruct (processTextNodes_reports ns s1) as [sent Hr]; [exact Hb|];
      destruct (processTextNodes ns s1) as [s2|s2|s2] end; exists sent; exact Hr. }
  destruct Hr as (Ho & Hsz & Hm & _ & Hk & _ & _).
  exists sent. split_and!; [done..|].
  intros key r Hr. rewrite Hk; [done|]. by apply (Hb key r).
Qed.

End Reports.

(** X25 on the scenario: one replacement, one message. *)
Lemma processPage_reports_every_replacement_example :
  exists sent,
    outbox (stateOf (processPage
                       (loadData helloReply
                          (freshScript exampleHref [] helloPage 3 zeroDraws))))
    = outbox (loadData helloReply (freshScript exampleHref [] helloPage 3 zeroDraws))
      ++ sent /\
    size (replacedWords
            (stateOf (processPage
                        (loadData helloReply
                           (freshScript exampleHref [] helloPage 3 zeroDraws)))))
    = size (replacedWords
              (loadData helloReply (freshScript exampleHref [] helloPage 3 zeroDraws)))
      + List.length sent /\
    Forall (fun m =>
              msg_url m
              = location_href
                  (loadData helloReply (freshScript exampleHref [] helloPage 3 zeroDraws)) /\
              exists key r,
                replacedWords
                  (stateOf (processPage
                              (loadData helloReply
                                 (freshScript exampleHref [] helloPage 3 zeroDraws))))
                  !! key = Some r /\
                replacedWords
                  (loadData helloReply (freshScript exampleHref [] helloPage 3 zeroDraws))
                  !! key = None /\
                msg_wordId m = id (word r)) sent /\
    (forall key r,
        replacedWords
          (loadData helloReply (freshScript exampleHref [] helloPage 3 zeroDraws))
          !! key = Some r ->
        replacedWords
          (stateOf (processPage
                      (loadData helloReply
                         (freshScript exampleHref [] helloPage 3 zeroDraws))))
          !! key = Some r).
Proof.
  apply (processPage_reports_every_replacement
           (loadData helloReply (freshScript exampleHref [] helloPage 3 zeroDraws))).
  apply (bool_decide_unpack _). vm_compute. exact I.
Defined.

(** *** The occurrences the background script records *)

Import Background.




















(** A run alone at the database is the call of [recordOccurrence]. *)
Lemma serve_alone m stamp payload :
  (serve m [(stamp, payload)] [0; 0; 0]).1
  = match recordOccurrence m (stamp_uuid stamp) (stamp_now stamp) (stamp_later stamp)
            (msg_wordId payload) (msg_url payload) (msg_context payload) with
    | Returns m' => m'
    | Throws _ => m
    end.
Proof.
  unfold serve, recordOccurrence, receive. cbn [List.map fold_left fst snd].
  destruct (db m) as [d|] eqn:Hdb.
  - destruct (addOccurrence _ d) as [d1|] eqn:Hadd.
    + destruct (vocabularyStore d1 !! msg_wordId payload) as [w|] eqn:Hw;
        unfold turn, handlerStep; cbn; rewrite Hdb; cbn; rewrite Hadd; cbn; by rewrite Hw.
    + unfold turn, handlerStep. cbn. rewrite Hdb. cbn. by rewrite Hadd.
  - unfold turn, handlerStep. cbn. by rewrite Hdb.
Qed.


(** The two runs turn by turn: both read the counter before either puts
    it back, two occurrences are recorded and the counter grows by one.
    One after the other, it grows by two. *)
Example handleMessage_lost_update :
  (forall d' w',
      db (serve {| db := Some exampleStores |} exampleRuns [0; 1; 0; 1; 0; 1]).1 = Some d' ->
      vocabularyStore d' !! str "1" = Some w' ->
      List.length (occurrencesByWordId d' (str "1")) = 4 /\
      timesShown w' = (timesShown helloWord + 1)%N) /\
  (forall d' w',
      db (serve {| db := Some exampleStores |} exampleRuns [0; 0; 0; 1; 1; 1]).1 = Some d' ->
      vocabularyStore d' !! str "1" = Some w' ->
      List.length (occurrencesByWordId d' (str "1")) = 4 /\
      timesShown w' = (timesShown helloWord + 2)%N).
Proof.
  split; intros d' w' Hd' Hw'.
  - vm_compute in Hd'. injection Hd' as <-. vm_compute in Hw'. injection Hw' as <-.
    by vm_compute.
  - vm_compute in Hd'. injection Hd' as <-. vm_compute in Hw'. injection Hw' as <-.
    by vm_compute.
Qed.
